(** * Tiny Llama: a shallow embedding of the inference core and its weight codec

    The development follows the C++ sources: [matrix.cpp] (the numeric
    container and its file format), [tokenizer.cpp] (vocabulary and BPE
    tokenizer), [model.cpp] (attention, feed-forward network, transformer
    block, model orchestrator, weight codec) and [tiny_llama.cpp] (the public
    facade).

    Conventions.
    - [float] is IEEE 754 binary32, computed with the Standard Library's
      executable specification ([SpecFloat], precision 24, emax 128).
    - [std::exp] and [std::tanh] come from libm and [rand] from libc; they are
      parameters of the embedding (record [Env]).
    - A C++ function that can throw returns a [result]; an exception carries
      its class and the fixed part of its message (the numbers that the source
      formats into the message with [std::to_string] are left out).
    - [size_t] is a 64-bit unsigned integer and [int] a 32-bit signed one, as
      on the LP64 targets the project builds for; files are little-endian.
    - Memory is unbounded: an allocation never fails. *)

From Stdlib Require Import ZArith NArith PArith String Ascii List Bool Lia.
From Stdlib Require Import Reals Lra.
From Stdlib Require Import Floats.SpecFloat.
From Stdlib Require Import Init.Byte.
Import ListNotations.

Open Scope Z_scope.

(* ------------------------------------------------------------------ *)
(** ** Exceptions and results *)

(** The exception classes of [exceptions.hpp] that the core throws, and the
    two standard exceptions thrown by the numeric container. *)
Inductive exn : Type :=
| FileIOException (what : string)
| ModelException (what : string)
| TokenizerException (what : string)
| ConfigurationException (what : string)
| std_invalid_argument (what : string)
| std_out_of_range (what : string).

(** Outcome of a call: a value, a thrown exception, or [Indeterminate] when
    the call goes on to use a local that a failed stream read left
    uninitialised (the loaders do not test the stream after reading a scalar). *)
Inductive result (A : Type) : Type :=
| Ok (a : A)
| Throw (e : exn)
| Indeterminate.
Arguments Ok {A} a.
Arguments Throw {A} e.
Arguments Indeterminate {A}.

Definition bind {A B : Type} (r : result A) (k : A -> result B) : result B :=
  match r with
  | Ok a => k a
  | Throw e => Throw e
  | Indeterminate => Indeterminate
  end.

Notation "x <- c1 ;; c2" := (bind c1 (fun x => c2))
  (at level 61, c1 at next level, right associativity).
Notation "'check' c 'else' e ;; k" := (if c then k else Throw e)
  (at level 61, c at next level, e at next level, right associativity).

Definition is_ok {A : Type} (r : result A) : bool :=
  match r with Ok _ => true | _ => false end.

(** [catch (const K&)] for an exception class [K]. *)
Definition is_FileIOException (e : exn) : bool :=
  match e with FileIOException _ => true | _ => false end.
Definition is_ModelException (e : exn) : bool :=
  match e with ModelException _ => true | _ => false end.
Definition is_TokenizerException (e : exn) : bool :=
  match e with TokenizerException _ => true | _ => false end.

(** [TinyLlamaException] is the base of the four project exceptions;
    [std::invalid_argument] and [std::out_of_range] are not derived from it. *)
Definition is_TinyLlamaException (e : exn) : bool :=
  match e with
  | FileIOException _ | ModelException _
  | TokenizerException _ | ConfigurationException _ => true
  | _ => false
  end.

Fixpoint mapM {A B : Type} (f : A -> result B) (l : list A) : result (list B) :=
  match l with
  | [] => Ok []
  | a :: l' => b <- f a ;; bs <- mapM f l' ;; Ok (b :: bs)
  end.

(* ------------------------------------------------------------------ *)
(** ** Machine integers and bytes *)

Definition size_t_modulus : N := (2 ^ 64)%N.

(** Unsigned 64-bit arithmetic of [size_t]. *)
Definition size_mul (a b : N) : N := ((a * b) mod size_t_modulus)%N.
Definition size_add (a b : N) : N := ((a + b) mod size_t_modulus)%N.

(** Conversion of an [int] to [size_t] (modulo 2^64), as in the comparisons
    and constructor calls that mix the two. *)
Definition to_size_t (z : Z) : N := Z.to_N (z mod 2 ^ 64).

Definition byte_of_Z (z : Z) : byte :=
  match Byte.of_N (Z.to_N (z mod 256)) with
  | Some b => b
  | None => x00
  end.

Definition Z_of_byte (b : byte) : Z := Z.of_N (Byte.to_N b).

(** The [n] little-endian bytes of an unsigned integer, and back. *)
Fixpoint encode_le (n : nat) (z : Z) : list byte :=
  match n with
  | O => []
  | S n' => byte_of_Z z :: encode_le n' (z / 256)
  end.

Fixpoint decode_le (bs : list byte) : Z :=
  match bs with
  | [] => 0
  | b :: bs' => Z_of_byte b + 256 * decode_le bs'
  end.

(** A 32-bit pattern read as a two's complement [int]. *)
Definition int_of_u32 (u : Z) : Z := if u <? 2 ^ 31 then u else u - 2 ^ 32.

(** Cut a byte sequence into consecutive chunks of [n] bytes ([k] of them). *)
Fixpoint chunks (n k : nat) (bs : list byte) : list (list byte) :=
  match k with
  | O => []
  | S k' => firstn n bs :: chunks n k' (skipn n bs)
  end.

(* ------------------------------------------------------------------ *)
(** ** binary32 *)

Definition float32 : Type := spec_float.

Definition f32_add : float32 -> float32 -> float32 := SFadd 24 128.
Definition f32_sub : float32 -> float32 -> float32 := SFsub 24 128.
Definition f32_mul : float32 -> float32 -> float32 := SFmul 24 128.
Definition f32_div : float32 -> float32 -> float32 := SFdiv 24 128.
Definition f32_sqrt : float32 -> float32 := SFsqrt 24 128.
Definition f32_ltb : float32 -> float32 -> bool := SFltb.
Definition f32_eqb : float32 -> float32 -> bool := SFeqb.

(** The float nearest to [m * 2^e]: literals and integer-to-float conversions. *)
Definition f32_dyadic (m e : Z) : float32 := binary_normalize 24 128 m e false.
Definition f32_of_Z (z : Z) : float32 := f32_dyadic z 0.

Definition f32_zero : float32 := S754_zero false.          (* 0.0f *)
Definition f32_one : float32 := f32_dyadic 1 0.            (* 1.0f *)
Definition f32_two : float32 := f32_dyadic 2 0.            (* 2.0f *)
Definition f32_six : float32 := f32_dyadic 6 0.            (* 6.0f *)
Definition f32_half : float32 := f32_dyadic 1 (-1).        (* 0.5f *)
Definition f32_tenth : float32 := f32_dyadic 13421773 (-27).     (* 0.1f *)
Definition f32_1em5 : float32 := f32_dyadic 10995116 (-40).      (* 1e-5f *)
Definition f32_m1e9 : float32 := f32_dyadic (-1000000000) 0.     (* -1e9f *)
Definition f32_gelu_coeff : float32 := f32_dyadic 12003091 (-28).      (* 0.044715f *)
Definition f32_sqrt_2_over_pi : float32 := f32_dyadic 13386282 (-24).  (* 0.7978845608028654f *)
Definition f32_neg_infinity : float32 := S754_infinity true.

Definition f32_is_nan (x : float32) : bool :=
  match x with S754_nan => true | _ => false end.
Definition f32_is_zero (x : float32) : bool :=
  match x with S754_zero _ => true | _ => false end.
(** [std::isfinite]. *)
Definition f32_is_finite (x : float32) : bool :=
  match x with S754_zero _ | S754_finite _ _ _ => true | _ => false end.

(** [std::max(a, b)] is [(a < b) ? b : a]. *)
Definition f32_max (a b : float32) : float32 := if f32_ltb a b then b else a.

(** Modelled from the spec: the IEEE 754 binary32 interchange format (1 sign
    bit, 8 exponent bits biased by 127, 23 fraction bits), which is what the
    object representation of a [float] is on the project's targets; the source
    only copies these bytes.  [SpecFloat] has one NaN, encoded as the default
    quiet NaN. *)
Definition bits_of_float32 (x : float32) : Z :=
  match x with
  | S754_zero s => if s then 2 ^ 31 else 0
  | S754_infinity s => (if s then 2 ^ 31 else 0) + 255 * 2 ^ 23
  | S754_nan => 255 * 2 ^ 23 + 2 ^ 22
  | S754_finite s m e =>
      (if s then 2 ^ 31 else 0) +
      (if 2 ^ 23 <=? Zpos m then (e + 150) * 2 ^ 23 + (Zpos m - 2 ^ 23) else Zpos m)
  end.

Definition float32_of_bits (b : Z) : float32 :=
  let s := Z.testbit b 31 in
  let e := (b / 2 ^ 23) mod 256 in
  let m := b mod 2 ^ 23 in
  if e =? 0 then
    match m with Zpos p => S754_finite s p (-149) | _ => S754_zero s end
  else if e =? 255 then
    (if m =? 0 then S754_infinity s else S754_nan)
  else
    match m + 2 ^ 23 with Zpos p => S754_finite s p (e - 150) | _ => S754_nan end.

Definition float32_to_bytes (x : float32) : list byte := encode_le 4 (bits_of_float32 x).
Definition float32_of_bytes (bs : list byte) : float32 := float32_of_bits (decode_le bs).

(** What the environment supplies: libm's [expf] and [tanhf], and libc's
    [rand] (the value of its [k]-th call in the process) and [RAND_MAX]. *)
Record Env : Type := mkEnv {
  expf : float32 -> float32;
  tanhf : float32 -> float32;
  rand : nat -> Z;
  RAND_MAX : Z
}.

(* ------------------------------------------------------------------ *)
(** ** Files and input streams *)

(** The part of the file system the code touches: the contents of the files
    that exist, and whether a file of a given name can be created or
    truncated for writing.  A write to an opened file always succeeds (a full
    disk is not modelled). *)
Record FileSystem : Type := mkFS {
  fs_files : string -> option (list byte);
  fs_can_create : string -> bool
}.

Definition fs_write (fs : FileSystem) (name : string) (contents : list byte) : FileSystem :=
  {| fs_files := fun n => if String.eqb n name then Some contents else fs_files fs n;
     fs_can_create := fs_can_create fs |}.

(** A [std::ifstream] opened in binary mode: the bytes not yet read and the
    stream's failbit.  Exceptions are not enabled on any stream of the
    project, so a read past the end only sets the bit. *)
Record ifstream : Type := mkStream {
  is_buf : list byte;
  is_fail : bool
}.

Definition ifstream_open (contents : list byte) : ifstream :=
  {| is_buf := contents; is_fail := false |}.

(** [file.read(p, n)]: the bytes stored at [p] and the stream afterwards.  On
    a failed stream nothing is read; when fewer than [n] bytes are left, they
    are all stored and the failbit is set. *)
Definition ifstream_read (n : nat) (s : ifstream) : list byte * ifstream :=
  if is_fail s then ([], s)
  else if (n <=? length (is_buf s))%nat
       then (firstn n (is_buf s), {| is_buf := skipn n (is_buf s); is_fail := false |})
       else (is_buf s, {| is_buf := []; is_fail := true |}).

(** [std::vector::resize(n)] with [d] as the value of the new elements. *)
Definition list_resize {A : Type} (d : A) (n : nat) (l : list A) : list A :=
  firstn n l ++ repeat d (n - length l).

(* ------------------------------------------------------------------ *)
(** ** Numeric container: [Matrix<T>] (matrix.hpp, matrix.cpp) *)

(** What the template needs of its element type [T]: value initialisation
    ([T{}], [T{0}]), [+] and [*], and the object representation that
    [save_to_file] and [load_from_file] copy ([sizeof(T)] bytes). *)
Class Element (T : Type) : Type := {
  T0 : T;
  Tadd : T -> T -> T;
  Tmul : T -> T -> T;
  sizeof : nat;
  to_bytes : T -> list byte;
  of_bytes : list byte -> T
}.

#[export] Instance float_Element : Element float32 :=
  {| T0 := f32_zero; Tadd := f32_add; Tmul := f32_mul;
     sizeof := 4; to_bytes := float32_to_bytes; of_bytes := float32_of_bytes |}.

Record Matrix (T : Type) : Type := mkMatrix {
  data_ : list T;
  rows_ : N;
  cols_ : N
}.
Arguments mkMatrix {T} data_ rows_ cols_.
Arguments data_ {T} m.
Arguments rows_ {T} m.
Arguments cols_ {T} m.

Section MatrixOps.
Context {T : Type} {E : Element T}.

(** [std::vector<T>::resize(n)]. *)
Definition vector_resize (n : nat) (l : list T) : list T := list_resize T0 n l.

(** [Matrix(rows, cols)]: [rows * cols] is computed in [size_t]. *)
Definition Matrix_ctor (rows cols : N) : Matrix T :=
  {| data_ := repeat T0 (N.to_nat (size_mul rows cols)); rows_ := rows; cols_ := cols |}.

(** [Matrix()]. *)
Definition Matrix_default : Matrix T := {| data_ := []; rows_ := 0; cols_ := 0 |}.

(** [Matrix(rows, cols, data)]. *)
Definition Matrix_from_data (rows cols : N) (data : list T) : result (Matrix T) :=
  if (N.of_nat (length data) =? size_mul rows cols)%N
  then Ok {| data_ := data; rows_ := rows; cols_ := cols |}
  else Throw (std_invalid_argument "Data size does not match matrix dimensions").

(** [operator()(row, col)], the bounds-checked access. *)
Definition Matrix_at (m : Matrix T) (row col : N) : result T :=
  if ((rows_ m <=? row) || (cols_ m <=? col))%N
  then Throw (std_out_of_range "Matrix index out of bounds")
  else Ok (nth (N.to_nat (size_add (size_mul row (cols_ m)) col)) (data_ m) T0).

Definition nrows (m : Matrix T) : nat := N.to_nat (rows_ m).
Definition ncols (m : Matrix T) : nat := N.to_nat (cols_ m).

(** The element that [operator()] returns for indices inside the matrix;
    used where a loop keeps its indices below [rows()] and [cols()]. *)
Definition get (m : Matrix T) (i j : nat) : T := nth (i * ncols m + j) (data_ m) T0.

(** Row [i] as a list. *)
Definition row (m : Matrix T) (i : nat) : list T := map (get m i) (seq 0 (ncols m)).

(** The row-major contents of an [r] x [c] matrix whose cell [(i, j)] is
    assigned [f i j] (the result of the nested [for i, for j] loops that
    assign every cell once). *)
Definition build (r c : nat) (f : nat -> nat -> T) : list T :=
  flat_map (fun i => map (f i) (seq 0 c)) (seq 0 r).

Definition Matrix_build (rows cols : N) (f : nat -> nat -> T) : Matrix T :=
  {| data_ := build (N.to_nat rows) (N.to_nat cols) f; rows_ := rows; cols_ := cols |}.

(** The inner loop of [operator*]: [sum += a(i,k) * b(k,j)] for [k] from 0. *)
Definition dot (a b : Matrix T) (i j : nat) : T :=
  fold_left (fun sum k => Tadd sum (Tmul (get a i k) (get b k j))) (seq 0 (ncols a)) T0.

(** [operator*]. *)
Definition Matrix_mul (a b : Matrix T) : result (Matrix T) :=
  if (cols_ a =? rows_ b)%N
  then Ok (Matrix_build (rows_ a) (cols_ b) (dot a b))
  else Throw (std_invalid_argument "Matrix dimensions incompatible for multiplication").

(** [operator+]. *)
Definition Matrix_add (a b : Matrix T) : result (Matrix T) :=
  if ((rows_ a =? rows_ b) && (cols_ a =? cols_ b))%N
  then Ok {| data_ := map (fun xy => Tadd (fst xy) (snd xy)) (combine (data_ a) (data_ b));
             rows_ := rows_ a; cols_ := cols_ a |}
  else Throw (std_invalid_argument "Matrix dimensions must match for addition").

(** [transpose()]. *)
Definition Matrix_transpose (m : Matrix T) : Matrix T :=
  Matrix_build (cols_ m) (rows_ m) (fun j i => get m i j).

(** [resize(rows, cols)]. *)
Definition Matrix_resize (m : Matrix T) (rows cols : N) : Matrix T :=
  {| data_ := vector_resize (N.to_nat (size_mul rows cols)) (data_ m);
     rows_ := rows; cols_ := cols |}.

(** [fill(value)]. *)
Definition Matrix_fill (m : Matrix T) (value : T) : Matrix T :=
  {| data_ := map (fun _ => value) (data_ m); rows_ := rows_ m; cols_ := cols_ m |}.

(** An in-place update of every element ([for i < size(): data()[i] = f(data()[i])]). *)
Definition Matrix_map (f : T -> T) (m : Matrix T) : Matrix T :=
  {| data_ := map f (data_ m); rows_ := rows_ m; cols_ := cols_ m |}.

(** The bytes that [write(data, n * sizeof(T))] copies from a buffer, and
    the elements that [read(data, n * sizeof(T))] stores into a buffer
    holding [old] when the stream delivers [bs] (all of it when the read is
    complete, a prefix when the stream runs out). *)
Definition elements_to_bytes (l : list T) : list byte := flat_map to_bytes l.

Definition elements_of_bytes (old : list T) (bs : list byte) : list T :=
  let size := (length old * sizeof)%nat in
  let mem := firstn size (bs ++ skipn (length bs) (elements_to_bytes old)) in
  map of_bytes (chunks sizeof (length old) mem).

(** [save_to_file(filename)]: the file system afterwards. *)
Definition Matrix_save_to_file (m : Matrix T) (filename : string) (fs : FileSystem)
  : result FileSystem :=
  if fs_can_create fs filename
  then Ok (fs_write fs filename
             (encode_le 8 (Z.of_N (rows_ m)) ++ encode_le 8 (Z.of_N (cols_ m))
              ++ elements_to_bytes (data_ m)))
  else Throw (FileIOException "Cannot open file for writing").

(** [load_from_file(filename)] on the matrix [m]: the matrix afterwards.
    (The partly updated matrix left behind by a throw is not tracked.) *)
Definition Matrix_load_from_file (m : Matrix T) (filename : string) (fs : FileSystem)
  : result (Matrix T) :=
  match fs_files fs filename with
  | None => Throw (FileIOException "Cannot open file for reading")
  | Some contents =>
      let s0 := ifstream_open contents in
      let '(rbytes, s1) := ifstream_read 8 s0 in
      let '(cbytes, s2) := ifstream_read 8 s1 in
      if is_fail s2
      then Throw (FileIOException "Failed to read matrix dimensions from file")
      else
        let rows := Z.to_N (decode_le rbytes) in
        let cols := Z.to_N (decode_le cbytes) in
        let m1 := Matrix_resize m rows cols in
        let '(dbytes, s3) := ifstream_read (length (data_ m1) * sizeof) s2 in
        if is_fail s3
        then Throw (FileIOException "Failed to read matrix data from file")
        else Ok {| data_ := elements_of_bytes (data_ m1) dbytes;
                   rows_ := rows; cols_ := cols |}
  end.
End MatrixOps.

(** A matrix as the code keeps it: the buffer holds [rows * cols] elements
    (the product taken in [size_t]) and both dimensions fit [size_t]. *)
Definition Matrix_wf {T : Type} (m : Matrix T) : Prop :=
  (rows_ m < size_t_modulus)%N /\ (cols_ m < size_t_modulus)%N /\
  length (data_ m) = N.to_nat (size_mul (rows_ m) (cols_ m)).

(* ------------------------------------------------------------------ *)
(** ** Multi-dimensional container: [Tensor<T>] (matrix.hpp, matrix.cpp) *)

Record Tensor (T : Type) : Type := mkTensor {
  tensor_data_ : list T;
  shape_ : list N
}.
Arguments mkTensor {T} tensor_data_ shape_.
Arguments tensor_data_ {T} t.
Arguments shape_ {T} t.

Section TensorOps.
Context {T : Type} {E : Element T}.

(** [total_size()]: the product of the dimensions, taken in [size_t]. *)
Definition shape_total (shape : list N) : N := fold_left size_mul shape 1%N.

Definition Tensor_total_size (t : Tensor T) : N := shape_total (shape_ t).

(** [Tensor(shape)]. *)
Definition Tensor_ctor (shape : list N) : Tensor T :=
  {| tensor_data_ := repeat T0 (N.to_nat (shape_total shape)); shape_ := shape |}.

(** [Tensor()]. *)
Definition Tensor_default : Tensor T := {| tensor_data_ := []; shape_ := [] |}.

(** The loop of [compute_index], from the last dimension to the first, over
    the pairs (index, dimension) still to visit. *)
Fixpoint compute_index_loop (pairs : list (N * N)) (index stride : N) : result N :=
  match pairs with
  | [] => Ok index
  | (i, dim) :: rest =>
      if (dim <=? i)%N then Throw (std_out_of_range "Tensor index out of bounds")
      else compute_index_loop rest (size_add index (size_mul i stride)) (size_mul stride dim)
  end.

(** [compute_index(indices)]. *)
Definition Tensor_compute_index (t : Tensor T) (indices : list N) : result N :=
  if Nat.eqb (length indices) (length (shape_ t))
  then compute_index_loop (rev (combine indices (shape_ t))) 0 1
  else Throw (std_invalid_argument "Number of indices does not match tensor dimensions").

(** [at(indices)]: [data_[index]] is the unchecked access; reading past the
    buffer is undefined. *)
Definition Tensor_at (t : Tensor T) (indices : list N) : result T :=
  index <- Tensor_compute_index t indices ;;
  if (N.to_nat index <? length (tensor_data_ t))%nat
  then Ok (nth (N.to_nat index) (tensor_data_ t) T0)
  else Indeterminate.

(** [to_matrix()]. *)
Definition Tensor_to_matrix (t : Tensor T) : result (Matrix T) :=
  match shape_ t with
  | [rows; cols] => Matrix_from_data rows cols (tensor_data_ t)
  | _ => Throw (std_invalid_argument "Can only convert 2D tensors to matrices")
  end.

(** [resize(shape)] and [fill(value)]. *)
Definition Tensor_resize (t : Tensor T) (shape : list N) : Tensor T :=
  {| tensor_data_ := vector_resize (N.to_nat (shape_total shape)) (tensor_data_ t);
     shape_ := shape |}.

Definition Tensor_fill (t : Tensor T) (value : T) : Tensor T :=
  {| tensor_data_ := map (fun _ => value) (tensor_data_ t); shape_ := shape_ t |}.
End TensorOps.

(* ------------------------------------------------------------------ *)
(** ** Softmax and arg-max, parametric in the arithmetic

    [TinyLlamaModel::softmax] and [TinyLlamaModel::sample_token] written over
    an arbitrary number type: the model runs them on binary32, and the
    comparison with the specification's formulation is also made for the
    same code run on exact real arithmetic. *)

Section Kernels.
Variable F : Type.
Variables (zero : F) (add sub div : F -> F -> F) (exp : F -> F).
Variable ltb : F -> F -> bool.

(** [std::max_element(first, last)] as an index: the scan keeps the
    position [best_i] of the largest element seen so far and replaces it
    only by a strictly larger one ([*largest < *first]). *)
Fixpoint max_element_from (best_i : nat) (best : F) (i : nat) (l : list F) : nat :=
  match l with
  | [] => best_i
  | x :: l' =>
      if ltb best x then max_element_from i x (S i) l'
      else max_element_from best_i best (S i) l'
  end.

Definition max_element (l : list F) : nat :=
  match l with
  | [] => 0%nat
  | x :: l' => max_element_from 0 x 1 l'
  end.

(** The temperature the softmax divides by. *)
Definition effective_temperature (stored temperature : F) : F :=
  if ltb zero temperature then temperature else stored.

(** [TinyLlamaModel::softmax(logits, temperature)] of a model whose
    [temperature_] is [stored]. *)
Definition softmax_kernel (stored : F) (logits : list F) (temperature : F) : list F :=
  match logits with
  | [] => []
  | _ :: _ =>
      let temp := effective_temperature stored temperature in
      let max_val := nth (max_element logits) logits zero in
      let exp_values := map (fun l => exp (div (sub l max_val) temp)) logits in
      let sum_exp := fold_left add exp_values zero in
      map (fun e => div e sum_exp) exp_values
  end.

(** [TinyLlamaModel::sample_token(probabilities)]. *)
Definition sample_token_kernel (probabilities : list F) : result Z :=
  match probabilities with
  | [] => Throw (ModelException "Empty probability distribution")
  | _ :: _ => Ok (Z.of_nat (max_element probabilities))
  end.

(** The specification's wording of softmax, for comparison: every logit is
    divided by the temperature first, then the usual sequence follows
    (subtract the maximum, exponentiate, normalise). *)
Definition softmax_spec (temp : F) (logits : list F) : list F :=
  let scaled := map (fun l => div l temp) logits in
  let max_val := nth (max_element scaled) scaled zero in
  let exp_values := map (fun s => exp (sub s max_val)) scaled in
  let sum_exp := fold_left add exp_values zero in
  map (fun e => div e sum_exp) exp_values.
End Kernels.

Arguments max_element_from {F} ltb best_i best i l.
Arguments max_element {F} ltb l.
Arguments effective_temperature {F} zero ltb stored temperature.
Arguments softmax_kernel {F} zero add sub div exp ltb stored logits temperature.
Arguments sample_token_kernel {F} ltb probabilities.
Arguments softmax_spec {F} zero add sub div exp ltb temp logits.

(* ------------------------------------------------------------------ *)
(** ** Tokenizer (tokenizer.hpp, tokenizer.cpp) *)

Definition UNK_TOKEN : string := "<unk>".
Definition PAD_TOKEN : string := "<pad>".
Definition BOS_TOKEN : string := "<bos>".
Definition EOS_TOKEN : string := "<eos>".

(** A [std::unordered_map<std::string, V>] as an association list with at
    most one entry per key. *)
Fixpoint map_find {V : Type} (m : list (string * V)) (k : string) : option V :=
  match m with
  | [] => None
  | (k', v) :: m' => if String.eqb k k' then Some v else map_find m' k
  end.

Fixpoint map_set {V : Type} (m : list (string * V)) (k : string) (v : V) : list (string * V) :=
  match m with
  | [] => [(k, v)]
  | (k', v') :: m' => if String.eqb k k' then (k, v) :: m' else (k', v') :: map_set m' k v
  end.

Record Vocabulary : Type := mkVocabulary {
  token_to_id_ : list (string * Z);
  id_to_token_ : list string;
  unk_token_id_ : Z;
  pad_token_id_ : Z;
  bos_token_id_ : Z;
  eos_token_id_ : Z
}.

(** [Vocabulary::add_token]: the id and the vocabulary afterwards. *)
Definition Vocabulary_add_token (v : Vocabulary) (token : string) : Z * Vocabulary :=
  match map_find (token_to_id_ v) token with
  | Some id => (id, v)
  | None =>
      let id := Z.of_nat (length (id_to_token_ v)) in
      (id, {| token_to_id_ := map_set (token_to_id_ v) token id;
              id_to_token_ := id_to_token_ v ++ [token];
              unk_token_id_ := unk_token_id_ v;
              pad_token_id_ := pad_token_id_ v;
              bos_token_id_ := bos_token_id_ v;
              eos_token_id_ := eos_token_id_ v |})
  end.

(** [Vocabulary::Vocabulary()]: the four ids start at -1 and are assigned in
    the constructor body, one [add_token] after the other. *)
Definition Vocabulary_ctor : Vocabulary :=
  let v0 := {| token_to_id_ := []; id_to_token_ := [];
               unk_token_id_ := -1; pad_token_id_ := -1;
               bos_token_id_ := -1; eos_token_id_ := -1 |} in
  let '(unk, v1) := Vocabulary_add_token v0 UNK_TOKEN in
  let '(pad, v2) := Vocabulary_add_token v1 PAD_TOKEN in
  let '(bos, v3) := Vocabulary_add_token v2 BOS_TOKEN in
  let '(eos, v4) := Vocabulary_add_token v3 EOS_TOKEN in
  {| token_to_id_ := token_to_id_ v4; id_to_token_ := id_to_token_ v4;
     unk_token_id_ := unk; pad_token_id_ := pad;
     bos_token_id_ := bos; eos_token_id_ := eos |}.

Definition Vocabulary_size (v : Vocabulary) : N := N.of_nat (length (id_to_token_ v)).
Definition Vocabulary_unk_id (v : Vocabulary) : Z := unk_token_id_ v.
Definition Vocabulary_eos_id (v : Vocabulary) : Z := eos_token_id_ v.

Definition Vocabulary_get_token_id (v : Vocabulary) (token : string) : Z :=
  match map_find (token_to_id_ v) token with
  | Some id => id
  | None => unk_token_id_ v
  end.

(** [Vocabulary::get_token]: [id_to_token_[...]] is the unchecked
    [operator[]]; the ids used are inside the vector. *)
Definition Vocabulary_get_token (v : Vocabulary) (id : Z) : string :=
  if (id <? 0) || (Z.of_nat (length (id_to_token_ v)) <=? id)
  then nth (Z.to_nat (unk_token_id_ v)) (id_to_token_ v) EmptyString
  else nth (Z.to_nat id) (id_to_token_ v) EmptyString.

(** [Vocabulary::has_token]. *)
Definition Vocabulary_has_token (v : Vocabulary) (token : string) : bool :=
  match map_find (token_to_id_ v) token with
  | Some _ => true
  | None => false
  end.

Record BPETokenizer : Type := mkBPETokenizer {
  vocab_ : Vocabulary;
  bpe_merges_ : list (string * string);
  bpe_ranks_ : list (string * Z)
}.

(** [BPETokenizer::BPETokenizer()]. *)
Definition BPETokenizer_ctor : BPETokenizer :=
  {| vocab_ := Vocabulary_ctor; bpe_merges_ := []; bpe_ranks_ := [] |}.

Definition BPETokenizer_vocab_size (t : BPETokenizer) : N := Vocabulary_size (vocab_ t).

Definition char_code (c : ascii) : N := N_of_ascii c.

(** [preprocess_text]: ASCII upper case to lower case, tab, newline and
    carriage return to a space. *)
Definition preprocess_char (c : ascii) : ascii :=
  let c1 := if (65 <=? char_code c)%N && (char_code c <=? 90)%N
            then ascii_of_N (char_code c - 65 + 97) else c in
  if (char_code c1 =? 9)%N || (char_code c1 =? 10)%N || (char_code c1 =? 13)%N
  then " "%char else c1.

Definition BPETokenizer_preprocess_text (text : string) : string :=
  string_of_list_ascii (map preprocess_char (list_ascii_of_string text)).

(** [std::isspace] in the "C" locale. *)
Definition isspace (c : ascii) : bool :=
  ((char_code c =? 32) || ((9 <=? char_code c) && (char_code c <=? 13)))%N.

(** [split_to_words]: the loop over the characters, with the words pushed so
    far (in reverse) and the word being built (in reverse). *)
Fixpoint split_loop (cs : list ascii) (words : list string) (current : list ascii)
  : list string :=
  match cs with
  | [] =>
      rev (match current with
           | [] => words
           | _ => string_of_list_ascii (rev current) :: words
           end)
  | c :: cs' =>
      if isspace c
      then split_loop cs'
             (" "%string :: match current with
                            | [] => words
                            | _ => string_of_list_ascii (rev current) :: words
                            end) []
      else split_loop cs' words (c :: current)
  end.

Definition BPETokenizer_split_to_words (text : string) : list string :=
  split_loop (list_ascii_of_string text) [] [].

(** The adjacent pairs of a symbol sequence. *)
Fixpoint adjacent_pairs (chars : list string) : list (string * string) :=
  match chars with
  | a :: ((b :: _) as rest) => (a, b) :: adjacent_pairs rest
  | _ => []
  end.

(** The scan for the pair of lowest rank: [best] is [(best_rank, pair)] of the
    best pair so far, replaced only by a strictly lower rank. *)
Fixpoint best_pair (ranks : list (string * Z)) (pairs : list (string * string))
  (best : option (Z * (string * string))) : option (Z * (string * string)) :=
  match pairs with
  | [] => best
  | (a, b) :: pairs' =>
      let best_rank := match best with Some (r, _) => r | None => 2 ^ 31 - 1 end in
      match map_find ranks (a ++ " " ++ b)%string with
      | Some r => if r <? best_rank then best_pair ranks pairs' (Some (r, (a, b)))
                  else best_pair ranks pairs' best
      | None => best_pair ranks pairs' best
      end
  end.

(** One left-to-right pass that replaces the occurrences of the pair by the
    merged symbol. *)
Fixpoint merge_pass (first second : string) (chars : list string) : list string :=
  match chars with
  | a :: ((b :: rest') as rest) =>
      if String.eqb a first && String.eqb b second
      then (first ++ second)%string :: merge_pass first second rest'
      else a :: merge_pass first second rest
  | _ => chars
  end.

(** The [while (!pairs.empty())] loop of [bpe_encode]; every turn that does
    not leave the loop shortens [chars], so [length chars] turns are enough. *)
Fixpoint bpe_loop (fuel : nat) (ranks : list (string * Z)) (chars : list string)
  : list string :=
  match fuel with
  | O => chars
  | S fuel' =>
      match best_pair ranks (adjacent_pairs chars) None with
      | None => chars
      | Some (_, (first, second)) => bpe_loop fuel' ranks (merge_pass first second chars)
      end
  end.

Definition BPETokenizer_bpe_encode (t : BPETokenizer) (word : string) : list string :=
  let chars := map (fun c => String c EmptyString) (list_ascii_of_string word) in
  bpe_loop (length chars) (bpe_ranks_ t) chars.

(** [BPETokenizer::encode]; nothing in its [try] block throws. *)
Definition BPETokenizer_encode (t : BPETokenizer) (text : string) : list Z :=
  let words := BPETokenizer_split_to_words (BPETokenizer_preprocess_text text) in
  flat_map (fun word => map (Vocabulary_get_token_id (vocab_ t)) (BPETokenizer_bpe_encode t word))
           words.

(** [BPETokenizer::decode]. *)
Definition BPETokenizer_decode (t : BPETokenizer) (tokens : list Z) : string :=
  fold_left (fun result id => (result ++ Vocabulary_get_token (vocab_ t) id)%string)
            tokens EmptyString.

(** [BPETokenizer::encode_to_strings]. *)
Definition BPETokenizer_encode_to_strings (t : BPETokenizer) (text : string) : list string :=
  flat_map (BPETokenizer_bpe_encode t)
           (BPETokenizer_split_to_words (BPETokenizer_preprocess_text text)).

(* ------------------------------------------------------------------ *)
(** ** Attention engine (model.hpp, model.cpp) *)

Definition out_of_bounds : exn := std_out_of_range "Matrix index out of bounds".

Record MultiHeadAttention : Type := mkMHA {
  query_weights_ : Matrix float32;
  key_weights_ : Matrix float32;
  value_weights_ : Matrix float32;
  output_weights_ : Matrix float32;
  num_heads_ : Z;
  head_dim_ : Z;
  mha_model_dim_ : Z
}.

Section WithEnv.
Variable env : Env.

(** [(static_cast<float>(rand()) / RAND_MAX * 2.0f - 1.0f) * scale]. *)
Definition random_weight (scale : float32) (r : Z) : float32 :=
  f32_mul (f32_sub (f32_mul (f32_div (f32_of_Z r) (f32_of_Z (RAND_MAX env))) f32_two) f32_one)
          scale.

(** [MultiHeadAttention::MultiHeadAttention(model_dim, num_heads)], started
    when [rand] has been called [k] times: the object and the number of
    calls afterwards.  The loop draws four numbers per index, for the query,
    key, value and output matrix in this order.  [model_dim % 0] is
    undefined. *)
Definition MultiHeadAttention_ctor (k : nat) (model_dim num_heads : Z)
  : result (MultiHeadAttention * nat) :=
  if num_heads =? 0 then Indeterminate
  else if negb (Z.rem model_dim num_heads =? 0)
  then Throw (ConfigurationException "Model dimension must be divisible by number of heads")
  else
    let d := to_size_t model_dim in
    let size := N.to_nat (size_mul d d) in
    let scale := f32_sqrt (f32_div f32_six (f32_of_Z (model_dim + model_dim))) in
    let w (which : nat) := Matrix_build d d
          (fun i j => random_weight scale (rand env (k + 4 * (i * N.to_nat d + j) + which))) in
    Ok ({| query_weights_ := w 0%nat; key_weights_ := w 1%nat;
           value_weights_ := w 2%nat; output_weights_ := w 3%nat;
           num_heads_ := num_heads; head_dim_ := Z.quot model_dim num_heads;
           mha_model_dim_ := model_dim |},
        (k + 4 * size)%nat).

(** The causal mask test [mask(i, j) == 0.0f] and the overwrite of the
    masked scores with [-1e9f]. *)
Definition apply_mask (mask scores : Matrix float32) : Matrix float32 :=
  Matrix_build (rows_ scores) (cols_ scores)
    (fun i j => if (i <? nrows mask)%nat && (j <? ncols mask)%nat
                   && f32_eqb (get mask i j) f32_zero
                then f32_m1e9 else get scores i j).

(** Row [i] of the softmax loop over a [seq_len]-wide score row: the
    maximum (from minus infinity, with [std::max]), the exponentials, their
    sum (from [0.0f], left to right) and the quotients. *)
Definition row_max (scores : Matrix float32) (seq_len i : nat) : float32 :=
  fold_left (fun max_val j => f32_max max_val (get scores i j)) (seq 0 seq_len)
            f32_neg_infinity.

Definition row_exp_values (scores : Matrix float32) (seq_len i : nat) : list float32 :=
  map (fun j => expf env (f32_sub (get scores i j) (row_max scores seq_len i)))
      (seq 0 seq_len).

Definition row_softmax (scores : Matrix float32) (seq_len i : nat) : list float32 :=
  let exp_values := row_exp_values scores seq_len i in
  let sum_exp := fold_left f32_add exp_values f32_zero in
  map (fun e => f32_div e sum_exp) exp_values.

(** The scores of [scaled_dot_product_attention] after scaling and masking. *)
Definition masked_scores (Q K : Matrix float32) (mask : option (Matrix float32))
  : result (Matrix float32) :=
  let seq_len := rows_ Q in
  let d_k := cols_ Q in
  scores <- Matrix_mul Q (Matrix_transpose K) ;;
  let scale_factor := f32_div f32_one (f32_sqrt (f32_of_Z (Z.of_N d_k))) in
  let scores := Matrix_map (fun s => f32_mul s scale_factor) scores in
  match mask with
  | None => Ok scores
  | Some m =>
      check (rows_ m =? seq_len)%N && (cols_ m =? seq_len)%N
      else ModelException "Attention mask dimensions mismatch" ;;
      Ok (apply_mask m scores)
  end.

Definition softmax_rows (scores : Matrix float32) (seq_len : N) : Matrix float32 :=
  Matrix_build seq_len seq_len
    (fun i j => nth j (row_softmax scores (N.to_nat seq_len) i) f32_zero).

(** The matrix [attention_weights] of [scaled_dot_product_attention].  The
    loops read [scores(i, j)] for [i, j < seq_len] through the checked
    [operator()]; [scores] has [K.rows()] columns, so the first such access
    throws when [K] has fewer rows than [Q]. *)
Definition attention_weights (Q K : Matrix float32) (mask : option (Matrix float32))
  : result (Matrix float32) :=
  let seq_len := rows_ Q in
  scores <- masked_scores Q K mask ;;
  check negb ((0 <? seq_len) && (cols_ scores <? seq_len))%N else out_of_bounds ;;
  Ok (softmax_rows scores seq_len).

(** [MultiHeadAttention::scaled_dot_product_attention(Q, K, V, mask)]:
    [attention_weights * V]. *)
Definition scaled_dot_product_attention (Q K V : Matrix float32)
  (mask : option (Matrix float32)) : result (Matrix float32) :=
  w <- attention_weights Q K mask ;;
  Matrix_mul w V.

(** The columns [h * head_dim, (h+1) * head_dim) of [m] as a
    [seq_len] x [head_dim] matrix. *)
Definition head_slice (m : Matrix float32) (seq_len : N) (head_dim h : Z) : Matrix float32 :=
  Matrix_build seq_len (to_size_t head_dim)
    (fun i j => get m i (Z.to_nat (h * head_dim) + j)).

(** The per-head loop of [forward]: [heads] holds the outputs of the heads
    done so far, in order.  The checked accesses [query(i, h*head_dim + j)]
    (and likewise for key, value and the combined output) throw when a
    column index passes the width of the matrix. *)
Fixpoint attention_heads (a : MultiHeadAttention) (query key value : Matrix float32)
  (mask : option (Matrix float32)) (seq_len : N) (hs : list Z)
  : result (list (Matrix float32)) :=
  match hs with
  | [] => Ok []
  | h :: hs' =>
      let hd := head_dim_ a in
      let last := to_size_t ((h + 1) * hd) in
      check negb ((0 <? seq_len)%N && (0 <? hd)
                  && ((cols_ query <? last) || (cols_ key <? last) || (cols_ value <? last))%N)
      else out_of_bounds ;;
      head_output <- scaled_dot_product_attention
                       (head_slice query seq_len hd h) (head_slice key seq_len hd h)
                       (head_slice value seq_len hd h) mask ;;
      check negb ((0 <? seq_len)%N && (0 <? hd)
                  && (to_size_t (mha_model_dim_ a) <? last)%N)
      else out_of_bounds ;;
      rest <- attention_heads a query key value mask seq_len hs' ;;
      Ok (head_output :: rest)
  end.

(** [0, 1, ..., n-1] for an [int] bound. *)
Definition int_range (n : Z) : list Z := map Z.of_nat (seq 0 (Z.to_nat n)).

(** [MultiHeadAttention::forward(input, mask)]. *)
Definition MultiHeadAttention_forward (a : MultiHeadAttention) (input : Matrix float32)
  (mask : option (Matrix float32)) : result (Matrix float32) :=
  let seq_len := rows_ input in
  query <- Matrix_mul input (query_weights_ a) ;;
  key <- Matrix_mul input (key_weights_ a) ;;
  value <- Matrix_mul input (value_weights_ a) ;;
  heads <- attention_heads a query key value mask seq_len (int_range (num_heads_ a)) ;;
  let hd := Z.to_nat (head_dim_ a) in
  let output := Matrix_build seq_len (to_size_t (mha_model_dim_ a))
        (fun i c =>
           if (0 <? hd)%nat && (c / hd <? length heads)%nat
           then get (nth (c / hd) heads Matrix_default) i (c mod hd)
           else f32_zero) in
  Matrix_mul output (output_weights_ a).

(* ---------------------------------------------------------------- *)
(** ** Feed-forward engine *)

Record FeedForwardNetwork : Type := mkFFN {
  linear1_weights_ : Matrix float32;
  linear1_bias_ : list float32;
  linear2_weights_ : Matrix float32;
  linear2_bias_ : list float32;
  ffn_model_dim_ : Z;
  hidden_dim_ : Z
}.

(** [FeedForwardNetwork::FeedForwardNetwork(model_dim, hidden_dim)]. *)
Definition FeedForwardNetwork_ctor (model_dim hidden_dim : Z) : FeedForwardNetwork :=
  {| linear1_weights_ := Matrix_ctor (to_size_t model_dim) (to_size_t hidden_dim);
     linear1_bias_ := repeat f32_zero (N.to_nat (to_size_t hidden_dim));
     linear2_weights_ := Matrix_ctor (to_size_t hidden_dim) (to_size_t model_dim);
     linear2_bias_ := repeat f32_zero (N.to_nat (to_size_t model_dim));
     ffn_model_dim_ := model_dim;
     hidden_dim_ := hidden_dim |}.

(** One element of [gelu_activation]. *)
Definition gelu (x : float32) : float32 :=
  let x3 := f32_mul (f32_mul x x) x in
  let inner := f32_mul f32_sqrt_2_over_pi (f32_add x (f32_mul f32_gelu_coeff x3)) in
  let tanh_inner := tanhf env inner in
  f32_mul (f32_mul f32_half x) (f32_add f32_one tanh_inner).

Definition FeedForwardNetwork_gelu_activation (input : list float32) : list float32 :=
  map gelu input.

(** [m(i, j) += bias[j]] for every cell. *)
Definition add_bias (m : Matrix float32) (bias : list float32) : Matrix float32 :=
  Matrix_build (rows_ m) (cols_ m) (fun i j => f32_add (get m i j) (nth j bias f32_zero)).

(** [FeedForwardNetwork::forward(input)].  The activation loop reads and
    writes [hidden(i, j)] for [j < hidden_dim_] through the checked access. *)
Definition FeedForwardNetwork_forward (f : FeedForwardNetwork) (input : Matrix float32)
  : result (Matrix float32) :=
  check (cols_ input =? to_size_t (ffn_model_dim_ f))%N
  else ModelException "Input dimension mismatch for FFN" ;;
  hidden <- Matrix_mul input (linear1_weights_ f) ;;
  let hidden := add_bias hidden (linear1_bias_ f) in
  let hd := to_size_t (hidden_dim_ f) in
  check negb ((0 <? rows_ hidden) && (cols_ hidden <? hd))%N else out_of_bounds ;;
  let hidden := Matrix_build (rows_ hidden) (cols_ hidden)
        (fun i j => if (j <? N.to_nat hd)%nat then gelu (get hidden i j) else get hidden i j) in
  output <- Matrix_mul hidden (linear2_weights_ f) ;;
  Ok (add_bias output (linear2_bias_ f)).

(* ---------------------------------------------------------------- *)
(** ** Transformer block *)

Record TransformerBlock : Type := mkBlock {
  attention_ : MultiHeadAttention;
  ffn_ : FeedForwardNetwork;
  layer_norm1_weight_ : list float32;
  layer_norm1_bias_ : list float32;
  layer_norm2_weight_ : list float32;
  layer_norm2_bias_ : list float32;
  block_model_dim_ : Z
}.

(** [TransformerBlock::TransformerBlock(model_dim, num_heads, ffn_hidden_dim)]. *)
Definition TransformerBlock_ctor (k : nat) (model_dim num_heads ffn_hidden_dim : Z)
  : result (TransformerBlock * nat) :=
  ak <- MultiHeadAttention_ctor k model_dim num_heads ;;
  let n := N.to_nat (to_size_t model_dim) in
  Ok ({| attention_ := fst ak;
         ffn_ := FeedForwardNetwork_ctor model_dim ffn_hidden_dim;
         layer_norm1_weight_ := repeat f32_one n;
         layer_norm1_bias_ := repeat f32_zero n;
         layer_norm2_weight_ := repeat f32_one n;
         layer_norm2_bias_ := repeat f32_zero n;
         block_model_dim_ := model_dim |},
      snd ak).

(** The mean and the variance of row [i], as the two accumulation loops
    compute them. *)
Definition row_mean (input : Matrix float32) (i : nat) : float32 :=
  f32_div (fold_left (fun mean j => f32_add mean (get input i j)) (seq 0 (ncols input)) f32_zero)
          (f32_of_Z (Z.of_N (cols_ input))).

Definition row_variance (input : Matrix float32) (i : nat) : float32 :=
  let mean := row_mean input i in
  f32_div (fold_left (fun variance j =>
                        let diff := f32_sub (get input i j) mean in
                        f32_add variance (f32_mul diff diff))
                     (seq 0 (ncols input)) f32_zero)
          (f32_of_Z (Z.of_N (cols_ input))).

(** [TransformerBlock::layer_norm(input, weight, bias)]. *)
Definition TransformerBlock_layer_norm (b : TransformerBlock) (input : Matrix float32)
  (weight bias : list float32) : result (Matrix float32) :=
  let d := to_size_t (block_model_dim_ b) in
  check (cols_ input =? d)%N
  else ModelException "Input dimension mismatch for layer normalization" ;;
  check (N.of_nat (length weight) =? d)%N && (N.of_nat (length bias) =? d)%N
  else ModelException "Weight or bias dimension mismatch for layer normalization" ;;
  Ok (Matrix_build (rows_ input) (cols_ input)
        (fun i j =>
           f32_add
             (f32_mul
                (f32_div (f32_sub (get input i j) (row_mean input i))
                         (f32_sqrt (f32_add (row_variance input i) f32_1em5)))
                (nth j weight f32_zero))
             (nth j bias f32_zero))).

(** [a(i, j) += b(i, j)] for every cell of [a]; the checked read of [b]
    throws when [b] is smaller than [a]. *)
Definition add_residual (a b : Matrix float32) : result (Matrix float32) :=
  check negb ((0 <? rows_ a) && (0 <? cols_ a)
              && ((rows_ b <? rows_ a) || (cols_ b <? cols_ a)))%N
  else out_of_bounds ;;
  Ok (Matrix_build (rows_ a) (cols_ a) (fun i j => f32_add (get a i j) (get b i j))).

(** [TransformerBlock::forward(input, mask)]. *)
Definition TransformerBlock_forward (b : TransformerBlock) (input : Matrix float32)
  (mask : option (Matrix float32)) : result (Matrix float32) :=
  check (cols_ input =? to_size_t (block_model_dim_ b))%N
  else ModelException "Input dimension mismatch for transformer block" ;;
  normalized_input <- TransformerBlock_layer_norm b input
                        (layer_norm1_weight_ b) (layer_norm1_bias_ b) ;;
  attention_output <- MultiHeadAttention_forward (attention_ b) normalized_input mask ;;
  residual1 <- add_residual input attention_output ;;
  normalized_residual <- TransformerBlock_layer_norm b residual1
                           (layer_norm2_weight_ b) (layer_norm2_bias_ b) ;;
  ffn_output <- FeedForwardNetwork_forward (ffn_ b) normalized_residual ;;
  add_residual residual1 ffn_output.
End WithEnv.

(* ------------------------------------------------------------------ *)
(** ** Model orchestrator *)

Record ModelConfig : Type := mkConfig {
  model_dim : Z;
  num_layers : Z;
  num_heads : Z;
  ffn_hidden_dim : Z;
  max_sequence_length : Z;
  vocab_size : Z;
  dropout_rate : float32
}.

(** The default member initialisers of [ModelConfig]. *)
Definition ModelConfig_default : ModelConfig :=
  {| model_dim := 512; num_layers := 6; num_heads := 8; ffn_hidden_dim := 2048;
     max_sequence_length := 1024; vocab_size := 32000; dropout_rate := f32_tenth |}.

(** [tokenizer_] is a [std::unique_ptr], which can be null. *)
Record TinyLlamaModel : Type := mkModel {
  tokenizer_ : option BPETokenizer;
  embedding_weights_ : Matrix float32;
  position_embeddings_ : Matrix float32;
  transformer_blocks_ : list TransformerBlock;
  output_projection_ : Matrix float32;
  config_ : ModelConfig;
  temperature_ : float32
}.

Section Model.
Variable env : Env.

(** The loop of the constructors that pushes [num_layers] blocks. *)
Fixpoint make_blocks (n : nat) (k : nat) (c : ModelConfig)
  : result (list TransformerBlock * nat) :=
  match n with
  | O => Ok ([], k)
  | S n' =>
      bk <- TransformerBlock_ctor env k (model_dim c) (num_heads c) (ffn_hidden_dim c) ;;
      rest <- make_blocks n' (snd bk) c ;;
      Ok (fst bk :: fst rest, snd rest)
  end.

(** [TinyLlamaModel::TinyLlamaModel(config)], started when [rand] has been
    called [k] times. *)
Definition TinyLlamaModel_ctor_at (k : nat) (c : ModelConfig) : result (TinyLlamaModel * nat) :=
  let embedding := Matrix_fill (Matrix_ctor (to_size_t (vocab_size c)) (to_size_t (model_dim c)))
                               f32_zero in
  let position := Matrix_fill (Matrix_ctor (to_size_t (max_sequence_length c))
                                           (to_size_t (model_dim c))) f32_zero in
  blocks <- make_blocks (Z.to_nat (num_layers c)) k c ;;
  let projection := Matrix_fill (Matrix_ctor (to_size_t (model_dim c)) (to_size_t (vocab_size c)))
                                f32_zero in
  Ok ({| tokenizer_ := Some BPETokenizer_ctor;
         embedding_weights_ := embedding;
         position_embeddings_ := position;
         transformer_blocks_ := fst blocks;
         output_projection_ := projection;
         config_ := c;
         temperature_ := f32_one |},
      snd blocks).

(** The constructor in a fresh process, and the default constructor. *)
Definition TinyLlamaModel_ctor (c : ModelConfig) : result TinyLlamaModel :=
  mk <- TinyLlamaModel_ctor_at 0 c ;; Ok (fst mk).

Definition TinyLlamaModel_default_ctor : result TinyLlamaModel :=
  TinyLlamaModel_ctor ModelConfig_default.

(** [set_temperature] and [get_temperature]. *)
Definition TinyLlamaModel_set_temperature (m : TinyLlamaModel) (temperature : float32)
  : TinyLlamaModel :=
  {| tokenizer_ := tokenizer_ m;
     embedding_weights_ := embedding_weights_ m;
     position_embeddings_ := position_embeddings_ m;
     transformer_blocks_ := transformer_blocks_ m;
     output_projection_ := output_projection_ m;
     config_ := config_ m;
     temperature_ := temperature |}.

(** [TinyLlamaModel::is_initialized()]. *)
Definition TinyLlamaModel_is_initialized (m : TinyLlamaModel) : bool :=
  match tokenizer_ m with
  | None => false
  | Some t => if (BPETokenizer_vocab_size t =? 0)%N then false else true
  end.

(** [TinyLlamaModel::create_attention_mask(sequence_length)]. *)
Definition TinyLlamaModel_create_attention_mask (sequence_length : Z) : Matrix float32 :=
  Matrix_build (to_size_t sequence_length) (to_size_t sequence_length)
    (fun i j => if (j <=? i)%nat then f32_one else f32_zero).

(** [TinyLlamaModel::softmax] and [TinyLlamaModel::sample_token] on floats. *)
Definition TinyLlamaModel_softmax (m : TinyLlamaModel) (logits : list float32)
  (temperature : float32) : list float32 :=
  softmax_kernel f32_zero f32_add f32_sub f32_div (expf env) f32_ltb
                 (temperature_ m) logits temperature.

Definition TinyLlamaModel_sample_token (probabilities : list float32) : result Z :=
  sample_token_kernel f32_ltb probabilities.

(** [tokenize] and [detokenize]. *)
Definition TinyLlamaModel_tokenize (m : TinyLlamaModel) (text : string) : result (list Z) :=
  match tokenizer_ m with
  | None => Throw (TokenizerException "Tokenizer not initialized")
  | Some t => Ok (BPETokenizer_encode t text)
  end.

Definition TinyLlamaModel_detokenize (m : TinyLlamaModel) (tokens : list Z) : result string :=
  match tokenizer_ m with
  | None => Throw (TokenizerException "Tokenizer not initialized")
  | Some t => Ok (BPETokenizer_decode t tokens)
  end.

(** [TinyLlamaModel::tokenize_to_strings] and [get_vocab_size]. *)
Definition TinyLlamaModel_tokenize_to_strings (m : TinyLlamaModel) (text : string)
  : result (list string) :=
  match tokenizer_ m with
  | None => Throw (TokenizerException "Tokenizer not initialized")
  | Some t => Ok (BPETokenizer_encode_to_strings t text)
  end.

Definition TinyLlamaModel_get_vocab_size (m : TinyLlamaModel) : N :=
  to_size_t (vocab_size (config_ m)).

(** One turn of the embedding loop of [forward], for the token at position
    [i]: the range test on the token, then the checked reads of the two
    embedding matrices for [j < model_dim]. *)
Definition embed_row (m : TinyLlamaModel) (i : nat) (token_id : Z) : result (list float32) :=
  let c := config_ m in
  check negb ((token_id <? 0) || (vocab_size c <=? token_id))
  else ModelException "Token ID out of range" ;;
  let d := to_size_t (model_dim c) in
  check negb ((0 <? model_dim c)
              && ((rows_ (embedding_weights_ m) <=? to_size_t token_id)
                  || (cols_ (embedding_weights_ m) <? d)
                  || (rows_ (position_embeddings_ m) <=? N.of_nat i)
                  || (cols_ (position_embeddings_ m) <? d))%N)
  else out_of_bounds ;;
  Ok (map (fun j =>
             if Z.of_nat j <? model_dim c
             then f32_add (f32_add f32_zero (get (embedding_weights_ m) (Z.to_nat token_id) j))
                          (get (position_embeddings_ m) i j)
             else f32_zero)
          (seq 0 (N.to_nat d))).

Fixpoint embed_rows (m : TinyLlamaModel) (i : nat) (tokens : list Z)
  : result (list (list float32)) :=
  match tokens with
  | [] => Ok []
  | t :: tokens' =>
      r <- embed_row m i t ;; rs <- embed_rows m (S i) tokens' ;; Ok (r :: rs)
  end.

(** The loop over the transformer blocks. *)
Fixpoint run_blocks (blocks : list TransformerBlock) (hidden_states mask : Matrix float32)
  : result (Matrix float32) :=
  match blocks with
  | [] => Ok hidden_states
  | b :: blocks' =>
      h <- TransformerBlock_forward env b hidden_states (Some mask) ;;
      run_blocks blocks' h mask
  end.

(** [TinyLlamaModel::forward(input_tokens)]. *)
Definition TinyLlamaModel_forward (m : TinyLlamaModel) (input_tokens : list Z)
  : result (list float32) :=
  let c := config_ m in
  check TinyLlamaModel_is_initialized m
  else ModelException "Model is not fully initialized" ;;
  check negb (Nat.eqb (length input_tokens) 0) else ModelException "Empty input tokens" ;;
  let seq_len := N.of_nat (length input_tokens) in
  check negb (to_size_t (max_sequence_length c) <? seq_len)%N
  else ModelException "Input sequence exceeds maximum length" ;;
  rows <- embed_rows m 0 input_tokens ;;
  let embeddings := {| data_ := concat rows; rows_ := seq_len;
                       cols_ := to_size_t (model_dim c) |} in
  let attention_mask := TinyLlamaModel_create_attention_mask (Z.of_N seq_len) in
  hidden_states <- run_blocks (transformer_blocks_ m) embeddings attention_mask ;;
  logits <- Matrix_mul hidden_states (output_projection_ m) ;;
  let v := to_size_t (vocab_size c) in
  check negb ((0 <? v) && ((rows_ logits <? seq_len) || (cols_ logits <? v)))%N
  else out_of_bounds ;;
  Ok (map (fun i => get logits (length input_tokens - 1) i) (seq 0 (N.to_nat v))).

(** The generation loop of [generate_text]: [fuel] is the number of turns
    still allowed by [max_tokens]; the result is the token sequence when the
    loop ends.  The end-of-sequence test compares with the literal 2. *)
Fixpoint generate_loop (m : TinyLlamaModel) (temperature : float32) (fuel : nat)
  (tokens : list Z) : result (list Z) :=
  match fuel with
  | O => Ok tokens
  | S fuel' =>
      if (to_size_t (max_sequence_length (config_ m)) <=? N.of_nat (length tokens))%N
      then Ok tokens
      else
        logits <- TinyLlamaModel_forward m tokens ;;
        let temp := if f32_ltb f32_zero temperature then temperature else temperature_ m in
        let probs := TinyLlamaModel_softmax m logits temp in
        next_token <- TinyLlamaModel_sample_token probs ;;
        let tokens := tokens ++ [next_token] in
        if next_token =? 2 then Ok tokens
        else generate_loop m temperature fuel' tokens
  end.

(** [TinyLlamaModel::generate_text(prompt, max_tokens, temperature)].
    [tokenize] throws a [TokenizerException] only for a null tokenizer,
    which [is_initialized] has excluded; the handler that replaces the
    tokens by [{1, 2, 3}] is kept as the source has it. *)
Definition TinyLlamaModel_generate_text (m : TinyLlamaModel) (prompt : string)
  (max_tokens : Z) (temperature : float32) : result string :=
  check TinyLlamaModel_is_initialized m
  else ModelException "Model is not fully initialized" ;;
  check negb (max_tokens <=? 0) else ModelException "max_tokens must be positive" ;;
  tokens <- match TinyLlamaModel_tokenize m prompt with
            | Throw (TokenizerException _) => Ok [1; 2; 3]
            | r => r
            end ;;
  let max_len := to_size_t (max_sequence_length (config_ m)) in
  let tokens :=
    if (max_len <=? N.of_nat (length tokens))%N
    then list_resize 0 (N.to_nat (to_size_t (max_sequence_length (config_ m) - 1))) tokens
    else tokens in
  let prompt_length := length tokens in
  tokens <- generate_loop m temperature (Z.to_nat max_tokens) tokens ;;
  match (if (prompt_length <? length tokens)%nat
         then TinyLlamaModel_detokenize m (skipn prompt_length tokens)
         else Ok EmptyString) with
  | Ok generated_part => Ok (prompt ++ generated_part)%string
  | Throw (TokenizerException _) => Ok (prompt ++ " in a land far away...")%string
  | Throw e => Throw e
  | Indeterminate => Indeterminate
  end.
End Model.

(* ------------------------------------------------------------------ *)
(** ** Weight codec: [load_model_weights] and [save_model_weights] *)

Definition MAGIC_NUMBER : Z := 0x544C4C4D.
Definition SUPPORTED_VERSION : Z := 1.

(** [file.read(&x, n)] into an uninitialised local [x] that the next
    statement uses: the value when all [n] bytes arrive. *)
Definition read_scalar (n : nat) (s : ifstream) : result (Z * ifstream) :=
  let '(bs, s') := ifstream_read n s in
  if Nat.eqb (length bs) n then Ok (decode_le bs, s') else Indeterminate.

(** [file.read(&x, n)] into an object that already holds [old] (the members
    of [ModelConfig file_config] start from their default initialisers): the
    bytes that arrive replace the first bytes of the object. *)
Definition read_over (n : nat) (old : list byte) (s : ifstream) : list byte * ifstream :=
  let '(bs, s') := ifstream_read n s in
  (firstn n (bs ++ skipn (length bs) old), s').

Definition read_int_over (old : Z) (s : ifstream) : Z * ifstream :=
  let '(bs, s') := read_over 4 (encode_le 4 (old mod 2 ^ 32)) s in
  (int_of_u32 (decode_le bs), s').

Definition read_float_over (old : float32) (s : ifstream) : float32 * ifstream :=
  let '(bs, s') := read_over 4 (float32_to_bytes old) s in
  (float32_of_bytes bs, s').

(** [file.read(buffer.data(), buffer.size() * sizeof(float))]. *)
Definition read_floats (old : list float32) (s : ifstream) : list float32 * ifstream :=
  let '(bs, s') := ifstream_read (length old * 4) s in
  (elements_of_bytes old bs, s').

(** A matrix record of the file: the two dimensions, their comparison with
    the expected ones, and the data read into [buffer rows cols] (the member
    after [resize], or a fresh local matrix). *)
Definition load_matrix (expected_rows expected_cols : N) (mismatch : string)
  (buffer : N -> N -> Matrix float32) (s : ifstream) : result (Matrix float32 * ifstream) :=
  r <- read_scalar 8 s ;;
  c <- read_scalar 8 (snd r) ;;
  let rows := Z.to_N (fst r) in
  let cols := Z.to_N (fst c) in
  check (rows =? expected_rows)%N && (cols =? expected_cols)%N
  else FileIOException mismatch ;;
  let '(d, s') := read_floats (data_ (buffer rows cols)) (snd c) in
  Ok ({| data_ := d; rows_ := rows; cols_ := cols |}, s').

(** A vector record of the file, read into a fresh [std::vector<float>(size)]. *)
Definition load_vector (expected : N) (mismatch : string) (s : ifstream)
  : result (list float32 * ifstream) :=
  n <- read_scalar 8 s ;;
  let size := Z.to_N (fst n) in
  check (size =? expected)%N else FileIOException mismatch ;;
  Ok (read_floats (repeat f32_zero (N.to_nat size)) (snd n)).

Definition fresh_matrix (rows cols : N) : Matrix float32 := Matrix_ctor rows cols.

(** [load_attention_weights(file, layer_index)] on the block of that layer. *)
Definition load_attention_weights (c : ModelConfig) (layer_index : Z) (b : TransformerBlock)
  (s : ifstream) : result (TransformerBlock * ifstream) :=
  check negb ((layer_index <? 0) || (num_layers c <=? layer_index))
  else ModelException "Invalid layer index" ;;
  let d := to_size_t (model_dim c) in
  q <- load_matrix d d "Query weights dimension mismatch" fresh_matrix s ;;
  k <- load_matrix d d "Key weights dimension mismatch" fresh_matrix (snd q) ;;
  v <- load_matrix d d "Value weights dimension mismatch" fresh_matrix (snd k) ;;
  o <- load_matrix d d "Output weights dimension mismatch" fresh_matrix (snd v) ;;
  let a := attention_ b in
  Ok ({| attention_ := {| query_weights_ := fst q; key_weights_ := fst k;
                          value_weights_ := fst v; output_weights_ := fst o;
                          num_heads_ := num_heads_ a; head_dim_ := head_dim_ a;
                          mha_model_dim_ := mha_model_dim_ a |};
         ffn_ := ffn_ b;
         layer_norm1_weight_ := layer_norm1_weight_ b;
         layer_norm1_bias_ := layer_norm1_bias_ b;
         layer_norm2_weight_ := layer_norm2_weight_ b;
         layer_norm2_bias_ := layer_norm2_bias_ b;
         block_model_dim_ := block_model_dim_ b |}, snd o).

(** [load_ffn_weights(file, layer_index)]. *)
Definition load_ffn_weights (c : ModelConfig) (layer_index : Z) (b : TransformerBlock)
  (s : ifstream) : result (TransformerBlock * ifstream) :=
  check negb ((layer_index <? 0) || (num_layers c <=? layer_index))
  else ModelException "Invalid layer index" ;;
  let d := to_size_t (model_dim c) in
  let h := to_size_t (ffn_hidden_dim c) in
  l1 <- load_matrix d h "Linear1 weights dimension mismatch" fresh_matrix s ;;
  b1 <- load_vector h "Linear1 bias dimension mismatch" (snd l1) ;;
  l2 <- load_matrix h d "Linear2 weights dimension mismatch" fresh_matrix (snd b1) ;;
  b2 <- load_vector d "Linear2 bias dimension mismatch" (snd l2) ;;
  let f := ffn_ b in
  Ok ({| attention_ := attention_ b;
         ffn_ := {| linear1_weights_ := fst l1; linear1_bias_ := fst b1;
                    linear2_weights_ := fst l2; linear2_bias_ := fst b2;
                    ffn_model_dim_ := ffn_model_dim_ f; hidden_dim_ := hidden_dim_ f |};
         layer_norm1_weight_ := layer_norm1_weight_ b;
         layer_norm1_bias_ := layer_norm1_bias_ b;
         layer_norm2_weight_ := layer_norm2_weight_ b;
         layer_norm2_bias_ := layer_norm2_bias_ b;
         block_model_dim_ := block_model_dim_ b |}, snd b2).

(** [load_layer_norm_weights(file, layer_index)]. *)
Definition load_layer_norm_weights (c : ModelConfig) (layer_index : Z) (b : TransformerBlock)
  (s : ifstream) : result (TransformerBlock * ifstream) :=
  check negb ((layer_index <? 0) || (num_layers c <=? layer_index))
  else ModelException "Invalid layer index" ;;
  let d := to_size_t (model_dim c) in
  w1 <- load_vector d "Layer norm 1 weights dimension mismatch" s ;;
  b1 <- load_vector d "Layer norm 1 bias dimension mismatch" (snd w1) ;;
  w2 <- load_vector d "Layer norm 2 weights dimension mismatch" (snd b1) ;;
  b2 <- load_vector d "Layer norm 2 bias dimension mismatch" (snd w2) ;;
  Ok ({| attention_ := attention_ b;
         ffn_ := ffn_ b;
         layer_norm1_weight_ := fst w1;
         layer_norm1_bias_ := fst b1;
         layer_norm2_weight_ := fst w2;
         layer_norm2_bias_ := fst b2;
         block_model_dim_ := block_model_dim_ b |}, snd b2).

(** The loop over the layers: [blocks] holds the blocks of the layers from
    [layer] on.  [transformer_blocks_[layer]] is the unchecked [operator[]];
    running past the vector is undefined. *)
Fixpoint load_layers (c : ModelConfig) (n : nat) (layer : Z) (blocks : list TransformerBlock)
  (s : ifstream) : result (list TransformerBlock * ifstream) :=
  match n with
  | O => Ok (blocks, s)
  | S n' =>
      match blocks with
      | [] => Indeterminate
      | b :: blocks' =>
          b1 <- load_attention_weights c layer b s ;;
          b2 <- load_ffn_weights c layer (fst b1) (snd b1) ;;
          b3 <- load_layer_norm_weights c layer (fst b2) (snd b2) ;;
          rest <- load_layers c n' (layer + 1) blocks' (snd b3) ;;
          Ok (fst b3 :: fst rest, snd rest)
      end
  end.

(** The body of the [try] block of [load_model_weights]. *)
Definition load_model_weights_body (m : TinyLlamaModel) (s : ifstream) : result TinyLlamaModel :=
  let c := config_ m in
  magic <- read_scalar 4 s ;;
  check (fst magic =? MAGIC_NUMBER)
  else FileIOException "Invalid magic number in weights file" ;;
  version <- read_scalar 4 (snd magic) ;;
  check (fst version =? SUPPORTED_VERSION)
  else FileIOException "Unsupported weights file version" ;;
  let d0 := ModelConfig_default in
  let '(file_model_dim, s) := read_int_over (model_dim d0) (snd version) in
  let '(file_num_layers, s) := read_int_over (num_layers d0) s in
  let '(file_num_heads, s) := read_int_over (num_heads d0) s in
  let '(file_ffn_hidden_dim, s) := read_int_over (ffn_hidden_dim d0) s in
  let '(file_max_sequence_length, s) := read_int_over (max_sequence_length d0) s in
  let '(file_vocab_size, s) := read_int_over (vocab_size d0) s in
  let '(file_dropout_rate, s) := read_float_over (dropout_rate d0) s in
  check (file_model_dim =? model_dim c) else FileIOException "Model dimension mismatch" ;;
  check (file_num_layers =? num_layers c) else FileIOException "Number of layers mismatch" ;;
  check (file_num_heads =? num_heads c) else FileIOException "Number of heads mismatch" ;;
  check (file_vocab_size =? vocab_size c) else FileIOException "Vocabulary size mismatch" ;;
  let d := to_size_t (model_dim c) in
  let v := to_size_t (vocab_size c) in
  emb <- load_matrix v d "Embedding weights dimension mismatch"
           (Matrix_resize (embedding_weights_ m)) s ;;
  pos <- load_matrix (to_size_t (max_sequence_length c)) d
           "Position embeddings dimension mismatch"
           (Matrix_resize (position_embeddings_ m)) (snd emb) ;;
  layers <- load_layers c (Z.to_nat (num_layers c)) 0 (transformer_blocks_ m) (snd pos) ;;
  out <- load_matrix d v "Output projection dimension mismatch"
           (Matrix_resize (output_projection_ m)) (snd layers) ;;
  let '(test_byte, s_end) := ifstream_read 1 (snd out) in
  check is_fail s_end else FileIOException "Unexpected data at end of weights file" ;;
  Ok {| tokenizer_ := tokenizer_ m;
        embedding_weights_ := fst emb;
        position_embeddings_ := fst pos;
        transformer_blocks_ := fst layers;
        output_projection_ := fst out;
        config_ := c;
        temperature_ := temperature_ m |}.

(** [TinyLlamaModel::load_model_weights(weights_file)]: the model afterwards.
    The handlers pass a [FileIOException] on and wrap every other exception
    in one.  (The partly loaded model left behind by a throw is not tracked.) *)
Definition TinyLlamaModel_load_model_weights (m : TinyLlamaModel) (weights_file : string)
  (fs : FileSystem) : result TinyLlamaModel :=
  match fs_files fs weights_file with
  | None => Throw (FileIOException "Cannot open model weights file")
  | Some contents =>
      match load_model_weights_body m (ifstream_open contents) with
      | Throw (FileIOException msg) => Throw (FileIOException msg)
      | Throw _ => Throw (FileIOException "Error loading model weights")
      | r => r
      end
  end.

(** The bytes [file.write] emits for an [int], a [size_t], a matrix record
    and a vector record. *)
Definition int_bytes (z : Z) : list byte := encode_le 4 (z mod 2 ^ 32).
Definition size_bytes (n : N) : list byte := encode_le 8 (Z.of_N n).

Definition matrix_record (rows cols : N) (data : list float32) : list byte :=
  size_bytes rows ++ size_bytes cols ++ elements_to_bytes data.
Definition vector_record (size : N) (data : list float32) : list byte :=
  size_bytes size ++ elements_to_bytes data.

(** [std::vector<float>(n, value)]. *)
Definition filled (n : N) (value : float32) : list float32 := repeat value (N.to_nat n).

(** What one turn of the layer loop of [save_model_weights] writes: the
    dimensions come from the configuration and the data are vectors filled
    with [0.1f], [0.0f] or [1.0f]; the block of the layer is not read. *)
Definition save_layer_bytes (c : ModelConfig) : list byte :=
  let d := to_size_t (model_dim c) in
  let h := to_size_t (ffn_hidden_dim c) in
  let attention := matrix_record d d (filled (size_mul d d) f32_tenth) in
  attention ++ attention ++ attention ++ attention
  ++ matrix_record d h (filled (size_mul d h) f32_tenth)
  ++ vector_record h (filled h f32_zero)
  ++ matrix_record h d (filled (size_mul h d) f32_tenth)
  ++ vector_record d (filled d f32_zero)
  ++ vector_record d (filled d f32_one)
  ++ vector_record d (filled d f32_zero)
  ++ vector_record d (filled d f32_one)
  ++ vector_record d (filled d f32_zero).

Definition header_bytes (c : ModelConfig) : list byte :=
  encode_le 4 MAGIC_NUMBER ++ encode_le 4 SUPPORTED_VERSION
  ++ int_bytes (model_dim c) ++ int_bytes (num_layers c) ++ int_bytes (num_heads c)
  ++ int_bytes (ffn_hidden_dim c) ++ int_bytes (max_sequence_length c)
  ++ int_bytes (vocab_size c) ++ float32_to_bytes (dropout_rate c).

Definition matrix_bytes (m : Matrix float32) : list byte :=
  matrix_record (rows_ m) (cols_ m) (data_ m).

(** The contents of the file that [save_model_weights] writes: the header,
    then the tensors. *)
Definition save_body_bytes (m : TinyLlamaModel) : list byte :=
  let c := config_ m in
  matrix_bytes (embedding_weights_ m)
  ++ matrix_bytes (position_embeddings_ m)
  ++ concat (repeat (save_layer_bytes c) (Z.to_nat (num_layers c)))
  ++ matrix_bytes (output_projection_ m).

Definition save_model_weights_bytes (m : TinyLlamaModel) : list byte :=
  header_bytes (config_ m) ++ save_body_bytes m.

(** [TinyLlamaModel::save_model_weights(weights_file)]: the file system
    afterwards. *)
Definition TinyLlamaModel_save_model_weights (m : TinyLlamaModel) (weights_file : string)
  (fs : FileSystem) : result FileSystem :=
  if fs_can_create fs weights_file
  then Ok (fs_write fs weights_file (save_model_weights_bytes m))
  else Throw (FileIOException "Cannot create model weights file").

(** The specification's wording of the save algorithm, for comparison: the
    same structure, every tensor written from the model's in-memory weights. *)
Definition block_bytes_spec (b : TransformerBlock) : list byte :=
  let a := attention_ b in
  let f := ffn_ b in
  let vec (l : list float32) := vector_record (N.of_nat (length l)) l in
  matrix_bytes (query_weights_ a) ++ matrix_bytes (key_weights_ a)
  ++ matrix_bytes (value_weights_ a) ++ matrix_bytes (output_weights_ a)
  ++ matrix_bytes (linear1_weights_ f) ++ vec (linear1_bias_ f)
  ++ matrix_bytes (linear2_weights_ f) ++ vec (linear2_bias_ f)
  ++ vec (layer_norm1_weight_ b) ++ vec (layer_norm1_bias_ b)
  ++ vec (layer_norm2_weight_ b) ++ vec (layer_norm2_bias_ b).

Definition save_model_weights_bytes_spec (m : TinyLlamaModel) : list byte :=
  header_bytes (config_ m)
  ++ matrix_bytes (embedding_weights_ m)
  ++ matrix_bytes (position_embeddings_ m)
  ++ flat_map block_bytes_spec (transformer_blocks_ m)
  ++ matrix_bytes (output_projection_ m).

(* ------------------------------------------------------------------ *)
(** ** Public facade (tiny_llama.hpp, tiny_llama.cpp) *)

Record TinyLlama : Type := mkTinyLlama {
  model_ : option TinyLlamaModel;
  is_initialized_ : bool
}.

Definition NUL : ascii := ascii_of_N 0.

(** [validate_string_input(input, param_name, allow_empty)]. *)
Definition validate_string_input (input : string) (allow_empty : bool) : result unit :=
  check negb (negb allow_empty && (String.length input =? 0)%nat)
  else ConfigurationException "cannot be empty" ;;
  check negb (existsb (Ascii.eqb NUL) (list_ascii_of_string input))
  else ConfigurationException "contains null characters" ;;
  check negb (1000000 <? Z.of_nat (String.length input))
  else ConfigurationException "is too long" ;;
  Ok tt.

(** [validate_positive_integer(value, param_name, min_value)]. *)
Definition validate_positive_integer (value min_value : Z) : result unit :=
  check negb (value <? min_value) else ConfigurationException "must be at least" ;;
  check negb (1000000 <? value) else ConfigurationException "is too large" ;;
  Ok tt.

(** [validate_positive_float(value, param_name, min_value)]. *)
Definition validate_positive_float (value min_value : float32) : result unit :=
  check negb (f32_ltb value min_value) else ConfigurationException "must be at least" ;;
  check f32_is_finite value else ConfigurationException "must be a finite number" ;;
  check negb (f32_ltb (f32_of_Z 1000) value) else ConfigurationException "is too large" ;;
  Ok tt.

(** [validate_token_ids(token_ids, param_name)]. *)
Definition validate_token_ids (token_ids : list Z) : result unit :=
  match token_ids with
  | [] => Ok tt
  | _ :: _ =>
      check negb (100000 <? Z.of_nat (length token_ids))
      else ConfigurationException "contains too many tokens" ;;
      check negb (existsb (fun id => id <? 0) token_ids)
      else ConfigurationException "contains negative token ID" ;;
      Ok tt
  end.

(** The handlers of the facade: a [TinyLlamaException] passes, any other
    exception is replaced by one of the class given. *)
Definition rethrow {A : Type} (wrapped : exn) (r : result A) : result A :=
  match r with
  | Throw e => if is_TinyLlamaException e then Throw e else Throw wrapped
  | _ => r
  end.

Section Facade.
Variable env : Env.

(** [TinyLlama::TinyLlama()]. *)
Definition TinyLlama_ctor : result TinyLlama :=
  m <- TinyLlamaModel_default_ctor env ;;
  Ok {| model_ := Some m; is_initialized_ := false |}.

(** [TinyLlama::generate(prompt, max_tokens)].  The call of [generate_text]
    passes no temperature, so the default argument [1.0f] of the
    declaration in model.hpp is used.  Dereferencing a null [model_] is
    undefined. *)
Definition TinyLlama_generate (t : TinyLlama) (prompt : string) (max_tokens : Z)
  : result string :=
  check is_initialized_ t
  else ModelException "Model not initialized. Call initialize() first." ;;
  _ <- validate_string_input prompt false ;;
  _ <- validate_positive_integer max_tokens 1 ;;
  check negb (10000 <? max_tokens) else ConfigurationException "max_tokens is too large" ;;
  match model_ t with
  | None => Indeterminate
  | Some m =>
      check negb (max_sequence_length (config_ m) <? max_tokens)
      else ConfigurationException
             "max_tokens exceeds model's configured maximum sequence length" ;;
      match TinyLlamaModel_generate_text env m prompt max_tokens f32_one with
      | Throw e => if is_TinyLlamaException e then Throw e
                   else Throw (ModelException "Text generation failed")
      | r => r
      end
  end.

(** [TinyLlama::set_temperature(temperature)]; the lower bound is [0.01f]. *)
Definition TinyLlama_set_temperature (t : TinyLlama) (temperature : float32)
  : result TinyLlama :=
  match model_ t with
  | None => Throw (ConfigurationException "Model not properly constructed")
  | Some m =>
      _ <- validate_positive_float temperature (f32_dyadic 10737418 (-30)) ;;
      Ok {| model_ := Some (TinyLlamaModel_set_temperature m temperature);
            is_initialized_ := is_initialized_ t |}
  end.
(** [TinyLlama::tokenize_to_ids(text)]. *)
Definition TinyLlama_tokenize_to_ids (t : TinyLlama) (text : string) : result (list Z) :=
  check is_initialized_ t
  else TokenizerException "Model not initialized. Call initialize() first." ;;
  _ <- validate_string_input text true ;;
  match model_ t with
  | None => Indeterminate
  | Some m => rethrow (TokenizerException "Tokenization failed")
                      (TinyLlamaModel_tokenize m text)
  end.

(** [TinyLlama::tokenize_to_strings(text)]. *)
Definition TinyLlama_tokenize_to_strings (t : TinyLlama) (text : string)
  : result (list string) :=
  check is_initialized_ t
  else TokenizerException "Model not initialized. Call initialize() first." ;;
  _ <- validate_string_input text true ;;
  match model_ t with
  | None => Indeterminate
  | Some m => rethrow (TokenizerException "Tokenization failed")
                      (TinyLlamaModel_tokenize_to_strings m text)
  end.

(** [TinyLlama::detokenize(token_ids)]. *)
Definition TinyLlama_detokenize (t : TinyLlama) (token_ids : list Z) : result string :=
  check is_initialized_ t
  else TokenizerException "Model not initialized. Call initialize() first." ;;
  _ <- validate_token_ids token_ids ;;
  match model_ t with
  | None => Indeterminate
  | Some m => rethrow (TokenizerException "Detokenization failed")
                      (TinyLlamaModel_detokenize m token_ids)
  end.

(** [TinyLlama::set_max_sequence_length(max_length)]: no state changes. *)
Definition TinyLlama_set_max_sequence_length (t : TinyLlama) (max_length : Z)
  : result unit :=
  match model_ t with
  | None => Throw (ConfigurationException "Model not properly constructed")
  | Some _ =>
      _ <- validate_positive_integer max_length 1 ;;
      check negb (100000 <? max_length)
      else ConfigurationException "max_length is too large" ;;
      Throw (ConfigurationException
               "Max sequence length must be set during model initialization. Current implementation does not support runtime changes.")
  end.

(** [TinyLlama::get_vocab_size()]. *)
Definition TinyLlama_get_vocab_size (t : TinyLlama) : result N :=
  match model_ t with
  | None => Throw (ModelException "Model not properly constructed")
  | Some m =>
      check is_initialized_ t
      else ModelException "Model not initialized. Call initialize() first." ;;
      Ok (TinyLlamaModel_get_vocab_size m)
  end.

End Facade.

(* ------------------------------------------------------------------ *)
(** ** A concrete environment, for running the embedding

    Modelled from the spec: libm and libc are not part of the repository.
    [sample_expf] and [sample_tanhf] return the values C (Annex F) fixes at
    zeros, infinities and NaN, and the saturated values every binary32 libm
    returns ([+0] for arguments at or below -104, where [e^x] is less than
    half the least subnormal; [+inf] at or above 89; [+-1] for a [tanhf]
    argument of magnitude 10 or more).  In between they evaluate a short
    series in binary32, which is close to, but not always equal to, the
    correctly rounded value.  [sample_rand] is the generator the C standard
    gives as an example, with [RAND_MAX] 32767. *)

(** The integer nearest below [x], for a finite [x]. *)
Definition f32_floor (x : float32) : Z :=
  match x with
  | S754_finite s m e =>
      let v := if 0 <=? e then Zpos m * 2 ^ e else Zpos m / 2 ^ (- e) in
      if s then - v - (if (0 <=? e) || (Zpos m mod 2 ^ (- e) =? 0) then 0 else 1) else v
  | _ => 0
  end.

(** [1 + r + r^2/2 + ... + r^n/n!] by Horner's rule. *)
Fixpoint exp_series (n : nat) (k : Z) (r acc : float32) : float32 :=
  match n with
  | O => acc
  | S n' => exp_series n' (k - 1) r (f32_add f32_one (f32_div (f32_mul r acc) (f32_of_Z k)))
  end.

Definition f32_ln2 : float32 := f32_dyadic 11629080 (-24).   (* 0.6931472f *)

Definition sample_expf (x : float32) : float32 :=
  match x with
  | S754_nan => S754_nan
  | S754_zero _ => f32_one
  | S754_infinity true => f32_zero
  | S754_infinity false => x
  | S754_finite _ _ _ =>
      if f32_ltb (f32_of_Z (-104)) x
      then if f32_ltb x (f32_of_Z 89)
           then let k := f32_floor (f32_div x f32_ln2) in
                let r := f32_sub x (f32_mul (f32_of_Z k) f32_ln2) in
                SFldexp 24 128 (exp_series 10 10 r f32_one) k
           else S754_infinity false
      else f32_zero
  end.

Definition sample_tanhf (x : float32) : float32 :=
  match x with
  | S754_nan => S754_nan
  | S754_zero _ => x
  | S754_infinity s => if s then SFopp f32_one else f32_one
  | S754_finite s _ _ =>
      if f32_ltb (SFabs x) (f32_of_Z 10)
      then let e2 := sample_expf (f32_mul f32_two x) in
           f32_div (f32_sub e2 f32_one) (f32_add e2 f32_one)
      else if s then SFopp f32_one else f32_one
  end.

(** The state of the generator after [k] calls, from the initial seed 1. *)
Fixpoint sample_rand_state (k : nat) : Z :=
  match k with
  | O => 1
  | S k' => (sample_rand_state k' * 1103515245 + 12345) mod 2 ^ 32
  end.

Definition sample_rand (k : nat) : Z := (sample_rand_state (S k) / 65536) mod 32768.

Definition sample_env : Env :=
  {| expf := sample_expf; tanhf := sample_tanhf; rand := sample_rand; RAND_MAX := 32767 |}.

(** [sample_expf] kept within the range of the exponential: a value of
    [sample_expf] that is not a non-negative number of the format, or that
    exceeds 1 at an argument that is not positive, is replaced by 1. *)
Definition ranged_expf (x : float32) : float32 :=
  let y := sample_expf x in
  if f32_is_nan x then S754_nan
  else if f32_ltb x (f32_of_Z (-104)) then f32_zero
  else if valid_binary 24 128 y && SFleb f32_zero y
          && (negb (SFleb x f32_zero) || SFleb y f32_one)
       then y
       else f32_one.

Definition ranged_env : Env :=
  {| expf := ranged_expf; tanhf := sample_tanhf; rand := sample_rand; RAND_MAX := 32767 |}.

(* ------------------------------------------------------------------ *)
(** * Notions used in the statements *)

(** An element whose object representation has [sizeof(T)] bytes and reads
    back as the element. *)
Definition copyable {T : Type} {E : Element T} (x : T) : Prop :=
  length (to_bytes x) = sizeof /\ of_bytes (to_bytes x) = x.

(** The invariant of the [max_element] scan over the prefix [pre]: [b] is a
    position of [pre], no element of [pre] is larger than the one at [b],
    and every element before [b] is smaller. *)
Definition is_first_max {F : Type} (ltb : F -> F -> bool) (d : F) (pre : list F) (b : nat)
  : Prop :=
  (b < length pre)%nat /\
  (forall j, (j < length pre)%nat -> ltb (nth b pre d) (nth j pre d) = false) /\
  (forall j, (j < b)%nat -> ltb (nth j pre d) (nth b pre d) = true).

(** [<] on real numbers, as a test. *)
Definition Rltb (a b : R) : bool := if Rlt_dec a b then true else false.

(** [TinyLlamaModel::softmax] and the specification's formulation, run on
    real numbers. *)
Definition softmax_exact (stored : R) (logits : list R) (temperature : R) : list R :=
  softmax_kernel 0%R Rplus Rminus Rdiv exp Rltb stored logits temperature.

Definition softmax_spec_exact (temp : R) (logits : list R) : list R :=
  softmax_spec 0%R Rplus Rminus Rdiv exp Rltb temp logits.

(** The sum of a vector, accumulated from 0 as the tests do. *)
Definition Rsum (l : list R) : R := fold_left Rplus l 0%R.

(** Two models that differ at most in the stored temperature. *)
Definition same_but_temperature (m1 m2 : TinyLlamaModel) : Prop :=
  tokenizer_ m1 = tokenizer_ m2 /\
  embedding_weights_ m1 = embedding_weights_ m2 /\
  position_embeddings_ m1 = position_embeddings_ m2 /\
  transformer_blocks_ m1 = transformer_blocks_ m2 /\
  output_projection_ m1 = output_projection_ m2 /\
  config_ m1 = config_ m2.

(** The model with its blocks replaced. *)
Definition with_blocks (m : TinyLlamaModel) (blocks : list TransformerBlock) : TinyLlamaModel :=
  {| tokenizer_ := tokenizer_ m;
     embedding_weights_ := embedding_weights_ m;
     position_embeddings_ := position_embeddings_ m;
     transformer_blocks_ := blocks;
     output_projection_ := output_projection_ m;
     config_ := config_ m;
     temperature_ := temperature_ m |}.

(** ** Notions of the analysis of binary32 *)

(** The real number a float denotes (0 for the infinities and NaN). *)
Definition f32_real (x : float32) : R :=
  match x with
  | S754_finite s m e => ((if s then -1 else 1) * IZR (Zpos m) * powerRZ 2 e)%R
  | _ => 0%R
  end.

(** The same in units of the least subnormal, [2^-149], for a float whose
    exponent is one of the format. *)
Definition f32_units (x : float32) : Z :=
  match x with
  | S754_finite s m e => (if s then -1 else 1) * Zpos m * 2 ^ (e + 149)
  | _ => 0
  end.

Definition sign_factor (s : bool) : R := if s then (-1)%R else 1%R.

(** The number a shift record stands for, in units of its last place: the
    mantissa, a half when the round bit is set, and something strictly
    between nothing and a half when the sticky bit is set. *)
Definition shr_value (mrs : shr_record) (x : R) : Prop :=
  exists eps : R,
    x = (IZR (shr_m mrs) + (if shr_r mrs then / 2 else 0) + eps)%R /\
    (if shr_s mrs then (0 < eps < / 2)%R else eps = 0%R).

(** The float that rounding returns for the rounded mantissa [m] at
    exponent [E]. *)
Definition round_pack (s : bool) (m E : Z) : float32 :=
  if m =? 2 ^ 24
  then if E + 1 <=? 104 then S754_finite s (2 ^ 23)%positive (E + 1) else S754_infinity s
  else match m with
       | Z0 => S754_zero s
       | Zpos p => if E <=? 104 then S754_finite s p E else S754_infinity s
       | Zneg _ => S754_nan
       end.

(** A zero, a finite number or an infinity of sign [s], with an exponent of
    the format when finite. *)
Definition signed_number (s : bool) (x : float32) : Prop :=
  match x with
  | S754_zero s' => s' = s
  | S754_infinity s' => s' = s
  | S754_finite s' _ e => s' = s /\ -149 <= e
  | S754_nan => False
  end.

(** A zero or a positive finite number whose exponent is one of the format. *)
Definition nonneg_finite (x : float32) : Prop :=
  match x with
  | S754_zero _ => True
  | S754_finite false _ e => -149 <= e
  | _ => False
  end.

(** The same, or plus infinity; and the ones among them that are not zero. *)
Definition nonneg_number (x : float32) : Prop :=
  match x with
  | S754_zero _ => True
  | S754_finite false _ e => -149 <= e
  | S754_infinity false => True
  | _ => False
  end.

Definition positive_number (x : float32) : Prop :=
  match x with
  | S754_finite false _ e => -149 <= e
  | S754_infinity false => True
  | _ => False
  end.

(** A finite number in the canonical form of the format, as every [float]
    of the program is. *)
Definition finite_number (x : float32) : Prop :=
  f32_is_finite x = true /\ valid_binary 24 128 x = true.

(** A number that is zero or negative (not NaN). *)
Definition nonpos_number (x : float32) : Prop := SFleb x f32_zero = true.

(** A non-negative finite number that is at most 1. *)
Definition unit_value (e : float32) : Prop := nonneg_finite e /\ (f32_real e <= 1)%R.

(** A value a running sum can take when it starts from [+0]: not [-0], and
    with an exponent of the format when finite. *)
Definition settled (x : float32) : Prop :=
  match x with
  | S754_zero s => s = false
  | S754_finite _ _ e => -149 <= e
  | _ => True
  end.

Definition in_format (x : float32) : Prop :=
  match x with
  | S754_finite _ _ e => -149 <= e
  | _ => True
  end.

(** What the C standard and the range of the exponential fix of [expf]:
    [exp(+-0)] is 1; the value at a number is a number of the format that is
    not negative; it is at most 1 at an argument that is not positive; and it
    is [+0] below -104, where [e^x] is less than half the least subnormal. *)
Definition expf_conforms (env : Env) : Prop :=
  (forall s, expf env (S754_zero s) = f32_one) /\
  (forall x, f32_is_nan x = false ->
             SFleb f32_zero (expf env x) = true /\ valid_binary 24 128 (expf env x) = true) /\
  (forall x, SFleb x f32_zero = true -> SFleb (expf env x) f32_one = true) /\
  (forall x, f32_ltb x (f32_of_Z (-104)) = true -> expf env x = f32_zero).

(** The score of query row [i] against key row [j], as
    [scaled_dot_product_attention] computes it before masking: the dot
    product times [1 / sqrt(d_k)]. *)
Definition attention_score (Q K : Matrix float32) (i j : nat) : float32 :=
  f32_mul (dot Q (Matrix_transpose K) i j)
          (f32_div f32_one (f32_sqrt (f32_of_Z (Z.of_N (cols_ Q))))).

(** The largest score of row [i] among the positions [0..i] that the causal
    mask leaves alone ([std::max] from minus infinity, as the row loop takes
    it). *)
Definition largest_unmasked_score (Q K : Matrix float32) (i : nat) : float32 :=
  fold_left (fun max_val j => f32_max max_val (attention_score Q K i j)) (seq 0 (S i))
            f32_neg_infinity.

(** A row maximum clears the sentinel of the specification, [-1e9]: it is
    not below it, and the sentinel minus it is below -104, where [expf]
    underflows. *)
Definition clears_sentinel (M : float32) : Prop :=
  let sentinel := f32_dyadic (-1000000000) 0 in
  f32_ltb M sentinel = false /\ f32_ltb (f32_sub sentinel M) (f32_of_Z (-104)) = true.

(** The specification's formulation of softmax, run on binary32. *)
Definition softmax_spec_binary32 (env : Env) (temp : float32) (logits : list float32)
  : list float32 :=
  softmax_spec f32_zero f32_add f32_sub f32_div (expf env) f32_ltb temp logits.

(** ** Notions of the further properties *)

(** The contents of the file that [save_to_file] writes for a matrix. *)
Definition Matrix_file {T : Type} {E : Element T} (m : Matrix T) : list byte :=
  encode_le 8 (Z.of_N (rows_ m)) ++ encode_le 8 (Z.of_N (cols_ m))
  ++ elements_to_bytes (data_ m).

(** The number of cells of a shape, as a mathematical product. *)
Definition cells (shape : list N) : N := fold_right N.mul 1%N shape.

(** Every index is below its dimension. *)
Definition in_shape (indices shape : list N) : Prop :=
  Forall2 N.lt indices shape.

(** The row-major offset of an index vector: every index is weighted by the
    number of cells of the dimensions after it. *)
Fixpoint row_major (indices shape : list N) : N :=
  match indices, shape with
  | i :: indices', d :: shape' => (i * cells shape' + row_major indices' shape')%N
  | _, _ => 0%N
  end.

(** A tensor as the code keeps it: the buffer holds one element per cell. *)
Definition Tensor_wf {T : Type} (t : Tensor T) : Prop :=
  (cells (shape_ t) < size_t_modulus)%N /\
  length (tensor_data_ t) = N.to_nat (cells (shape_ t)).

(** The value the loop of [compute_index] adds for the pairs still to
    visit, in units of the current stride. *)
Fixpoint little_endian (pairs : list (N * N)) : N :=
  match pairs with
  | [] => 0%N
  | (i, d) :: rest => (i + d * little_endian rest)%N
  end.

(** The factor by which the stride grows over the pairs still to visit. *)
Definition dims_product (pairs : list (N * N)) : N :=
  fold_right (fun id acc => (snd id * acc)%N) 1%N pairs.

(** The concatenation of a sequence of strings. *)
Definition join (l : list string) : string := fold_right append EmptyString l.

(** The two maps of a vocabulary agree: an id recorded for a token is a
    position of [id_to_token_] that holds this token, and the unknown token
    is recorded under [unk_token_id_]. *)
Definition Vocabulary_consistent (v : Vocabulary) : Prop :=
  (forall token id, map_find (token_to_id_ v) token = Some id ->
                    0 <= id < Z.of_nat (length (id_to_token_ v)) /\
                    nth (Z.to_nat id) (id_to_token_ v) EmptyString = token) /\
  map_find (token_to_id_ v) UNK_TOKEN = Some (unk_token_id_ v).

(** What [split_to_words] leaves of a character: white space becomes one
    space. *)
Definition space_char (c : ascii) : ascii := if isspace c then " "%char else c.

(** The text that the tokenizer's pieces spell: lower case, every white
    space character a space. *)
Definition normalized_text (text : string) : string :=
  string_of_list_ascii
    (map (fun c => space_char (preprocess_char c)) (list_ascii_of_string text)).

(** The characters that [preprocess_text] rewrites. *)
Definition is_upper (c : ascii) : bool := ((65 <=? char_code c) && (char_code c <=? 90))%N.
Definition is_tab_or_newline (c : ascii) : bool :=
  ((char_code c =? 9) || (char_code c =? 10) || (char_code c =? 13))%N.

(** A word of [split_to_words]: one space, or a non-empty run of characters
    none of which is white space. *)
Definition is_word (w : string) : Prop :=
  w = " "%string \/
  (w <> EmptyString /\ forallb (fun c => negb (isspace c)) (list_ascii_of_string w) = true).

(** The words of [split_to_words] once the word being built is pushed. *)
Definition flush (current : list ascii) (words : list string) : list string :=
  match current with
  | [] => words
  | _ => string_of_list_ascii (rev current) :: words
  end.

(** The rank that a pair has to beat in the scan of [bpe_encode]. *)
Definition rank_bound (best : option (Z * (string * string))) : Z :=
  match best with Some (r, _) => r | None => 2 ^ 31 - 1 end.

(** A token id that [forward] accepts for the configuration [c]. *)
Definition valid_token (c : ModelConfig) (id : Z) : Prop := 0 <= id < vocab_size c.

(** A value of the C++ type [int]. *)
Definition is_int (z : Z) : Prop := - 2 ^ 31 <= z < 2 ^ 31.

(** The matrix [t] has the shape [rows] x [cols], holds one element per
    cell and its elements are copied faithfully. *)
Definition shaped (rows cols : N) (t : Matrix float32) : Prop :=
  rows_ t = rows /\ cols_ t = cols /\
  length (data_ t) = N.to_nat (size_mul rows cols) /\
  Forall copyable (data_ t).

(** The embeddings and the output projection of [m] have the shapes its
    configuration prescribes. *)
Definition configured_shapes (m : TinyLlamaModel) : Prop :=
  let c := config_ m in
  let d := to_size_t (model_dim c) in
  let v := to_size_t (vocab_size c) in
  shaped v d (embedding_weights_ m) /\
  shaped (to_size_t (max_sequence_length c)) d (position_embeddings_ m) /\
  shaped d v (output_projection_ m).

(** The block that loading one layer of a saved file leaves in place of
    [b]: the weights are the placeholders that [save_model_weights] writes. *)
Definition placeholder_block (c : ModelConfig) (b : TransformerBlock) : TransformerBlock :=
  let d := to_size_t (model_dim c) in
  let h := to_size_t (ffn_hidden_dim c) in
  let attention := mkMatrix (filled (size_mul d d) f32_tenth) d d in
  {| attention_ := {| query_weights_ := attention; key_weights_ := attention;
                      value_weights_ := attention; output_weights_ := attention;
                      num_heads_ := num_heads_ (attention_ b);
                      head_dim_ := head_dim_ (attention_ b);
                      mha_model_dim_ := mha_model_dim_ (attention_ b) |};
     ffn_ := {| linear1_weights_ := mkMatrix (filled (size_mul d h) f32_tenth) d h;
                linear1_bias_ := filled h f32_zero;
                linear2_weights_ := mkMatrix (filled (size_mul h d) f32_tenth) h d;
                linear2_bias_ := filled d f32_zero;
                ffn_model_dim_ := ffn_model_dim_ (ffn_ b);
                hidden_dim_ := hidden_dim_ (ffn_ b) |};
     layer_norm1_weight_ := filled d f32_one;
     layer_norm1_bias_ := filled d f32_zero;
     layer_norm2_weight_ := filled d f32_one;
     layer_norm2_bias_ := filled d f32_zero;
     block_model_dim_ := block_model_dim_ b |}.

(** The model that loading a file saved from [m] leaves in [target]. *)
Definition reloaded (m target : TinyLlamaModel) : TinyLlamaModel :=
  let c := config_ m in
  let layers := Z.to_nat (num_layers c) in
  {| tokenizer_ := tokenizer_ target;
     embedding_weights_ := embedding_weights_ m;
     position_embeddings_ := position_embeddings_ m;
     transformer_blocks_ :=
       map (placeholder_block c) (firstn layers (transformer_blocks_ target))
       ++ skipn layers (transformer_blocks_ target);
     output_projection_ := output_projection_ m;
     config_ := config_ target;
     temperature_ := temperature_ target |}.

(** The lower bound [0.01f] of [TinyLlama::set_temperature]. *)
Definition f32_hundredth : float32 := f32_dyadic 10737418 (-30).

(* ------------------------------------------------------------------ *)
(** * Sample inputs *)

Definition empty_fs : FileSystem :=
  {| fs_files := fun _ => None; fs_can_create := fun _ => true |}.

(** A 2 x 3 matrix with ordinary and special values. *)
Definition roundtrip_sample : Matrix float32 :=
  mkMatrix [f32_tenth; f32_m1e9; S754_zero true; S754_nan; f32_one; S754_infinity true] 2 3.

(** The configuration of [test_model_forward] in tests/test_model.cpp, and a
    smaller one. *)
Definition test_config : ModelConfig :=
  {| model_dim := 8; num_layers := 2; num_heads := 2; ffn_hidden_dim := 16;
     max_sequence_length := 10; vocab_size := 100; dropout_rate := f32_tenth |}.

Definition tiny_config : ModelConfig :=
  {| model_dim := 2; num_layers := 1; num_heads := 1; ffn_hidden_dim := 2;
     max_sequence_length := 4; vocab_size := 5; dropout_rate := f32_tenth |}.

(** A one-layer model over the default four-token vocabulary whose logits
    are [0, 0, 0, 200] at every position (all embeddings are 1, the layer
    adds nothing, the projection has 200 in the column [favourite]). *)
Definition one_by_one (x : float32) : Matrix float32 := mkMatrix [x] 1 1.

Definition silent_block : TransformerBlock :=
  {| attention_ := {| query_weights_ := one_by_one f32_zero;
                      key_weights_ := one_by_one f32_zero;
                      value_weights_ := one_by_one f32_zero;
                      output_weights_ := one_by_one f32_zero;
                      num_heads_ := 1; head_dim_ := 1; mha_model_dim_ := 1 |};
     ffn_ := {| linear1_weights_ := one_by_one f32_zero; linear1_bias_ := [f32_zero];
                linear2_weights_ := one_by_one f32_zero; linear2_bias_ := [f32_zero];
                ffn_model_dim_ := 1; hidden_dim_ := 1 |};
     layer_norm1_weight_ := [f32_one]; layer_norm1_bias_ := [f32_zero];
     layer_norm2_weight_ := [f32_one]; layer_norm2_bias_ := [f32_zero];
     block_model_dim_ := 1 |}.

Definition favourite_config : ModelConfig :=
  {| model_dim := 1; num_layers := 1; num_heads := 1; ffn_hidden_dim := 1;
     max_sequence_length := 8; vocab_size := 4; dropout_rate := f32_tenth |}.

Definition favourite_model (favourite : nat) : TinyLlamaModel :=
  {| tokenizer_ := Some BPETokenizer_ctor;
     embedding_weights_ := mkMatrix (repeat f32_one 4) 4 1;
     position_embeddings_ := mkMatrix (repeat f32_zero 8) 8 1;
     transformer_blocks_ := [silent_block];
     output_projection_ :=
       mkMatrix (map (fun j => if Nat.eqb j favourite then f32_of_Z 200 else f32_zero) (seq 0 4))
                1 4;
     config_ := favourite_config;
     temperature_ := f32_one |}.

(** An environment with the same libm and another random number generator. *)
Definition other_rand_env : Env :=
  {| expf := sample_expf; tanhf := sample_tanhf; rand := fun _ => 0; RAND_MAX := 1 |}.

(** Attention inputs over two positions with head dimension 1: in the first
    group the score of position 0 is below the mask sentinel; in the second
    the two runs differ in the key and value rows of position 1 only. *)
Definition leak_Q : Matrix float32 := mkMatrix [f32_one; f32_one] 2 1.
Definition leak_K : Matrix float32 := mkMatrix [f32_dyadic (-3000000000) 0; f32_zero] 2 1.
Definition leak_V : Matrix float32 := mkMatrix [f32_zero; f32_one] 2 1.
Definition leak_V' : Matrix float32 := mkMatrix [f32_zero; f32_two] 2 1.

Definition masked_Q : Matrix float32 := mkMatrix [f32_one; f32_one] 2 1.
Definition masked_K : Matrix float32 := mkMatrix [f32_one; f32_two] 2 1.
Definition masked_K' : Matrix float32 := mkMatrix [f32_one; f32_six] 2 1.
Definition masked_V : Matrix float32 := mkMatrix [f32_half; f32_two] 2 1.
Definition masked_V' : Matrix float32 := mkMatrix [f32_half; f32_m1e9] 2 1.

(** A 2 x 3 x 4 tensor of floats, and a 2 x 3 one. *)
Definition cube_sample : Tensor float32 := Tensor_ctor [2; 3; 4]%N.
Definition plane_sample : Tensor float32 :=
  mkTensor [f32_zero; f32_one; f32_two; f32_six; f32_half; f32_tenth] [2; 3]%N.

(** A tokenizer whose one merge rule has the largest rank an [int] holds. *)
Definition stubborn_tokenizer : BPETokenizer :=
  {| vocab_ := Vocabulary_ctor; bpe_merges_ := [("a", "b")%string];
     bpe_ranks_ := [("a b"%string, 2147483647)] |}.

(** A tokenizer whose vocabulary holds the letters of "ab c" and the merged
    symbol "ab", with the one merge rule "a b". *)
Definition abc_vocabulary : Vocabulary :=
  fold_left (fun v token => snd (Vocabulary_add_token v token))
            ["a"; "b"; "c"; " "; "ab"]%string Vocabulary_ctor.

Definition abc_tokenizer : BPETokenizer :=
  {| vocab_ := abc_vocabulary; bpe_merges_ := [("a", "b")%string];
     bpe_ranks_ := [("a b"%string, 0)] |}.

(** A zero and 300 times -17: 301 finite logits. *)
Definition long_logits : list float32 := f32_zero :: repeat (f32_of_Z (-17)) 300.

(* ------------------------------------------------------------------ *)
(** * Properties *)

(** ** Bytes and little-endian integers *)

Lemma Z_of_byte_of_Z (z : Z) : Z_of_byte (byte_of_Z z) = z mod 256.
Proof.
  unfold Z_of_byte, byte_of_Z.
  assert (Hr : 0 <= z mod 256 < 256) by (apply Z.mod_pos_bound; lia).
  destruct (Byte.of_N (Z.to_N (z mod 256))) as [b|] eqn:Hb.
  - apply Byte.to_of_N in Hb. rewrite Hb. rewrite Z2N.id; lia.
  - apply Byte.of_N_None_iff in Hb. lia.
Qed.

Lemma encode_le_length (n : nat) (z : Z) : length (encode_le n z) = n.
Proof.
  revert z. induction n as [|n IH]; intro z; simpl; [reflexivity | now rewrite IH].
Qed.

Lemma decode_encode_le (n : nat) (z : Z) :
  0 <= z < 256 ^ Z.of_nat n -> decode_le (encode_le n z) = z.
Proof.
  revert z. induction n as [|n IH]; intros z Hz.
  - simpl in *. lia.
  - cbn [encode_le decode_le]. rewrite Z_of_byte_of_Z.
    rewrite IH.
    + pose proof (Z.div_mod z 256). lia.
    + rewrite Nat2Z.inj_succ, Z.pow_succ_r in Hz by lia.
      split; [apply Z.div_pos; lia | apply Z.div_lt_upper_bound; lia].
Qed.

Lemma decode_size_bytes (n : N) :
  (n < size_t_modulus)%N -> Z.to_N (decode_le (size_bytes n)) = n.
Proof.
  intro Hn. unfold size_bytes. rewrite decode_encode_le.
  - apply N2Z.id.
  - unfold size_t_modulus in Hn. change (256 ^ Z.of_nat 8) with (Z.of_N (2 ^ 64)%N). lia.
Qed.

(** ** Reading back what was written *)

Lemma ifstream_read_app (bs rest : list byte) :
  ifstream_read (length bs) (mkStream (bs ++ rest) false) = (bs, mkStream rest false).
Proof.
  unfold ifstream_read. cbn [is_fail is_buf].
  rewrite length_app.
  replace (length bs <=? length bs + length rest)%nat with true
    by (symmetry; apply Nat.leb_le; lia).
  rewrite firstn_app, Nat.sub_diag, firstn_all, skipn_app, Nat.sub_diag, skipn_all.
  simpl. now rewrite app_nil_r.
Qed.

Section ElementBytes.
Context {T : Type} {E : Element T}.

Lemma elements_to_bytes_length (l : list T) :
  Forall copyable l -> length (elements_to_bytes l) = (length l * sizeof)%nat.
Proof.
  induction 1 as [|x l [Hx _] _ IH]; [reflexivity|].
  unfold elements_to_bytes in *. cbn [flat_map length].
  rewrite length_app, IH, Hx. reflexivity.
Qed.

Lemma chunks_elements_to_bytes (l : list T) :
  Forall copyable l ->
  map of_bytes (chunks sizeof (length l) (elements_to_bytes l)) = l.
Proof.
  induction 1 as [|x l [Hlen Hx] _ IH]; [reflexivity|].
  unfold elements_to_bytes in *. cbn [flat_map length chunks map].
  rewrite <- Hlen at 1.
  rewrite firstn_app, Nat.sub_diag, firstn_all. cbn [firstn]. rewrite app_nil_r, Hx.
  rewrite <- Hlen at 2.
  rewrite skipn_app, Nat.sub_diag, skipn_all. cbn [skipn app].
  now rewrite IH.
Qed.

(** A complete read stores exactly the elements that were written,
    whatever the buffer held. *)
Lemma elements_of_to_bytes (old l : list T) :
  Forall copyable l -> length old = length l ->
  elements_of_bytes old (elements_to_bytes l) = l.
Proof.
  intros Hl Hlen. unfold elements_of_bytes.
  rewrite Hlen.
  rewrite <- (elements_to_bytes_length l Hl).
  rewrite firstn_app, Nat.sub_diag, firstn_all. cbn [firstn]. rewrite app_nil_r.
  now apply chunks_elements_to_bytes.
Qed.

Lemma vector_resize_length (n : nat) (l : list T) : length (vector_resize n l) = n.
Proof.
  unfold vector_resize, list_resize.
  rewrite length_app, length_firstn, repeat_length. lia.
Qed.
End ElementBytes.

(** ** C8: matrix file round trip *)

(** C8. For every matrix [M] (of any element type whose elements are copied
    byte for byte), [save_to_file] followed by [load_from_file] into a fresh
    matrix -- or into any other matrix -- yields a matrix with the same
    [rows], the same [cols] and the same elements, hence element-wise equal
    within any tolerance. *)
Theorem Matrix_save_load_roundtrip {T : Type} {E : Element T}
  (M target : Matrix T) (filename : string) (fs : FileSystem) :
  Matrix_wf M ->
  Forall copyable (data_ M) ->
  fs_can_create fs filename = true ->
  exists fs',
    Matrix_save_to_file M filename fs = Ok fs' /\
    Matrix_load_from_file target filename fs' = Ok M /\
    Matrix_load_from_file Matrix_default filename fs' = Ok M.
Proof.
  intros (Hr & Hc & Hlen) Hcopy Hcreate.
  unfold Matrix_save_to_file. rewrite Hcreate.
  eexists. split; [reflexivity|].
  assert (Hload : forall t : Matrix T,
             Matrix_load_from_file t filename
               (fs_write fs filename
                  (encode_le 8 (Z.of_N (rows_ M)) ++
                   encode_le 8 (Z.of_N (cols_ M)) ++ elements_to_bytes (data_ M))) = Ok M).
  { intro t. unfold Matrix_load_from_file, fs_write. cbn [fs_files].
    rewrite String.eqb_refl. unfold ifstream_open.
    pose proof (ifstream_read_app (encode_le 8 (Z.of_N (rows_ M)))
                  (encode_le 8 (Z.of_N (cols_ M)) ++ elements_to_bytes (data_ M))) as H1.
    rewrite encode_le_length in H1. rewrite H1.
    pose proof (ifstream_read_app (encode_le 8 (Z.of_N (cols_ M)))
                  (elements_to_bytes (data_ M))) as H2.
    rewrite encode_le_length in H2. rewrite H2.
    cbn [is_fail].
    fold (size_bytes (rows_ M)). fold (size_bytes (cols_ M)).
    rewrite !decode_size_bytes by assumption.
    cbn [Matrix_resize data_].
    rewrite vector_resize_length, <- Hlen.
    pose proof (ifstream_read_app (elements_to_bytes (data_ M)) []) as H3.
    rewrite app_nil_r, (elements_to_bytes_length _ Hcopy) in H3. rewrite H3.
    cbn [is_fail].
    rewrite elements_of_to_bytes by (try assumption; apply vector_resize_length).
    destruct M; reflexivity. }
  split; apply Hload.
Qed.

Lemma Matrix_save_load_roundtrip_witness :
  exists fs',
    Matrix_save_to_file roundtrip_sample "m.bin" empty_fs = Ok fs' /\
    Matrix_load_from_file (Matrix_ctor 1 1) "m.bin" fs' = Ok roundtrip_sample /\
    Matrix_load_from_file Matrix_default "m.bin" fs' = Ok roundtrip_sample.
Proof.
  apply (Matrix_save_load_roundtrip roundtrip_sample (Matrix_ctor 1 1) "m.bin" empty_fs).
  - repeat split.
  - repeat constructor.
  - reflexivity.
Defined.

(** ** The order of [operator<] on floats *)

Ltac float_order_cases :=
  unfold f32_ltb, SFltb, SFcompare;
  repeat match goal with
         | x : float32 |- _ => destruct x
         | x : spec_float |- _ => destruct x
         | s : bool |- _ => destruct s
         end;
  cbn; try congruence; try discriminate; try reflexivity; auto.

Ltac compare_cases :=
  repeat match goal with
         | |- context [Z.compare ?a ?b] => destruct (Z.compare_spec a b); subst
         | H : context [Z.compare ?a ?b] |- _ => destruct (Z.compare_spec a b); subst
         | |- context [Pos.compare_cont Eq ?a ?b] =>
             change (Pos.compare_cont Eq a b) with (Pos.compare a b);
             destruct (Pos.compare_spec a b); subst
         | H : context [Pos.compare_cont Eq ?a ?b] |- _ =>
             change (Pos.compare_cont Eq a b) with (Pos.compare a b) in H;
             destruct (Pos.compare_spec a b); subst
         end;
  cbn in *; try congruence; try discriminate; try reflexivity; try lia.

Lemma f32_ltb_irrefl (x : float32) : f32_ltb x x = false.
Proof. float_order_cases; compare_cases. Qed.

Lemma f32_ltb_trans (x y z : float32) :
  f32_ltb x y = true -> f32_ltb y z = true -> f32_ltb x z = true.
Proof. float_order_cases; intros; compare_cases. Qed.

(** For numbers (not NaN), [x < z] and not [x < y] give [y < z]. *)
Lemma f32_ltb_negtrans (x y z : float32) :
  f32_is_nan y = false ->
  f32_ltb x z = true -> f32_ltb x y = false -> f32_ltb y z = true.
Proof. float_order_cases; intros; compare_cases. Qed.

(** ** [std::max_element] *)

Section MaxElement.
Variable F : Type.
Variable ltb : F -> F -> bool.
Variable d : F.

Lemma max_element_from_bound (l : list F) :
  forall best_i best i, (best_i < i)%nat ->
    (max_element_from ltb best_i best i l < i + length l)%nat.
Proof.
  induction l as [|x l IH]; intros best_i best i Hlt; cbn [max_element_from length].
  - lia.
  - destruct (ltb best x).
    + specialize (IH i x (S i)). lia.
    + specialize (IH best_i best (S i)). lia.
Qed.

Lemma max_element_bound (l : list F) : l <> [] -> (max_element ltb l < length l)%nat.
Proof.
  destruct l as [|x l]; [congruence|]. intros _.
  unfold max_element. pose proof (max_element_from_bound l 0%nat x 1%nat).
  cbn [length]. lia.
Qed.

(** The elements the scan meets are numbers the order treats as a strict
    weak order. *)
Variable number : F -> Prop.
Hypothesis ltb_irrefl : forall x, ltb x x = false.
Hypothesis ltb_trans : forall x y z, ltb x y = true -> ltb y z = true -> ltb x z = true.
Hypothesis ltb_negtrans :
  forall x y z, number y -> ltb x z = true -> ltb x y = false -> ltb y z = true.

Lemma max_element_from_first_max (l : list F) :
  forall pre best_i,
    Forall number (pre ++ l) ->
    is_first_max ltb d pre best_i ->
    is_first_max ltb d (pre ++ l) (max_element_from ltb best_i (nth best_i pre d) (length pre) l).
Proof.
  induction l as [|x l IH]; intros pre best_i Hnum (Hb & Hmax & Hfirst).
  - cbn [max_element_from]. rewrite app_nil_r. now repeat split.
  - cbn [max_element_from].
    assert (Happ : pre ++ x :: l = (pre ++ [x]) ++ l) by now rewrite <- app_assoc.
    assert (Hlen : length (pre ++ [x]) = S (length pre))
      by (rewrite length_app; cbn; lia).
    assert (Hnth : forall j, (j < length pre)%nat -> nth j (pre ++ [x]) d = nth j pre d)
      by (intros; now apply app_nth1).
    assert (Hlast : nth (length pre) (pre ++ [x]) d = x)
      by (rewrite app_nth2, Nat.sub_diag by lia; reflexivity).
    assert (Hnumj : forall j, (j < length pre)%nat -> number (nth j pre d)).
    { intros j Hj. rewrite Forall_forall in Hnum. apply Hnum.
      apply in_or_app. left. now apply nth_In. }
    rewrite Happ in Hnum |- *.
    destruct (ltb (nth best_i pre d) x) eqn:Hbx.
    + specialize (IH (pre ++ [x]) (length pre) Hnum).
      rewrite Hlast, Hlen in IH.
      apply IH. repeat split.
      * lia.
      * intros j Hj. rewrite Hlast.
        destruct (Nat.eq_dec j (length pre)) as [->|Hne].
        { rewrite Hlast. apply ltb_irrefl. }
        rewrite Hnth by lia.
        destruct (ltb x (nth j pre d)) eqn:Hxj; [|reflexivity].
        rewrite <- (Hmax j) by lia. symmetry. eapply ltb_trans; eassumption.
      * intros j Hj. rewrite Hlast, Hnth by lia.
        destruct (Nat.lt_trichotomy j best_i) as [Hlt|[->|Hgt]].
        { eapply ltb_trans; [now apply Hfirst | assumption]. }
        { assumption. }
        { eapply ltb_negtrans; [now apply Hnumj | eassumption | apply Hmax; lia]. }
    + specialize (IH (pre ++ [x]) best_i Hnum).
      rewrite Hnth, Hlen in IH by assumption.
      apply IH. repeat split.
      * lia.
      * intros j Hj. rewrite Hnth by assumption.
        destruct (Nat.eq_dec j (length pre)) as [->|Hne].
        { now rewrite Hlast. }
        rewrite Hnth by lia. apply Hmax. lia.
      * intros j Hj. rewrite !Hnth by lia. now apply Hfirst.
Qed.

Lemma max_element_first_max (l : list F) :
  l <> [] -> Forall number l -> is_first_max ltb d l (max_element ltb l).
Proof.
  destruct l as [|x l]; [congruence|]. intros _ Hnum.
  unfold max_element.
  apply (max_element_from_first_max l [x] 0%nat Hnum).
  repeat split; cbn [length nth].
  - lia.
  - intros j Hj. replace j with 0%nat by lia. apply ltb_irrefl.
  - intros j Hj. lia.
Qed.
End MaxElement.

(** ** C9: greedy sampling *)

(** C9. [sample_token] on an empty vector fails with a Model-kind error; on
    a non-empty vector it returns an index in [[0, length)]; and on a
    probability vector (no entry is NaN) that index is the first maximal
    element: no entry is larger than the one it names, and every entry before
    it is strictly smaller, so that among tied maxima the smallest index is
    returned. *)
Theorem sample_token_first_maximal (probabilities : list float32) :
  (probabilities = [] ->
   TinyLlamaModel_sample_token probabilities
   = Throw (ModelException "Empty probability distribution")) /\
  (probabilities <> [] ->
   exists r : nat,
     TinyLlamaModel_sample_token probabilities = Ok (Z.of_nat r) /\
     (r < length probabilities)%nat /\
     (Forall (fun p => f32_is_nan p = false) probabilities ->
      (forall j, (j < length probabilities)%nat ->
                 f32_ltb (nth r probabilities f32_zero) (nth j probabilities f32_zero) = false) /\
      (forall j, (j < r)%nat ->
                 f32_ltb (nth j probabilities f32_zero) (nth r probabilities f32_zero) = true))).
Proof.
  split.
  - intros ->. reflexivity.
  - intro Hne. exists (max_element f32_ltb probabilities).
    split; [|split].
    + destruct probabilities; [congruence | reflexivity].
    + now apply max_element_bound.
    + intro Hnum.
      apply (max_element_first_max float32 f32_ltb f32_zero
               (fun p => f32_is_nan p = false)
               f32_ltb_irrefl f32_ltb_trans f32_ltb_negtrans probabilities Hne Hnum).
Qed.

Lemma sample_token_first_maximal_witness :
  let probabilities := [f32_tenth; f32_half; f32_half; f32_tenth] in
  exists r : nat,
    TinyLlamaModel_sample_token probabilities = Ok (Z.of_nat r) /\
    (r < length probabilities)%nat /\
    (forall j, (j < length probabilities)%nat ->
               f32_ltb (nth r probabilities f32_zero) (nth j probabilities f32_zero) = false) /\
    (forall j, (j < r)%nat ->
               f32_ltb (nth j probabilities f32_zero) (nth r probabilities f32_zero) = true).
Proof.
  intro probabilities.
  destruct (sample_token_first_maximal probabilities) as [_ H].
  destruct H as (r & Hr & Hlt & Hmax); [discriminate|].
  exists r. split; [exact Hr|]. split; [exact Hlt|].
  apply Hmax. repeat constructor.
Defined.

Example sample_token_tie :
  TinyLlamaModel_sample_token [f32_tenth; f32_half; f32_half; f32_tenth] = Ok 1.
Proof. reflexivity. Qed.

Example sample_token_nan_first :
  TinyLlamaModel_sample_token [S754_nan; f32_half; f32_one] = Ok 0.
Proof. reflexivity. Qed.

(** ** Softmax in exact arithmetic *)

Open Scope R_scope.

Lemma fold_left_Rplus_acc (l : list R) (a : R) : fold_left Rplus l a = a + Rsum l.
Proof.
  unfold Rsum. revert a. induction l as [|x l IH]; intro a; cbn [fold_left].
  - lra.
  - rewrite (IH (a + x)), (IH (0 + x)). lra.
Qed.

Lemma Rsum_cons (x : R) (l : list R) : Rsum (x :: l) = x + Rsum l.
Proof. unfold Rsum at 1. cbn [fold_left]. rewrite fold_left_Rplus_acc. lra. Qed.

Lemma Rsum_map_mult (c : R) (l : list R) : Rsum (map (fun x => x * c) l) = Rsum l * c.
Proof.
  induction l as [|x l IH]; cbn [map].
  - unfold Rsum. cbn. lra.
  - rewrite !Rsum_cons, IH. lra.
Qed.

Lemma Rsum_map_exp_pos {A : Type} (f : A -> R) (l : list A) :
  l <> [] -> 0 < Rsum (map (fun a => exp (f a)) l).
Proof.
  destruct l as [|a l]; [congruence|]. intros _.
  cbn [map]. rewrite Rsum_cons.
  assert (H : 0 <= Rsum (map (fun a => exp (f a)) l)).
  { induction l as [|b l IH]; cbn [map].
    - unfold Rsum. cbn. lra.
    - rewrite Rsum_cons. pose proof (exp_pos (f b)). lra. }
  pose proof (exp_pos (f a)). lra.
Qed.

(** In exact arithmetic and with a non-zero effective temperature, softmax
    returns a distribution, and it is the specification's formulation. *)
Lemma softmax_exact_distribution (stored temperature : R) (logits : list R) :
  logits <> [] ->
  effective_temperature 0 Rltb stored temperature <> 0 ->
  let p := softmax_exact stored logits temperature in
  length p = length logits /\
  Forall (fun x => 0 <= x) p /\
  Rsum p = 1 /\
  Rabs (Rsum p - 1) <= 1 / 100000 /\
  effective_temperature 0 Rltb stored temperature
  = (if Rlt_dec 0 temperature then temperature else stored) /\
  p = softmax_spec_exact (effective_temperature 0 Rltb stored temperature) logits.
Proof.
  intros Hne Htemp p.
  set (t := effective_temperature 0 Rltb stored temperature) in *.
  set (M := nth (max_element Rltb logits) logits 0).
  set (E := map (fun l => exp ((l - M) / t)) logits).
  assert (Hp : p = map (fun e => e / Rsum E) E).
  { subst p. unfold softmax_exact, softmax_kernel.
    destruct logits; [congruence | reflexivity]. }
  assert (HS : 0 < Rsum E) by (subst E; now apply Rsum_map_exp_pos).
  assert (Hsum : Rsum p = 1).
  { rewrite Hp. unfold Rdiv. rewrite Rsum_map_mult. field. lra. }
  split; [|split; [|split; [|split; [|split]]]].
  - rewrite Hp. subst E. now rewrite !length_map.
  - rewrite Hp. subst E. rewrite map_map. apply Forall_forall.
    intros x Hx. apply in_map_iff in Hx. destruct Hx as (l & <- & _).
    pose proof (exp_pos ((l - M) / t)).
    apply Rlt_le, Rdiv_lt_0_compat; assumption.
  - exact Hsum.
  - rewrite Hsum. replace (1 - 1) with 0 by lra. rewrite Rabs_R0. lra.
  - subst t. unfold effective_temperature, Rltb. destruct (Rlt_dec 0 temperature); reflexivity.
  - rewrite Hp. unfold softmax_spec_exact, softmax_spec.
    set (scaled := map (fun l => l / t) logits).
    set (M' := nth (max_element Rltb scaled) scaled 0).
    set (E' := map (fun s => exp (s - M')) scaled).
    fold (Rsum E').
    set (c := exp (M' - M / t)).
    assert (Hc : 0 < c) by apply exp_pos.
    assert (HE : E = map (fun x => x * c) E').
    { subst E E' scaled. rewrite !map_map. apply map_ext. intro l.
      subst c. rewrite <- exp_plus. f_equal. unfold Rdiv. ring. }
    assert (HS' : 0 < Rsum E').
    { subst E' scaled. rewrite map_map. apply Rsum_map_exp_pos. assumption. }
    rewrite HE, Rsum_map_mult, map_map. apply map_ext. intro x. field. lra.
Qed.

Close Scope R_scope.

(** ** Rounding in binary32

    The operations of [SpecFloat] at precision 24, from their definitions:
    what the final rounding returns, and from it the error of an addition
    and of a division of non-negative numbers, the sign of a difference and
    of a quotient, and the sum that softmax accumulates. *)

(** ** Digits and shifts *)

Lemma fexp32_eq (z : Z) : fexp 24 128 z = Z.max (z - 24) (-149).
Proof. reflexivity. Qed.

Lemma digits2_pos_bounds (p : positive) :
  2 ^ (Zpos (digits2_pos p) - 1) <= Zpos p < 2 ^ Zpos (digits2_pos p).
Proof.
  induction p as [p IH|p IH|]; cbn [digits2_pos].
  - rewrite Pos2Z.inj_succ.
    replace (Z.succ (Zpos (digits2_pos p)) - 1) with (Z.succ (Zpos (digits2_pos p) - 1)) by lia.
    rewrite !Z.pow_succ_r by lia. lia.
  - rewrite Pos2Z.inj_succ.
    replace (Z.succ (Zpos (digits2_pos p)) - 1) with (Z.succ (Zpos (digits2_pos p) - 1)) by lia.
    rewrite !Z.pow_succ_r by lia. lia.
  - cbn. lia.
Qed.

Lemma Zdigits2_bounds (m : Z) :
  0 < m -> 2 ^ (Zdigits2 m - 1) <= m < 2 ^ Zdigits2 m.
Proof.
  destruct m as [|p|p]; try lia. intros _. apply digits2_pos_bounds.
Qed.

Lemma Zdigits2_nonneg (m : Z) : 0 <= Zdigits2 m.
Proof. destruct m; cbn; lia. Qed.

(** A mantissa of at least [2^k] has more than [k] digits. *)
Lemma Zdigits2_gt (m k : Z) : 0 <= k -> 2 ^ k <= m -> k < Zdigits2 m.
Proof.
  intros Hk Hm.
  assert (0 < m) by (pose proof (Z.pow_pos_nonneg 2 k); lia).
  destruct (Zdigits2_bounds m H) as [_ Hlt].
  destruct (Z.lt_ge_cases k (Zdigits2 m)) as [|Hge]; [assumption|].
  pose proof (Z.pow_le_mono_r 2 (Zdigits2 m) k). lia.
Qed.

(** A mantissa below [2^k] has at most [k] digits. *)
Lemma Zdigits2_le (m k : Z) : 0 <= k -> 0 <= m < 2 ^ k -> Zdigits2 m <= k.
Proof.
  intros Hk [Hm0 Hm].
  destruct (Z.eq_dec m 0) as [->|Hne]; [cbn; lia|].
  destruct (Zdigits2_bounds m) as [Hge _]; [lia|].
  destruct (Z.le_gt_cases (Zdigits2 m) k) as [|Hgt]; [assumption|].
  pose proof (Z.pow_le_mono_r 2 k (Zdigits2 m - 1)). lia.
Qed.

Lemma iter_pos_nat {A : Type} (f : A -> A) (p : positive) (x : A) :
  iter_pos f p x = Nat.iter (Pos.to_nat p) f x.
Proof.
  revert x. induction p as [p IH|p IH|]; intro x; cbn [iter_pos].
  - rewrite !IH, Pos2Nat.inj_xI.
    replace (S (2 * Pos.to_nat p)) with (Pos.to_nat p + (Pos.to_nat p + 1))%nat by lia.
    rewrite !Nat.iter_add. reflexivity.
  - rewrite !IH, Pos2Nat.inj_xO.
    replace (2 * Pos.to_nat p)%nat with (Pos.to_nat p + Pos.to_nat p)%nat by lia.
    rewrite Nat.iter_add. reflexivity.
  - reflexivity.
Qed.

Lemma shr_spec (mrs : shr_record) (e n : Z) :
  0 <= n -> shr mrs e n = (Nat.iter (Z.to_nat n) shr_1 mrs, e + n).
Proof.
  intro Hn. destruct n as [|p|p]; try lia; cbn [shr].
  - now rewrite Z.add_0_r.
  - now rewrite iter_pos_nat.
Qed.

Lemma shr_nonpos (mrs : shr_record) (e n : Z) : n <= 0 -> shr mrs e n = (mrs, e).
Proof. intro Hn. destruct n as [|p|p]; try lia; reflexivity. Qed.

Lemma shr_1_spec (mrs : shr_record) (x : R) :
  0 <= shr_m mrs ->
  shr_value mrs x ->
  shr_value (shr_1 mrs) (x / 2) /\ shr_m (shr_1 mrs) = shr_m mrs / 2.
Proof.
  intros Hm (eps & Hx & Heps). destruct mrs as [m r s]. cbn [shr_m shr_r shr_s] in *.
  assert (Hhalf : forall (q : Z) (b : bool),
             IZR m = (2 * IZR q + (if b then 1 else 0))%R ->
             shr_value {| shr_m := q; shr_r := b; shr_s := r || s |} (x / 2)).
  { intros q b Hq. exists (((if r then / 2 else 0) + eps) / 2)%R.
    cbn [shr_m shr_r shr_s]. split.
    - rewrite Hx, Hq. destruct b; lra.
    - destruct r, s; cbn [orb]; lra. }
  destruct m as [|p|p]; [| |lia].
  - cbn [shr_1 shr_m]. split; [|reflexivity].
    apply Hhalf. lra.
  - destruct p as [p|p|]; cbn [shr_1 shr_m].
    + split.
      * apply Hhalf. rewrite Pos2Z.inj_xI, plus_IZR, mult_IZR. lra.
      * rewrite Pos2Z.inj_xI. apply (Z.div_unique _ 2 _ 1); lia.
    + split.
      * apply Hhalf. rewrite Pos2Z.inj_xO, mult_IZR. lra.
      * rewrite Pos2Z.inj_xO. apply (Z.div_unique _ 2 _ 0); lia.
    + split; [|reflexivity].
      apply Hhalf. lra.
Qed.

Lemma shr_iter (n : nat) :
  forall (mrs : shr_record) (x : R),
    0 <= shr_m mrs ->
    shr_value mrs x ->
    shr_value (Nat.iter n shr_1 mrs) (x / 2 ^ n) /\
    shr_m (Nat.iter n shr_1 mrs) = shr_m mrs / 2 ^ Z.of_nat n.
Proof.
  induction n as [|n IH]; intros mrs x Hm Hx.
  - cbn [Nat.iter]. split.
    + replace (x / 2 ^ 0)%R with x by (cbn; lra). assumption.
    + cbn. now rewrite Z.div_1_r.
  - rewrite Nat.iter_succ. destruct (IH mrs x Hm Hx) as [Hv Hmn].
    assert (Hm' : 0 <= shr_m (Nat.iter n shr_1 mrs)).
    { rewrite Hmn. apply Z.div_pos; [assumption|]. apply Z.pow_pos_nonneg; lia. }
    destruct (shr_1_spec _ _ Hm' Hv) as [Hv1 Hm1]. split.
    + replace (x / 2 ^ S n)%R with (x / 2 ^ n / 2)%R; [assumption|].
      cbn [pow]. field. apply pow_nonzero. lra.
    + rewrite Hm1, Hmn, Nat2Z.inj_succ, Z.pow_succ_r by lia.
      rewrite Z.div_div by (try apply Z.pow_pos_nonneg; lia).
      f_equal. lia.
Qed.

(** Rounding to nearest, ties to even, moves to one of the two neighbours
    and by at most half a unit. *)
Lemma round_nearest_even_spec (mrs : shr_record) (x : R) :
  shr_value mrs x ->
  let m2 := round_nearest_even (shr_m mrs) (loc_of_shr_record mrs) in
  shr_m mrs <= m2 <= shr_m mrs + 1 /\ (Rabs (IZR m2 - x) <= / 2)%R.
Proof.
  intros (eps & Hx & Heps). destruct mrs as [m r s]. cbn [shr_m shr_r shr_s] in *.
  destruct r, s; cbn [loc_of_shr_record round_nearest_even].
  - split; [lia|]. rewrite plus_IZR, Hx. apply Rabs_le. lra.
  - destruct (Z.even m); (split; [lia|]); rewrite ?plus_IZR, Hx; apply Rabs_le; lra.
  - split; [lia|]. rewrite Hx. apply Rabs_le. lra.
  - split; [lia|]. rewrite Hx. apply Rabs_le. lra.
Qed.

(** The rounding at the end of every operation.  For a mantissa [m] at
    exponent [e], with location [l], that stands for the number [x * 2^e],
    and an exponent not above the one the format prescribes for it, the
    result is the packing of a mantissa within half a unit in the last place
    of [x]. *)
Lemma binary_round_aux_spec (s : bool) (m e : Z) (l : location) (x : R) :
  0 <= m ->
  shr_value (shr_record_of_loc m l) x ->
  e <= fexp 24 128 (Zdigits2 m + e) ->
  exists m2 : Z,
    0 <= m2 <= 2 ^ 24 /\
    (-149 < fexp 24 128 (Zdigits2 m + e) -> 2 ^ 23 <= m2) /\
    (Rabs (IZR m2 - x / 2 ^ Z.to_nat (fexp 24 128 (Zdigits2 m + e) - e)) <= / 2)%R /\
    binary_round_aux 24 128 s m e l = round_pack s m2 (fexp 24 128 (Zdigits2 m + e)).
Proof.
  intros Hm Hx Hpre.
  set (E := fexp 24 128 (Zdigits2 m + e)) in *.
  assert (HE : E = Z.max (Zdigits2 m + e - 24) (-149)) by reflexivity.
  set (n := E - e).
  assert (Hn : 0 <= n) by lia.
  assert (Hm0 : shr_m (shr_record_of_loc m l) = m) by (destruct l as [|[]]; reflexivity).
  destruct (shr_iter (Z.to_nat n) (shr_record_of_loc m l) x) as [Hv Hmn]; [lia | assumption |].
  rewrite Hm0, Z2Nat.id in Hmn by assumption.
  set (mrs' := Nat.iter (Z.to_nat n) shr_1 (shr_record_of_loc m l)) in *.
  destruct (round_nearest_even_spec mrs' _ Hv) as [Hm2 Herr].
  set (m2 := round_nearest_even (shr_m mrs') (loc_of_shr_record mrs')) in *.
  assert (Hm'lo : 0 <= shr_m mrs').
  { rewrite Hmn. apply Z.div_pos; [lia | apply Z.pow_pos_nonneg; lia]. }
  assert (Hm'hi : shr_m mrs' < 2 ^ 24).
  { rewrite Hmn. apply Z.div_lt_upper_bound; [apply Z.pow_pos_nonneg; lia|].
    rewrite <- Z.pow_add_r by lia.
    destruct (Z.eq_dec m 0) as [->|Hne]; [apply Z.pow_pos_nonneg; lia|].
    destruct (Zdigits2_bounds m) as [_ Hlt]; [lia|].
    eapply Z.lt_le_trans; [exact Hlt|]. apply Z.pow_le_mono_r; lia. }
  assert (Hnormal : -149 < E -> 2 ^ 23 <= shr_m mrs').
  { intro HEgt.
    assert (Hne : m <> 0).
    { intros ->. change (Zdigits2 0) with 0 in HE. lia. }
    destruct (Zdigits2_bounds m) as [Hge _]; [lia|].
    rewrite Hmn. apply Z.div_le_lower_bound; [apply Z.pow_pos_nonneg; lia|].
    rewrite <- Z.pow_add_r by lia.
    replace (n + 23) with (Zdigits2 m - 1) by lia. assumption. }
  exists m2. split; [lia|]. split; [intro H; specialize (Hnormal H); lia|].
  split; [exact Herr|].
  unfold binary_round_aux, shr_fexp. fold E. fold n.
  rewrite shr_spec by assumption. fold mrs'. fold m2.
  replace (e + n) with E by lia.
  destruct (Z.eq_dec m2 (2 ^ 24)) as [Heq|Hneq].
  - rewrite Heq.
    assert (Hf : fexp 24 128 (Zdigits2 (2 ^ 24) + E) - E = 1).
    { change (Zdigits2 (2 ^ 24)) with 25. rewrite fexp32_eq. lia. }
    rewrite Hf. cbn [shr iter_pos shr_record_of_loc shr_1].
    unfold round_pack. rewrite Z.eqb_refl. reflexivity.
  - assert (Hf : fexp 24 128 (Zdigits2 m2 + E) - E <= 0).
    { pose proof (Zdigits2_le m2 24 ltac:(lia) ltac:(lia)). rewrite fexp32_eq. lia. }
    rewrite shr_nonpos by assumption.
    cbn [shr_record_of_loc shr_m]. unfold round_pack.
    apply Z.eqb_neq in Hneq. rewrite Hneq.
    destruct m2 as [|p|p]; [reflexivity | reflexivity | lia].
Qed.

(** Without any assumption, rounding returns a zero, a finite number or an
    infinity of the given sign, and a finite result has an exponent of the
    format. *)
Lemma shr_iter_nonneg (n : nat) (mrs : shr_record) :
  0 <= shr_m mrs -> 0 <= shr_m (Nat.iter n shr_1 mrs).
Proof.
  intro Hm. induction n as [|n IH]; [assumption|].
  rewrite Nat.iter_succ.
  destruct (Nat.iter n shr_1 mrs) as [m r s0]. cbn [shr_m] in IH.
  destruct m as [|[p|p|]|p]; cbn; lia.
Qed.

Lemma shr_nonneg (mrs : shr_record) (e n : Z) :
  0 <= shr_m mrs -> 0 <= shr_m (fst (shr mrs e n)).
Proof.
  intro Hm. destruct n as [|p|p]; cbn [shr fst]; try assumption.
  rewrite iter_pos_nat. now apply shr_iter_nonneg.
Qed.

Lemma shr_exponent (mrs : shr_record) (e n : Z) : snd (shr mrs e n) = Z.max e (e + n).
Proof. destruct n as [|p|p]; cbn [shr snd]; lia. Qed.

Lemma binary_round_aux_signed (s : bool) (m e : Z) (l : location) :
  0 <= m -> signed_number s (binary_round_aux 24 128 s m e l).
Proof.
  intro Hm. unfold binary_round_aux, shr_fexp.
  destruct (shr (shr_record_of_loc m l) e (fexp 24 128 (Zdigits2 m + e) - e))
    as [mrs' e'] eqn:E1.
  assert (Hm' : 0 <= shr_m mrs').
  { replace mrs' with (fst (shr (shr_record_of_loc m l) e (fexp 24 128 (Zdigits2 m + e) - e)))
      by now rewrite E1.
    apply shr_nonneg. destruct l as [|[]]; assumption. }
  set (m2 := round_nearest_even (shr_m mrs') (loc_of_shr_record mrs')).
  assert (Hm2 : 0 <= m2).
  { unfold m2. destruct (loc_of_shr_record mrs') as [|[]]; cbn [round_nearest_even];
      try destruct (Z.even (shr_m mrs')); lia. }
  destruct (shr (shr_record_of_loc m2 loc_Exact) e' (fexp 24 128 (Zdigits2 m2 + e') - e'))
    as [mrs'' e''] eqn:E2.
  assert (Hm'' : 0 <= shr_m mrs'').
  { replace mrs'' with (fst (shr (shr_record_of_loc m2 loc_Exact) e'
                                 (fexp 24 128 (Zdigits2 m2 + e') - e')))
      by now rewrite E2.
    apply shr_nonneg. assumption. }
  assert (He'' : -149 <= e'').
  { replace e'' with (snd (shr (shr_record_of_loc m2 loc_Exact) e'
                               (fexp 24 128 (Zdigits2 m2 + e') - e')))
      by now rewrite E2.
    rewrite shr_exponent, fexp32_eq. lia. }
  destruct (shr_m mrs'') as [|p|p]; [reflexivity | | lia].
  match goal with |- context [if ?c then _ else _] => destruct c end;
    cbn; [split; [reflexivity | assumption] | reflexivity].
Qed.

(** ** Powers of two as real numbers *)

Lemma bpow_pos (e : Z) : (0 < powerRZ 2 e)%R.
Proof. apply powerRZ_lt. lra. Qed.

Lemma bpow_add (a b : Z) : powerRZ 2 (a + b) = (powerRZ 2 a * powerRZ 2 b)%R.
Proof. apply powerRZ_add. lra. Qed.

Lemma bpow_IZR (k : Z) : 0 <= k -> IZR (2 ^ k) = powerRZ 2 k.
Proof.
  intro Hk. destruct k as [|p|p]; [reflexivity | | lia].
  change (2 ^ Zpos p) with (Z.pow_pos 2 p). apply Zpower_pos_powerRZ.
Qed.

Lemma bpow_le (a b : Z) : a <= b -> (powerRZ 2 a <= powerRZ 2 b)%R.
Proof.
  intro H. replace b with (a + (b - a)) by lia. rewrite bpow_add.
  rewrite <- (bpow_IZR (b - a)) by lia.
  assert (1 <= IZR (2 ^ (b - a)))%R.
  { apply IZR_le. pose proof (Z.pow_pos_nonneg 2 (b - a)). lia. }
  pose proof (bpow_pos a). nra.
Qed.

Lemma bpow_lt (a b : Z) : a < b -> (powerRZ 2 a < powerRZ 2 b)%R.
Proof.
  intro H. replace b with (a + (b - a)) by lia. rewrite bpow_add.
  rewrite <- (bpow_IZR (b - a)) by lia.
  assert (2 <= IZR (2 ^ (b - a)))%R.
  { apply IZR_le. replace (b - a) with (Z.succ (b - a - 1)) by lia.
    rewrite Z.pow_succ_r by lia. pose proof (Z.pow_pos_nonneg 2 (b - a - 1)). lia. }
  pose proof (bpow_pos a). nra.
Qed.

Lemma bpow_nat (n : nat) : (2 ^ n)%R = powerRZ 2 (Z.of_nat n).
Proof. apply pow_powerRZ. Qed.

Lemma bpow_div (x : R) (a b : Z) :
  a <= b -> (x / 2 ^ Z.to_nat (b - a) * powerRZ 2 b = x * powerRZ 2 a)%R.
Proof.
  intro H. rewrite bpow_nat, Z2Nat.id by lia.
  replace b with (a + (b - a)) at 2 by lia. rewrite bpow_add.
  pose proof (bpow_pos (b - a)). field. lra.
Qed.

Lemma Rabs_le_inv (x a : R) : (Rabs x <= a -> - a <= x <= a)%R.
Proof. unfold Rabs. destruct (Rcase_abs x); lra. Qed.

Lemma IZR_half_eq (a b : Z) : (Rabs (IZR a - IZR b) <= / 2)%R -> a = b.
Proof.
  intro H. apply Rabs_le_inv in H.
  destruct (Z.lt_total a b) as [Hlt|[Heq|Hgt]]; [|assumption|].
  - assert (IZR a + 1 <= IZR b)%R by (rewrite <- plus_IZR; apply IZR_le; lia). lra.
  - assert (IZR b + 1 <= IZR a)%R by (rewrite <- plus_IZR; apply IZR_le; lia). lra.
Qed.

(** ** The float that rounding packs *)

Lemma round_pack_cases (s : bool) (m2 E : Z) :
  0 < m2 -> -149 <= E ->
  (exists p e, round_pack s m2 E = S754_finite s p e /\ -149 <= e) \/
  round_pack s m2 E = S754_infinity s.
Proof.
  intros Hm HE. unfold round_pack.
  destruct (m2 =? 2 ^ 24).
  - destruct (E + 1 <=? 104); [left|now right]. do 2 eexists. split; [reflexivity|lia].
  - destruct m2 as [|p|p]; try lia.
    destruct (E <=? 104); [left|now right]. do 2 eexists. split; [reflexivity|lia].
Qed.

Lemma round_pack_real (s : bool) (m2 E : Z) :
  0 <= m2 <= 2 ^ 24 ->
  (-149 < E -> 2 ^ 23 <= m2) ->
  -149 <= E ->
  (IZR m2 * powerRZ 2 E < powerRZ 2 128)%R ->
  signed_number s (round_pack s m2 E) /\
  f32_is_finite (round_pack s m2 E) = true /\
  f32_real (round_pack s m2 E) = (sign_factor s * IZR m2 * powerRZ 2 E)%R.
Proof.
  intros Hm Hnormal HE Hlt. unfold round_pack.
  destruct (Z.eqb_spec m2 (2 ^ 24)) as [Heq|Hneq].
  - subst m2.
    assert (HE1 : E + 1 <= 104).
    { destruct (Z.le_gt_cases (E + 1) 104) as [|Hgt]; [assumption|].
      rewrite bpow_IZR, <- bpow_add in Hlt by lia.
      pose proof (bpow_le 128 (24 + E) ltac:(lia)). lra. }
    apply Z.leb_le in HE1. rewrite HE1. cbn [signed_number f32_is_finite f32_real].
    split; [split; [reflexivity|lia]|]. split; [reflexivity|].
    unfold sign_factor. rewrite bpow_add.
    change (IZR (Z.pos (2 ^ 23))) with (IZR (2 ^ 23)).
    rewrite !bpow_IZR by lia.
    change (powerRZ 2 1) with (2 * 1)%R.
    change (powerRZ 2 24) with (2 * powerRZ 2 23)%R. destruct s; ring.
  - destruct m2 as [|p|p]; [| |lia].
    + cbn [signed_number f32_is_finite f32_real]. repeat split. ring.
    + assert (HE1 : E <= 104).
      { destruct (Z.le_gt_cases E 104) as [|Hgt]; [assumption|].
        assert (H23 : (IZR (2 ^ 23) <= IZR (Zpos p))%R) by (apply IZR_le; apply Hnormal; lia).
        rewrite bpow_IZR in H23 by lia.
        pose proof (bpow_le 105 E ltac:(lia)) as H105.
        pose proof (bpow_pos E). pose proof (bpow_pos 23).
        assert (powerRZ 2 128 = powerRZ 2 23 * powerRZ 2 105)%R by (rewrite <- bpow_add; reflexivity).
        nra. }
      apply Z.leb_le in HE1. rewrite HE1. cbn [signed_number f32_is_finite f32_real].
      split; [split; [reflexivity|lia]|]. split; reflexivity.
Qed.

(** ** Alignment *)

Lemma Pos_iter_xO (m d : positive) : Zpos (Pos.iter xO m d) = Zpos m * 2 ^ Zpos d.
Proof.
  induction d as [|d IH] using Pos.peano_ind.
  - cbn. lia.
  - rewrite Pos.iter_succ, Pos2Z.inj_xO, IH, Pos2Z.inj_succ, Z.pow_succ_r by lia. lia.
Qed.

Lemma shl_align_spec (mx : positive) (ex ez : Z) :
  snd (shl_align mx ex ez) = Z.min ex ez /\
  Zpos (fst (shl_align mx ex ez)) = Zpos mx * 2 ^ (ex - Z.min ex ez).
Proof.
  unfold shl_align. destruct (ez - ex) as [|d|d] eqn:E; cbn [fst snd].
  - replace (Z.min ex ez) with ex by lia. rewrite Z.sub_diag. lia.
  - replace (Z.min ex ez) with ex by lia. rewrite Z.sub_diag. lia.
  - replace (Z.min ex ez) with ez by lia. rewrite Pos_iter_xO.
    replace (ex - ez) with (Zpos d) by lia. lia.
Qed.

Lemma Zdigits2_unique (m d : Z) : 0 < d -> 2 ^ (d - 1) <= m < 2 ^ d -> Zdigits2 m = d.
Proof.
  intros Hd [Hlo Hhi].
  pose proof (Zdigits2_gt m (d - 1) ltac:(lia) Hlo).
  assert (0 <= m) by (pose proof (Z.pow_pos_nonneg 2 (d - 1)); lia).
  pose proof (Zdigits2_le m d ltac:(lia) ltac:(lia)). lia.
Qed.

Lemma Zdigits2_shift (m : positive) (k : Z) :
  0 <= k -> Zdigits2 (Zpos m * 2 ^ k) = Zdigits2 (Zpos m) + k.
Proof.
  intro Hk. destruct (Zdigits2_bounds (Zpos m)) as [Hlo Hhi]; [lia|].
  assert (0 < Zdigits2 (Zpos m)) by (cbn; lia).
  apply Zdigits2_unique; [lia|].
  replace (Zdigits2 (Zpos m) + k - 1) with (Zdigits2 (Zpos m) - 1 + k) by lia.
  rewrite !Z.pow_add_r by lia.
  pose proof (Z.pow_pos_nonneg 2 k). nia.
Qed.

(** ** Rounding a positive integer multiple of a power of two *)

Lemma binary_round_spec (s : bool) (mx : positive) (ex : Z) :
  -149 <= ex ->
  exists m2 E : Z,
    0 < m2 <= 2 ^ 24 /\
    (-149 < E -> 2 ^ 23 <= m2) /\
    -149 <= E /\
    binary_round 24 128 s mx ex = round_pack s m2 E /\
    (Rabs (IZR m2 * powerRZ 2 E - IZR (Zpos mx) * powerRZ 2 ex)
     <= / 16777216 * (IZR (Zpos mx) * powerRZ 2 ex))%R.
Proof.
  intro Hex. unfold binary_round.
  set (E := fexp 24 128 (Zpos (digits2_pos mx) + ex)).
  assert (HE : E = Z.max (Zdigits2 (Zpos mx) + ex - 24) (-149)) by reflexivity.
  destruct (shl_align_spec mx ex E) as [Hez Hmz].
  destruct (shl_align mx ex E) as [mz ez]. cbn [fst snd] in Hez, Hmz.
  assert (Hdig : Zdigits2 (Zpos mz) + ez = Zdigits2 (Zpos mx) + ex).
  { rewrite Hmz, Zdigits2_shift by lia. lia. }
  assert (HE' : fexp 24 128 (Zdigits2 (Zpos mz) + ez) = E).
  { rewrite Hdig. reflexivity. }
  destruct (binary_round_aux_spec s (Zpos mz) ez loc_Exact (IZR (Zpos mz)))
    as (m2 & Hm2 & Hnormal & Herr & Hres).
  - lia.
  - exists 0%R. cbn [shr_record_of_loc shr_m shr_r shr_s]. split; [lra|reflexivity].
  - rewrite HE'. lia.
  - rewrite HE' in *.
    assert (Hval : (IZR (Zpos mz) * powerRZ 2 ez = IZR (Zpos mx) * powerRZ 2 ex)%R).
    { rewrite Hmz, mult_IZR, bpow_IZR by lia.
      rewrite Rmult_assoc, <- bpow_add. f_equal. f_equal. lia. }
    set (v := (IZR (Zpos mx) * powerRZ 2 ex)%R) in *.
    assert (Hvpos : (0 < v)%R).
    { unfold v. apply Rmult_lt_0_compat; [apply IZR_lt; lia | apply bpow_pos]. }
    assert (Hdiff : (IZR m2 * powerRZ 2 E - v
                     = (IZR m2 - IZR (Zpos mz) / 2 ^ Z.to_nat (E - ez)) * powerRZ 2 E)%R).
    { rewrite Rmult_minus_distr_r, bpow_div by lia. rewrite Hval. reflexivity. }
    destruct (Z.eq_dec ez E) as [Heq|Hneq].
    + (* nothing is shifted out: the result is exact *)
      assert (Hm2eq : m2 = Zpos mz).
      { apply IZR_half_eq. rewrite Heq, Z.sub_diag in Herr. cbn in Herr.
        replace (IZR (Zpos mz) / 1)%R with (IZR (Zpos mz)) in Herr by field. exact Herr. }
      exists m2, E. split; [lia|]. split; [assumption|]. split; [lia|].
      split; [exact Hres|].
      rewrite Hm2eq. rewrite <- Heq, Hval. unfold Rminus. rewrite Rplus_opp_r, Rabs_R0.
      lra.
    + assert (HEn : E = Zdigits2 (Zpos mx) + ex - 24) by lia.
      assert (Hgt : -149 < E) by lia.
      exists m2, E. split; [specialize (Hnormal Hgt); lia|].
      split; [assumption|]. split; [lia|]. split; [exact Hres|].
      rewrite Hdiff, Rabs_mult, (Rabs_pos_eq (powerRZ 2 E)) by (apply Rlt_le, bpow_pos).
      assert (Hvlo : (powerRZ 2 (E + 23) <= v)%R).
      { unfold v. destruct (Zdigits2_bounds (Zpos mx)) as [Hlo _]; [lia|].
        assert (Hdpos : 0 < Zdigits2 (Zpos mx)) by (cbn; lia).
        apply IZR_le in Hlo. rewrite bpow_IZR in Hlo by lia.
        replace (E + 23) with ((Zdigits2 (Zpos mx) - 1) + ex) by lia.
        rewrite bpow_add. pose proof (bpow_pos ex). nra. }
      rewrite bpow_add, <- (bpow_IZR 23) in Hvlo by lia.
      change (IZR (2 ^ 23)) with 8388608%R in Hvlo.
      pose proof (bpow_pos E) as HP.
      apply (Rmult_le_compat_r (powerRZ 2 E)) in Herr; [|lra].
      lra.
Qed.

Lemma f32_real_nonneg (x : float32) : nonneg_finite x -> (0 <= f32_real x)%R.
Proof.
  destruct x as [s|s| |s m e]; cbn; try lra. destruct s; [tauto|]. intros _.
  pose proof (bpow_pos e). assert (0 < IZR (Zpos m))%R by (apply IZR_lt; lia). nra.
Qed.

(** The sum of two positive finite numbers, before rounding. *)
Lemma aligned_sum (ma mb : positive) (ea eb : Z) :
  let ez := Z.min ea eb in
  (IZR (Zpos (fst (shl_align ma ea ez) + fst (shl_align mb eb ez))) * powerRZ 2 ez
   = IZR (Zpos ma) * powerRZ 2 ea + IZR (Zpos mb) * powerRZ 2 eb)%R.
Proof.
  intro ez.
  destruct (shl_align_spec ma ea ez) as [_ Ha]. destruct (shl_align_spec mb eb ez) as [_ Hb].
  rewrite Pos2Z.inj_add, plus_IZR, Ha, Hb, !mult_IZR.
  replace (Z.min ea ez) with ez by lia. replace (Z.min eb ez) with ez by lia.
  rewrite !bpow_IZR by lia.
  rewrite Rmult_plus_distr_r, !Rmult_assoc, <- !bpow_add.
  replace (ea - ez + ez) with ea by lia. replace (eb - ez + ez) with eb by lia. reflexivity.
Qed.

Lemma f32_add_finite_finite (ma mb : positive) (ea eb : Z) :
  f32_add (S754_finite false ma ea) (S754_finite false mb eb)
  = binary_round 24 128 false
      (fst (shl_align ma ea (Z.min ea eb)) + fst (shl_align mb eb (Z.min ea eb)))
      (Z.min ea eb).
Proof. reflexivity. Qed.

(** Adding two non-negative numbers gives a non-negative number, and a
    positive one when one of the two is positive. *)
Lemma f32_add_positive (a b : float32) :
  nonneg_number a -> nonneg_number b ->
  nonneg_number (f32_add a b) /\
  (positive_number a \/ positive_number b -> positive_number (f32_add a b)).
Proof.
  intros Ha Hb.
  destruct a as [sa|[|]| |[|] ma ea]; try contradiction;
    destruct b as [sb|[|]| |[|] mb eb]; try contradiction;
    try (cbn; tauto).
  - destruct sa, sb; cbn; tauto.
  - cbn in Ha, Hb. rewrite f32_add_finite_finite.
    destruct (binary_round_spec false
                (fst (shl_align ma ea (Z.min ea eb)) + fst (shl_align mb eb (Z.min ea eb)))
                (Z.min ea eb)) as (m2 & E & Hm2 & _ & HE & Hres & _); [lia|].
    rewrite Hres.
    destruct (round_pack_cases false m2 E) as [(p & e & -> & He)| ->]; try lia; cbn; tauto.
Qed.

(** The sum of two non-negative finite numbers that does not overflow is
    the exact sum up to a relative error of [2^-24]. *)
Lemma f32_add_real (a b : float32) :
  nonneg_finite a -> nonneg_finite b ->
  (f32_real a + f32_real b < powerRZ 2 127)%R ->
  nonneg_finite (f32_add a b) /\
  (Rabs (f32_real (f32_add a b) - (f32_real a + f32_real b))
   <= / 16777216 * (f32_real a + f32_real b))%R.
Proof.
  intros Ha Hb Hlt.
  destruct a as [sa|[|]| |[|] ma ea]; try contradiction;
    destruct b as [sb|[|]| |[|] mb eb]; try contradiction.
  - split; [destruct sa, sb; exact I|].
    replace (f32_real (f32_add (S754_zero sa) (S754_zero sb))) with 0%R
      by (destruct sa, sb; reflexivity).
    cbn [f32_real]. rewrite Rplus_0_r, Rminus_0_r, Rabs_R0. lra.
  - split; [exact Hb|]. change (f32_add (S754_zero sa) (S754_finite false mb eb))
      with (S754_finite false mb eb).
    pose proof (f32_real_nonneg _ Hb). cbn [f32_real] in *.
    rewrite Rplus_0_l. unfold Rminus. rewrite Rplus_opp_r, Rabs_R0. lra.
  - split; [exact Ha|]. change (f32_add (S754_finite false ma ea) (S754_zero sb))
      with (S754_finite false ma ea).
    pose proof (f32_real_nonneg _ Ha). cbn [f32_real] in *.
    rewrite Rplus_0_r. unfold Rminus. rewrite Rplus_opp_r, Rabs_R0. lra.
  - cbn in Ha, Hb. rewrite f32_add_finite_finite.
    destruct (binary_round_spec false
                (fst (shl_align ma ea (Z.min ea eb)) + fst (shl_align mb eb (Z.min ea eb)))
                (Z.min ea eb)) as (m2 & E & Hm2 & Hnormal & HE & Hres & Herr); [lia|].
    rewrite (aligned_sum ma mb ea eb) in Herr.
    cbn [f32_real] in Hlt |- *. rewrite !Rmult_1_l in Hlt |- *.
    set (v := (IZR (Zpos ma) * powerRZ 2 ea + IZR (Zpos mb) * powerRZ 2 eb)%R) in *.
    assert (Hv : (0 < v)%R).
    { unfold v. pose proof (bpow_pos ea). pose proof (bpow_pos eb).
      assert (0 < IZR (Zpos ma))%R by (apply IZR_lt; lia).
      assert (0 < IZR (Zpos mb))%R by (apply IZR_lt; lia). nra. }
    destruct (round_pack_real false m2 E) as (Hsig & Hfin & Hreal); try assumption; try lia.
    { apply Rabs_le_inv in Herr.
      assert (powerRZ 2 128 = 2 * powerRZ 2 127)%R
        by (replace 128 with (1 + 127) by lia; rewrite bpow_add;
            change (powerRZ 2 1) with (2 * 1)%R; ring).
      lra. }
    rewrite Hres, Hreal. unfold sign_factor. rewrite Rmult_1_l. split; [|exact Herr].
    destruct (round_pack false m2 E) as [s|s| |s m e]; cbn in Hsig, Hfin |- *;
      try discriminate; try tauto.
    destruct Hsig as [-> He]. exact He.
Qed.

(** ** Division *)

(** The location that the division computes from the remainder. *)
Lemma new_location_spec (nb k q : Z) :
  0 < nb -> 0 <= k < nb ->
  shr_value (shr_record_of_loc q (new_location nb k)) (IZR q + IZR k / IZR nb).
Proof.
  intros Hnb Hk.
  assert (HN : (0 < IZR nb)%R) by (apply IZR_lt; lia).
  set (y := (IZR k / IZR nb)%R).
  assert (Hy : (y * IZR nb = IZR k)%R) by (unfold y; field; lra).
  assert (Hy0 : k = 0 -> y = 0%R) by (intros ->; unfold y, Rdiv; ring).
  clearbody y.
  assert (Hcmp : forall c : R,
             ((c * IZR nb < IZR k -> c < y) /\ (IZR k < c * IZR nb -> y < c))%R).
  { intro c. split; intro H; apply (Rmult_lt_reg_r (IZR nb)); lra. }
  assert (Hloc : forall c : comparison,
             (k =? 0) = false -> Z.compare (2 * k) nb = c ->
             shr_value (shr_record_of_loc q (loc_Inexact c)) (IZR q + y)).
  { intros c Hk0 Hc. apply Z.eqb_neq in Hk0.
    assert (HK : (1 <= IZR k)%R) by (apply IZR_le; lia).
    destruct c; cbn [shr_record_of_loc].
    - apply Z.compare_eq in Hc. exists 0%R. cbn [shr_m shr_r shr_s]. split; [|reflexivity].
      assert (2 * IZR k = IZR nb)%R by (rewrite <- mult_IZR; now f_equal).
      assert (y = / 2)%R by (apply (Rmult_eq_reg_r (IZR nb)); [lra | apply Rgt_not_eq; lra]). lra.
    - apply (proj1 (Z.compare_lt_iff _ _)) in Hc. exists y. cbn [shr_m shr_r shr_s]. split; [lra|].
      assert (2 * IZR k + 1 <= IZR nb)%R
        by (rewrite <- mult_IZR, <- plus_IZR; apply IZR_le; lia).
      split; [apply (Hcmp 0%R) | apply (Hcmp (/ 2)%R)]; lra.
    - apply (proj1 (Z.compare_gt_iff _ _)) in Hc. exists (y - / 2)%R. cbn [shr_m shr_r shr_s].
      split; [lra|].
      assert (IZR nb + 1 <= 2 * IZR k)%R
        by (rewrite <- mult_IZR, <- plus_IZR; apply IZR_le; lia).
      assert (IZR k + 1 <= IZR nb)%R by (rewrite <- plus_IZR; apply IZR_le; lia).
      assert (/ 2 < y)%R by (apply (Hcmp (/ 2)%R); lra).
      assert (y < 1)%R by (apply (Hcmp 1%R); lra). lra. }
  assert (Hzero : (k =? 0) = true -> shr_value (shr_record_of_loc q loc_Exact) (IZR q + y)).
  { intro Hk0. apply Z.eqb_eq in Hk0. exists 0%R. cbn [shr_record_of_loc shr_m shr_r shr_s].
    split; [|reflexivity]. rewrite (Hy0 Hk0). lra. }
  unfold new_location. destruct (Z.even nb) eqn:Ev.
  - unfold new_location_even. destruct (k =? 0) eqn:Hk0; [now apply Hzero|].
    apply Hloc; reflexivity.
  - unfold new_location_odd. destruct (k =? 0) eqn:Hk0; [now apply Hzero|].
    assert (Hodd : 2 * k <> nb).
    { intro H. rewrite <- H, Z.even_mul in Ev. discriminate. }
    destruct (Z.compare_spec (2 * k + 1) nb) as [Hc|Hc|Hc];
      (apply Hloc; [reflexivity|]).
    + apply (proj2 (Z.compare_lt_iff _ _)). lia.
    + apply (proj2 (Z.compare_lt_iff _ _)). lia.
    + apply (proj2 (Z.compare_gt_iff _ _)). lia.
Qed.

Lemma f32_div_finite_finite (sa sb : bool) (ma mb : positive) (ea eb : Z) :
  let e' := Z.min (fexp 24 128 (Zdigits2 (Zpos ma) + ea - (Zdigits2 (Zpos mb) + eb)))
                  (ea - eb) in
  let m' := Zpos ma * 2 ^ (ea - eb - e') in
  f32_div (S754_finite sa ma ea) (S754_finite sb mb eb)
  = binary_round_aux 24 128 (xorb sa sb) (m' / Zpos mb) e'
      (new_location (Zpos mb) (m' mod Zpos mb)).
Proof.
  intros e' m'. unfold f32_div, SFdiv, SFdiv_core_binary. fold e'.
  assert (Hs : 0 <= ea - eb - e') by (unfold e'; lia).
  assert (Hm' : match ea - eb - e' with
                | Z0 => Zpos ma
                | Zpos _ => Z.shiftl (Zpos ma) (ea - eb - e')
                | Zneg _ => 0
                end = m').
  { unfold m'. destruct (ea - eb - e') as [|p|p] eqn:E; [cbn; lia | | lia].
    rewrite Z.shiftl_mul_pow2 by lia. reflexivity. }
  rewrite Hm'. unfold Z.div, Z.modulo.
  destruct (Z.div_eucl m' (Zpos mb)) as [q r]. reflexivity.
Qed.

Lemma fexp32_mono (a b : Z) : a <= b -> fexp 24 128 a <= fexp 24 128 b.
Proof. intro H. rewrite !fexp32_eq. lia. Qed.

(** The quotient of a non-negative finite number by a positive finite one,
    when it does not overflow, is the exact quotient up to a relative error
    of [2^-24] and an absolute error of [2^-150]. *)
Lemma f32_div_real (a : float32) (mb : positive) (eb : Z) :
  nonneg_finite a ->
  let b := S754_finite false mb eb in
  (f32_real a / f32_real b < powerRZ 2 127)%R ->
  nonneg_finite (f32_div a b) /\
  (Rabs (f32_real (f32_div a b) - f32_real a / f32_real b)
   <= / 16777216 * (f32_real a / f32_real b) + powerRZ 2 (-150))%R.
Proof.
  intros Ha b Hlt.
  assert (Hbpos : (0 < f32_real b)%R).
  { cbn. pose proof (bpow_pos eb). assert (0 < IZR (Zpos mb))%R by (apply IZR_lt; lia). nra. }
  destruct a as [sa|[|]| |[|] ma ea]; try contradiction.
  - split; [exact I|]. change (f32_div (S754_zero sa) b) with (S754_zero (xorb sa false)).
    cbn [f32_real]. unfold Rdiv. rewrite Rmult_0_l, Rminus_0_r, Rabs_R0, Rmult_0_r.
    pose proof (bpow_pos (-150)). lra.
  - cbn in Ha. unfold b in *. rewrite f32_div_finite_finite. cbn [xorb].
    set (d1 := Zdigits2 (Zpos ma)). set (d2 := Zdigits2 (Zpos mb)).
    set (e' := Z.min (fexp 24 128 (d1 + ea - (d2 + eb))) (ea - eb)).
    set (s := ea - eb - e'). set (m' := Zpos ma * 2 ^ s).
    assert (Hs : 0 <= s) by (unfold s, e'; lia).
    assert (Hm'pos : 0 < m') by (unfold m'; pose proof (Z.pow_pos_nonneg 2 s); nia).
    set (q := m' / Zpos mb). set (r := m' mod Zpos mb).
    assert (Hqr : m' = Zpos mb * q + r) by (apply Z.div_mod; lia).
    assert (Hr : 0 <= r < Zpos mb) by (apply Z.mod_pos_bound; lia).
    assert (Hq : 0 <= q) by (apply Z.div_pos; lia).
    assert (Hd1 : 0 < d1) by (unfold d1; cbn; lia).
    assert (Hd2 : 0 < d2) by (unfold d2; cbn; lia).
    destruct (Zdigits2_bounds (Zpos ma)) as [Hma _]; [lia|]. fold d1 in Hma.
    destruct (Zdigits2_bounds (Zpos mb)) as [_ Hmb]; [lia|]. fold d2 in Hmb.
    assert (Hdq : d1 - d2 + s <= Zdigits2 q).
    { destruct (Z.le_gt_cases (d1 - d2 + s) 0) as [|Hgt];
        [pose proof (Zdigits2_nonneg q); lia|].
      assert (2 ^ (d1 + s - d2 - 1) <= q).
      { apply Z.div_le_lower_bound; [lia|].
        assert (Zpos mb * 2 ^ (d1 + s - d2 - 1) <= 2 ^ d2 * 2 ^ (d1 + s - d2 - 1)).
        { apply Z.mul_le_mono_nonneg_r; [apply Z.pow_nonneg|]; lia. }
        rewrite <- Z.pow_add_r in H by lia.
        replace (d2 + (d1 + s - d2 - 1)) with (d1 - 1 + s) in H by lia.
        rewrite Z.pow_add_r in H by lia.
        unfold m'. pose proof (Z.pow_pos_nonneg 2 s). nia. }
      pose proof (Zdigits2_gt q (d1 + s - d2 - 1) ltac:(lia) H). lia. }
    set (E := fexp 24 128 (Zdigits2 q + e')).
    assert (Hpre : e' <= E).
    { unfold E. pose proof (fexp32_mono (d1 + ea - (d2 + eb)) (Zdigits2 q + e')).
      unfold e' at 1. unfold s in Hdq. lia. }
    assert (HEdef : E = Z.max (Zdigits2 q + e' - 24) (-149)) by reflexivity.
    set (x := (IZR q + IZR r / IZR (Zpos mb))%R).
    destruct (binary_round_aux_spec false q e' (new_location (Zpos mb) r) x)
      as (m2 & Hm2 & Hnormal & Herr & Hres); try assumption.
    { apply new_location_spec; lia. }
    fold E in Hnormal, Herr, Hres.
    (* the exact quotient *)
    assert (HMB : (0 < IZR (Zpos mb))%R) by (apply IZR_lt; lia).
    assert (Hx : (x = IZR m' / IZR (Zpos mb))%R).
    { unfold x. rewrite Hqr, plus_IZR, mult_IZR. field. lra. }
    assert (HQ : (f32_real (S754_finite false ma ea) / f32_real (S754_finite false mb eb)
                  = x * powerRZ 2 e')%R).
    { rewrite Hx. unfold m'. cbn [f32_real]. rewrite mult_IZR, bpow_IZR by assumption.
      replace ea with (s + e' + eb) at 1 by (unfold s; lia).
      rewrite !bpow_add. pose proof (bpow_pos eb). field. lra. }
    rewrite HQ in *.
    set (Q := (x * powerRZ 2 e')%R) in *.
    assert (Hxq : (IZR q <= x)%R).
    { unfold x. assert (0 <= IZR r / IZR (Zpos mb))%R; [|lra].
      apply Rmult_le_pos; [apply IZR_le; lia | apply Rlt_le, Rinv_0_lt_compat; lra]. }
    assert (HQ0 : (0 <= Q)%R).
    { unfold Q. pose proof (bpow_pos e'). assert (0 <= IZR q)%R by (apply IZR_le; lia). nra. }
    assert (Hdiff : (IZR m2 * powerRZ 2 E - Q
                     = (IZR m2 - x / 2 ^ Z.to_nat (E - e')) * powerRZ 2 E)%R).
    { unfold Q. rewrite Rmult_minus_distr_r, bpow_div by lia. reflexivity. }
    assert (Habs : (Rabs (IZR m2 * powerRZ 2 E - Q) <= / 2 * powerRZ 2 E)%R).
    { rewrite Hdiff, Rabs_mult, (Rabs_pos_eq (powerRZ 2 E)) by (apply Rlt_le, bpow_pos).
      apply Rmult_le_compat_r; [apply Rlt_le, bpow_pos | exact Herr]. }
    assert (Hbound : (/ 2 * powerRZ 2 E <= / 16777216 * Q + powerRZ 2 (-150))%R).
    { destruct (Z.eq_dec E (-149)) as [->|HEne].
      - replace (-149) with (1 + -150) by lia. rewrite bpow_add.
        change (powerRZ 2 1) with (2 * 1)%R. pose proof (bpow_pos (-150)). lra.
      - assert (HEn : E = Zdigits2 q + e' - 24) by lia.
        assert (Hq0 : 0 < q).
        { destruct (Z.eq_dec q 0) as [Hz|]; [|lia].
          rewrite Hz in HEn, HEdef. change (Zdigits2 0) with 0 in *. lia. }
        destruct (Zdigits2_bounds q Hq0) as [Hqlo _].
        assert (Hdq0 : 0 < Zdigits2 q) by (destruct q; cbn; lia).
        apply IZR_le in Hqlo. rewrite bpow_IZR in Hqlo by lia.
        assert (HQlo : (powerRZ 2 (E + 23) <= Q)%R).
        { unfold Q. replace (E + 23) with ((Zdigits2 q - 1) + e') by lia.
          rewrite bpow_add. pose proof (bpow_pos e'). nra. }
        rewrite bpow_add, <- (bpow_IZR 23) in HQlo by lia.
        change (IZR (2 ^ 23)) with 8388608%R in HQlo.
        pose proof (bpow_pos E). pose proof (bpow_pos (-150)). lra. }
    assert (Hno_overflow : (IZR m2 * powerRZ 2 E < powerRZ 2 128)%R).
    { destruct (Z.eq_dec E (-149)) as [HEeq|HEne].
      - rewrite HEeq.
        assert (IZR m2 <= IZR (2 ^ 24))%R by (apply IZR_le; lia).
        rewrite bpow_IZR in H by lia.
        pose proof (bpow_pos (-149)).
        assert (powerRZ 2 24 * powerRZ 2 (-149) < powerRZ 2 128)%R
          by (rewrite <- bpow_add; apply bpow_lt; lia).
        nra.
      - assert (HEn : E = Zdigits2 q + e' - 24) by lia.
        assert (Hq0 : 0 < q).
        { destruct (Z.eq_dec q 0) as [Hz|]; [|lia].
          rewrite Hz in HEn, HEdef. change (Zdigits2 0) with 0 in *. lia. }
        destruct (Zdigits2_bounds q Hq0) as [Hqlo _].
        assert (Hdq0 : 0 < Zdigits2 q) by (destruct q; cbn; lia).
        apply IZR_le in Hqlo. rewrite bpow_IZR in Hqlo by lia.
        assert (HQlo : (powerRZ 2 (E + 23) <= Q)%R).
        { unfold Q. replace (E + 23) with ((Zdigits2 q - 1) + e') by lia.
          rewrite bpow_add. pose proof (bpow_pos e'). nra. }
        rewrite bpow_add, <- (bpow_IZR 23) in HQlo by lia.
        change (IZR (2 ^ 23)) with 8388608%R in HQlo.
        apply Rabs_le_inv in Habs.
        assert (powerRZ 2 128 = 2 * powerRZ 2 127)%R
          by (replace 128 with (1 + 127) by lia; rewrite bpow_add;
              change (powerRZ 2 1) with (2 * 1)%R; ring).
        pose proof (bpow_pos E). lra. }
    destruct (round_pack_real false m2 E) as (Hsig & Hfin & Hreal); try assumption; try lia.
    rewrite Hres, Hreal. unfold sign_factor. rewrite Rmult_1_l. split.
    + destruct (round_pack false m2 E) as [s0|s0| |s0 m0 e0]; cbn in Hsig, Hfin |- *;
        try discriminate; try tauto.
      destruct Hsig as [-> He]. exact He.
    + lra.
Qed.

Lemma ranged_env_conforms : expf_conforms ranged_env.
Proof.
  unfold expf_conforms, ranged_env. cbn [expf]. split; [|split; [split|split]].
  - intros [|]; vm_compute; reflexivity.
  - unfold ranged_expf. rewrite H.
    destruct (f32_ltb x (f32_of_Z (-104))); [reflexivity|].
    destruct (valid_binary 24 128 (sample_expf x)) eqn:V; [|reflexivity].
    destruct (SFleb f32_zero (sample_expf x)) eqn:L; [|reflexivity].
    cbn [andb]. destruct (negb (SFleb x f32_zero) || SFleb (sample_expf x) f32_one);
      [assumption | reflexivity].
  - unfold ranged_expf. rewrite H.
    destruct (f32_ltb x (f32_of_Z (-104))); [reflexivity|].
    destruct (valid_binary 24 128 (sample_expf x)) eqn:V; [|reflexivity].
    destruct (SFleb f32_zero (sample_expf x)) eqn:L; [|reflexivity].
    cbn [andb]. destruct (negb (SFleb x f32_zero) || SFleb (sample_expf x) f32_one);
      [assumption | reflexivity].
  - intros x Hx. unfold ranged_expf.
    destruct x as [s|s| |s m e]; try discriminate Hx.
    + cbn [f32_is_nan]. destruct (f32_ltb (S754_zero s) (f32_of_Z (-104))); [reflexivity|].
      rewrite Hx. cbn [negb orb].
      destruct (valid_binary 24 128 (sample_expf (S754_zero s)) && SFleb f32_zero (sample_expf (S754_zero s))) eqn:A;
        cbn [andb]; [|reflexivity].
      destruct (SFleb (sample_expf (S754_zero s)) f32_one) eqn:B; [assumption|reflexivity].
    + cbn [f32_is_nan]. destruct (f32_ltb (S754_infinity s) (f32_of_Z (-104))); [reflexivity|].
      rewrite Hx. cbn [negb orb].
      destruct (valid_binary 24 128 (sample_expf (S754_infinity s)) && SFleb f32_zero (sample_expf (S754_infinity s))) eqn:A;
        cbn [andb]; [|reflexivity].
      destruct (SFleb (sample_expf (S754_infinity s)) f32_one) eqn:B; [assumption|reflexivity].
    + cbn [f32_is_nan]. destruct (f32_ltb (S754_finite s m e) (f32_of_Z (-104))); [reflexivity|].
      rewrite Hx. cbn [negb orb].
      destruct (valid_binary 24 128 (sample_expf (S754_finite s m e)) && SFleb f32_zero (sample_expf (S754_finite s m e))) eqn:A;
        cbn [andb]; [|reflexivity].
      destruct (SFleb (sample_expf (S754_finite s m e)) f32_one) eqn:B; [assumption|reflexivity].
  - intros x Hx. unfold ranged_expf. rewrite Hx.
    destruct x; try discriminate Hx; reflexivity.
Qed.

(** ** Canonical numbers *)

Lemma bounded_facts (m : positive) (e : Z) :
  bounded 24 128 m e = true ->
  -149 <= e <= 104 /\ Zpos m < 2 ^ 24 /\ (-149 < e -> 2 ^ 23 <= Zpos m).
Proof.
  unfold bounded, canonical_mantissa. intro H. apply andb_true_iff in H.
  destruct H as [Hc He]. apply Z.eqb_eq in Hc. apply Z.leb_le in He.
  rewrite fexp32_eq in Hc. change (128 - 24) with 104 in He.
  pose proof (digits2_pos_bounds m) as [Hlo Hhi].
  assert (Hd : 0 < Zpos (digits2_pos m)) by lia.
  split; [lia|]. split.
  - eapply Z.lt_le_trans; [exact Hhi|]. apply Z.pow_le_mono_r; lia.
  - intro Hgt. assert (Zpos (digits2_pos m) = 24) by lia.
    rewrite H in Hlo. exact Hlo.
Qed.

(** Of two canonical magnitudes the one with the larger exponent is the
    larger, also after alignment. *)
Lemma aligned_lt (m1 m2 : positive) (e1 e2 : Z) :
  bounded 24 128 m1 e1 = true -> bounded 24 128 m2 e2 = true ->
  e1 < e2 ->
  Zpos (fst (shl_align m1 e1 (Z.min e1 e2))) < Zpos (fst (shl_align m2 e2 (Z.min e1 e2))).
Proof.
  intros H1 H2 Hlt.
  destruct (bounded_facts m1 e1 H1) as (He1 & Hm1 & _).
  destruct (bounded_facts m2 e2 H2) as (He2 & _ & Hm2).
  destruct (shl_align_spec m1 e1 (Z.min e1 e2)) as [_ ->].
  destruct (shl_align_spec m2 e2 (Z.min e1 e2)) as [_ ->].
  replace (Z.min e1 (Z.min e1 e2)) with e1 by lia.
  replace (Z.min e2 (Z.min e1 e2)) with e1 by lia.
  rewrite Z.sub_diag, Z.pow_0_r, Z.mul_1_r.
  assert (2 <= 2 ^ (e2 - e1)).
  { replace (e2 - e1) with (Z.succ (e2 - e1 - 1)) by lia.
    rewrite Z.pow_succ_r by lia. pose proof (Z.pow_pos_nonneg 2 (e2 - e1 - 1)). lia. }
  specialize (Hm2 ltac:(lia)). change (2 ^ 24) with (2 * 2 ^ 23) in Hm1. nia.
Qed.

Lemma aligned_same (m1 m2 : positive) (e : Z) :
  fst (shl_align m1 e (Z.min e e)) = m1 /\ fst (shl_align m2 e (Z.min e e)) = m2.
Proof.
  unfold shl_align. rewrite Z.min_id, Z.sub_diag. split; reflexivity.
Qed.

(** The signed, aligned mantissas of two canonical numbers compare as the
    numbers do. *)
Lemma f32_ltb_aligned (sx sy : bool) (mx my : positive) (ex ey : Z) :
  bounded 24 128 mx ex = true -> bounded 24 128 my ey = true ->
  f32_ltb (S754_finite sy my ey) (S754_finite sx mx ex) = false ->
  cond_Zopp sx (Zpos (fst (shl_align mx ex (Z.min ex ey))))
  <= cond_Zopp sy (Zpos (fst (shl_align my ey (Z.min ex ey)))).
Proof.
  intros Hx Hy Hlt. unfold f32_ltb, SFltb, SFcompare in Hlt.
  destruct sx, sy; cbn [cond_Zopp]; try discriminate Hlt; try lia.
  - (* both negative *)
    destruct (Z.compare_spec ey ex) as [Heq|Hl|Hg]; try discriminate Hlt.
    + subst ey. destruct (aligned_same mx my ex) as [-> ->].
      destruct (Pos.compare_cont Eq my mx) eqn:C; try discriminate Hlt.
      * apply Pos.compare_eq in C. subst. lia.
      * change (Pos.compare_cont Eq my mx) with (Pos.compare my mx) in C.
        apply (proj1 (Pos.compare_lt_iff _ _)) in C. lia.
    + pose proof (aligned_lt my mx ey ex Hy Hx Hl) as H.
      rewrite (Z.min_comm ey ex) in H. lia.
  - (* both positive *)
    destruct (Z.compare_spec ey ex) as [Heq|Hl|Hg]; try discriminate Hlt.
    + subst ey. destruct (aligned_same mx my ex) as [-> ->].
      destruct (Pos.compare_cont Eq my mx) eqn:C; try discriminate Hlt.
      * apply Pos.compare_eq in C. subst. lia.
      * change (Pos.compare_cont Eq my mx) with (Pos.compare my mx) in C.
        apply (proj1 (Pos.compare_gt_iff _ _)) in C. lia.
    + pose proof (aligned_lt mx my ex ey Hx Hy Hg) as H. lia.
Qed.

Lemma nonpos_signed (x : float32) : signed_number true x -> nonpos_number x.
Proof.
  destruct x as [s|s| |s m e]; cbn [signed_number]; intro H; try contradiction.
  - reflexivity.
  - subst s. reflexivity.
  - destruct H as [-> _]. reflexivity.
Qed.

Lemma binary_normalize_nonpos (z e : Z) :
  z <= 0 -> nonpos_number (binary_normalize 24 128 z e false).
Proof.
  intro Hz. destruct z as [|p|p]; [reflexivity | lia |].
  cbn [binary_normalize]. unfold binary_round.
  destruct (shl_align p e (fexp 24 128 (Zpos (digits2_pos p) + e))) as [mz ez].
  apply nonpos_signed, binary_round_aux_signed. lia.
Qed.

Lemma binary_normalize_number (z e : Z) (s : bool) :
  f32_is_nan (binary_normalize 24 128 z e s) = false.
Proof.
  destruct z as [|p|p]; [reflexivity| |]; cbn [binary_normalize]; unfold binary_round;
    destruct (shl_align p e (fexp 24 128 (Zpos (digits2_pos p) + e))) as [mz ez].
  - pose proof (binary_round_aux_signed false (Zpos mz) ez loc_Exact ltac:(lia)) as H.
    destruct (binary_round_aux 24 128 false (Zpos mz) ez loc_Exact); cbn in *; tauto.
  - pose proof (binary_round_aux_signed true (Zpos mz) ez loc_Exact ltac:(lia)) as H.
    destruct (binary_round_aux 24 128 true (Zpos mz) ez loc_Exact); cbn in *; tauto.
Qed.

(** The difference of two finite numbers is a number, and it is not
    positive when the second is not below the first. *)
Lemma f32_sub_number (x y : float32) :
  f32_is_finite x = true -> f32_is_finite y = true -> f32_is_nan (f32_sub x y) = false.
Proof.
  intros Hx Hy.
  destruct x as [sx|sx| |sx mx ex]; try discriminate Hx;
    destruct y as [sy|sy| |sy my ey]; try discriminate Hy.
  - destruct sx, sy; reflexivity.
  - reflexivity.
  - reflexivity.
  - apply binary_normalize_number.
Qed.

Lemma f32_sub_nonpos (x y : float32) :
  finite_number x -> finite_number y ->
  f32_ltb y x = false ->
  nonpos_number (f32_sub x y).
Proof.
  intros [Hx Vx] [Hy Vy] Hlt.
  destruct x as [sx|sx| |sx mx ex]; try discriminate Hx;
    destruct y as [sy|sy| |sy my ey]; try discriminate Hy.
  - destruct sx, sy; reflexivity.
  - destruct sy; [discriminate Hlt | reflexivity].
  - destruct sx; [reflexivity | discriminate Hlt].
  - cbn [valid_binary] in Vx, Vy.
    pose proof (f32_ltb_aligned sx sy mx my ex ey Vx Vy Hlt).
    apply binary_normalize_nonpos. lia.
Qed.

Lemma f32_sub_self (x : float32) : f32_is_finite x = true -> f32_sub x x = f32_zero.
Proof.
  destruct x as [s|s| |s m e]; try discriminate; intros _.
  - destruct s; reflexivity.
  - unfold f32_sub, SFsub. rewrite Z.sub_diag. reflexivity.
Qed.

(** A number that is not positive, divided by a positive finite number, is
    not positive. *)
Lemma f32_div_nonpos (x : float32) (mt : positive) (et : Z) :
  nonpos_number x -> nonpos_number (f32_div x (S754_finite false mt et)).
Proof.
  intro Hx. destruct x as [s|s| |s m e]; try discriminate Hx.
  - destruct s; reflexivity.
  - destruct s; [reflexivity | discriminate Hx].
  - destruct s; [|discriminate Hx].
    rewrite f32_div_finite_finite. apply nonpos_signed, binary_round_aux_signed.
    apply Z.div_pos; [|lia]. pose proof (Z.pow_nonneg 2
      (e - et - Z.min (fexp 24 128 (Zdigits2 (Zpos m) + e - (Zdigits2 (Zpos mt) + et))) (e - et))).
    nia.
Qed.

Lemma nonpos_not_nan (x : float32) : nonpos_number x -> f32_is_nan x = false.
Proof. destruct x; cbn; try reflexivity. discriminate. Qed.

(** ** Values between 0 and 1 *)

Lemma f32_real_one : f32_real f32_one = 1%R.
Proof.
  change f32_one with (S754_finite false (2 ^ 23)%positive (-23)). cbn [f32_real].
  change (IZR (Zpos (2 ^ 23))) with (IZR (2 ^ 23)). rewrite bpow_IZR by lia.
  rewrite Rmult_1_l, <- bpow_add. reflexivity.
Qed.

Lemma unit_interval_real (y : float32) :
  valid_binary 24 128 y = true ->
  SFleb f32_zero y = true -> SFleb y f32_one = true ->
  nonneg_finite y /\ (0 <= f32_real y <= 1)%R.
Proof.
  intros V H0 H1. destruct y as [s|s| |s m e]; try discriminate H0.
  - split; [exact I|]. cbn. lra.
  - destruct s; discriminate.
  - destruct s; [discriminate H0|]. cbn [valid_binary] in V.
    destruct (bounded_facts m e V) as (He & Hm & _).
    split; [cbn; lia|].
    pose proof (f32_real_nonneg (S754_finite false m e) ltac:(cbn; lia)) as Hnn.
    split; [exact Hnn|]. cbn [f32_real]. rewrite Rmult_1_l.
    change f32_one with (S754_finite false (2 ^ 23)%positive (-23)) in H1.
    unfold SFleb, SFcompare in H1.
    destruct (Z.compare_spec e (-23)) as [Heq|Hl|Hg]; try discriminate H1.
    + subst e.
      assert (Hle : (m <= 2 ^ 23)%positive).
      { unfold Pos.le, Pos.compare. destruct (Pos.compare_cont Eq m (2 ^ 23)); try discriminate;
          congruence. }
      assert (IZR (Zpos m) <= IZR (2 ^ 23))%R by (apply IZR_le; lia).
      rewrite bpow_IZR in H by lia.
      pose proof (bpow_pos (-23)).
      assert (powerRZ 2 23 * powerRZ 2 (-23) = 1)%R by (rewrite <- bpow_add; reflexivity).
      nra.
    + assert (IZR (Zpos m) <= IZR (2 ^ 24))%R by (apply IZR_le; lia).
      rewrite bpow_IZR in H by lia.
      pose proof (bpow_le e (-24) ltac:(lia)). pose proof (bpow_pos e).
      assert (powerRZ 2 24 * powerRZ 2 (-24) = 1)%R by (rewrite <- bpow_add; reflexivity).
      pose proof (bpow_pos 24). nra.
Qed.

Lemma nonneg_number_of_valid (y : float32) :
  valid_binary 24 128 y = true -> SFleb f32_zero y = true -> nonneg_number y.
Proof.
  intros V H0. destruct y as [s|s| |s m e]; try discriminate H0.
  - exact I.
  - destruct s; [discriminate H0 | exact I].
  - destruct s; [discriminate H0|]. cbn [valid_binary] in V.
    destruct (bounded_facts m e V) as (He & _). cbn. lia.
Qed.

(** ** Sums *)

Lemma Rsum_snoc (l : list R) (x : R) : Rsum (l ++ [x]) = (Rsum l + x)%R.
Proof. unfold Rsum. rewrite fold_left_app. reflexivity. Qed.

Lemma Rsum_map_bounds {A : Type} (f lo hi : A -> R) (l : list A) :
  Forall (fun a => lo a <= f a <= hi a)%R l ->
  (Rsum (map lo l) <= Rsum (map f l) <= Rsum (map hi l))%R.
Proof.
  induction 1 as [|a l Ha _ IH]; cbn [map].
  - unfold Rsum. cbn. lra.
  - rewrite !Rsum_cons. lra.
Qed.

Lemma Rsum_map_affine {A : Type} (g : A -> R) (c d : R) (l : list A) :
  Rsum (map (fun a => c * g a + d)%R l) = (c * Rsum (map g l) + INR (length l) * d)%R.
Proof.
  induction l as [|a l IH].
  - unfold Rsum. cbn. lra.
  - cbn [map]. rewrite !Rsum_cons, IH. cbn [length]. rewrite S_INR. lra.
Qed.

Lemma Rsum_map_nonneg {A : Type} (g : A -> R) (l : list A) (x : A) :
  Forall (fun a => 0 <= g a)%R l -> In x l -> (g x <= Rsum (map g l))%R.
Proof.
  intros Hall. revert x. induction Hall as [|a l Ha Hl IH]; intros x Hin; [contradiction|].
  cbn [map]. rewrite Rsum_cons.
  assert (0 <= Rsum (map g l))%R.
  { clear IH Hin. induction Hl as [|b l Hb _ IH]; [unfold Rsum; cbn; lra|].
    cbn [map]. rewrite Rsum_cons. lra. }
  destruct Hin as [->|Hin]; [lra|]. specialize (IH x Hin). lra.
Qed.

Lemma bpow_127_large : (4194304 <= powerRZ 2 127)%R.
Proof.
  change 4194304%R with (IZR (2 ^ 22)). rewrite bpow_IZR by lia. apply bpow_le. lia.
Qed.

Lemma bpow_m150_small : (powerRZ 2 (-150) <= / 67108864)%R.
Proof.
  assert (H : (powerRZ 2 (-26) * 67108864 = 1)%R).
  { change 67108864%R with (IZR (2 ^ 26)). rewrite bpow_IZR by lia.
    rewrite <- bpow_add. reflexivity. }
  pose proof (bpow_le (-150) (-26) ltac:(lia)). pose proof (bpow_pos (-26)).
  assert (powerRZ 2 (-26) = / 67108864)%R; [|lra].
  apply (Rmult_eq_reg_r 67108864); [|lra]. rewrite H. field.
Qed.

(** The sum of at most [2^20] values between 0 and 1, accumulated from
    [0.0f] as the code does: it is finite, and it is the exact sum up to a
    relative error of [n * 2^-24]. *)
Lemma f32_sum_real (es : list float32) :
  Forall unit_value es ->
  Z.of_nat (length es) <= 2 ^ 20 ->
  let total := fold_left f32_add es f32_zero in
  let T := Rsum (map f32_real es) in
  let c := (1 - INR (length es) / 16777216)%R in
  nonneg_finite total /\
  (T * c <= f32_real total)%R /\ (f32_real total * c <= T)%R /\
  (0 <= T <= INR (length es))%R.
Proof.
  induction es as [|e es IH] using rev_ind; intros Hall Hlen.
  - cbn. unfold Rsum. cbn. repeat split; lra.
  - apply Forall_app in Hall. destruct Hall as [Hes He].
    apply Forall_inv in He. destruct He as [Hne He1].
    rewrite length_app in Hlen |- *. cbn [length] in Hlen |- *.
    specialize (IH Hes ltac:(lia)). cbv zeta in IH.
    destruct IH as (HS & Hlo & Hhi & HT0 & HTn).
    rewrite fold_left_app, map_app. cbn [fold_left map]. rewrite Rsum_snoc.
    rewrite plus_INR. change (INR 1) with 1%R.
    set (S0 := fold_left f32_add es f32_zero) in *.
    set (T := Rsum (map f32_real es)) in *.
    set (n := INR (length es)) in *.
    assert (Hn0 : (0 <= n)%R) by apply pos_INR.
    assert (Hn : (n + 1 <= 1048576)%R).
    { unfold n. rewrite <- S_INR, INR_IZR_INZ. change 1048576%R with (IZR (2 ^ 20)).
      apply IZR_le. lia. }
    pose proof (f32_real_nonneg _ Hne) as Hb0.
    pose proof (f32_real_nonneg _ HS) as Ha0.
    set (a := f32_real S0) in *. set (b := f32_real e) in *.
    assert (Ha : (a <= 2097152)%R) by nra.
    destruct (f32_add_real S0 e HS Hne) as [HS' Herr].
    { fold a b. pose proof bpow_127_large. lra. }
    fold a b in Herr. apply Rabs_le_inv in Herr.
    set (a' := f32_real (f32_add S0 e)) in *.
    split; [exact HS'|].
    set (u := (/ 16777216)%R) in *.
    assert (Hu : (u = / 16777216)%R) by reflexivity.
    replace ((n + 1) / 16777216)%R with ((n + 1) * u)%R by (unfold u, Rdiv; ring).
    replace (n / 16777216)%R with (n * u)%R in Hlo, Hhi by (unfold u, Rdiv; ring).
    set (c := (1 - n * u)%R) in *.
    assert (Hc : (15 / 16 <= c <= 1)%R) by (unfold c, u; lra).
    assert (Hu' : (0 < u <= / 16777216)%R) by (unfold u; lra).
    replace (1 - (n + 1) * u)%R with (c - u)%R by (unfold c; ring).
    clearbody a a' b T n S0 c u. clear Hes HS HS' Hne Hlen Hu.
    split; [|split; [|lra]].
    + (* lower bound *)
      assert (P1 : (0 <= (a - T * c) * (1 - u))%R) by (apply Rmult_le_pos; lra).
      assert (P2 : (0 <= b * (1 - c) * (1 - u))%R) by (repeat apply Rmult_le_pos; lra).
      assert (P3 : (0 <= (T + b) * u * (1 - c))%R) by (repeat apply Rmult_le_pos; lra).
      lra.
    + (* upper bound *)
      assert (P4 : (0 <= ((a + b) * (1 + u) - a') * (c - u))%R) by (apply Rmult_le_pos; lra).
      assert (P5 : (0 <= (a + b) * (u * (1 - c) + u * u))%R).
      { apply Rmult_le_pos; [lra|].
        assert (0 <= u * (1 - c))%R by (apply Rmult_le_pos; lra).
        assert (0 <= u * u)%R by (apply Rmult_le_pos; lra). lra. }
      assert (P6 : (0 <= b * (1 - c))%R) by (apply Rmult_le_pos; lra).
      lra.
Qed.

Lemma positive_finite_inv (x : float32) :
  f32_is_finite x = true -> f32_ltb f32_zero x = true ->
  exists m e, x = S754_finite false m e.
Proof.
  destruct x as [s|s| |s m e]; try discriminate.
  intros _ H. destruct s; [discriminate H|]. now exists m, e.
Qed.

Lemma nonneg_finite_output (x : float32) :
  nonneg_finite x -> f32_is_finite x = true /\ SFleb f32_zero x = true.
Proof.
  destruct x as [s|s| |s m e]; cbn [nonneg_finite]; try contradiction.
  - intros _. split; reflexivity.
  - destruct s; [contradiction|]. intros _. split; reflexivity.
Qed.

Section SoftmaxBinary32.
Variable env : Env.
Hypothesis Henv : expf_conforms env.

(** The exponentials that softmax sums are values between 0 and 1, and the
    one of the largest logit is 1. *)
Lemma softmax_exponentials (logits : list float32) (mt : positive) (et : Z) :
  logits <> [] ->
  Forall finite_number logits ->
  let temp := S754_finite false mt et in
  let max_val := nth (max_element f32_ltb logits) logits f32_zero in
  let E := map (fun l => expf env (f32_div (f32_sub l max_val) temp)) logits in
  Forall unit_value E /\ In f32_one E.
Proof.
  intros Hne Hfin temp max_val E.
  destruct Henv as (Hzero & Hrange & Hone & _).
  assert (Hnum : Forall (fun p => f32_is_nan p = false) logits).
  { eapply Forall_impl; [|exact Hfin]. intros x [Hx _]. destruct x; try discriminate; reflexivity. }
  pose proof (max_element_first_max float32 f32_ltb f32_zero
                (fun p => f32_is_nan p = false)
                f32_ltb_irrefl f32_ltb_trans f32_ltb_negtrans logits Hne Hnum) as (Hb & Hmax & _).
  assert (Hin : In max_val logits) by (apply nth_In; exact Hb).
  assert (Hmv : finite_number max_val) by (eapply Forall_forall; eassumption).
  split.
  - apply Forall_forall. intros e He. apply in_map_iff in He. destruct He as (l & <- & Hl).
    assert (Hlf : finite_number l) by (eapply Forall_forall; eassumption).
    assert (Hlt : f32_ltb max_val l = false).
    { destruct (In_nth logits l f32_zero Hl) as (j & Hj & <-). apply Hmax. exact Hj. }
    pose proof (f32_div_nonpos _ mt et (f32_sub_nonpos l max_val Hlf Hmv Hlt)) as Harg.
    fold temp in Harg.
    destruct (Hrange _ (nonpos_not_nan _ Harg)) as [H0 HV].
    destruct (unit_interval_real _ HV H0 (Hone _ Harg)) as [Hnn [_ Hle]].
    split; assumption.
  - apply in_map_iff. exists max_val. split; [|exact Hin].
    rewrite f32_sub_self by apply Hmv.
    change (f32_div f32_zero temp) with (S754_zero false). apply Hzero.
Qed.

(** Softmax on binary32: the entries are finite and not negative, and
    they add up to 1 within [3 (n+1) / 2^25]. *)
Lemma softmax_binary32 (stored temperature : float32) (logits : list float32) :
  logits <> [] ->
  Forall finite_number logits ->
  let temp := effective_temperature f32_zero f32_ltb stored temperature in
  f32_is_finite temp = true -> f32_ltb f32_zero temp = true ->
  Z.of_nat (length logits) <= 2 ^ 20 ->
  let p := softmax_kernel f32_zero f32_add f32_sub f32_div (expf env) f32_ltb
             stored logits temperature in
  length p = length logits /\
  Forall (fun x => f32_is_finite x = true /\ SFleb f32_zero x = true) p /\
  (Rabs (Rsum (map f32_real p) - 1) <= 3 * INR (S (length logits)) / 33554432)%R.
Proof.
  intros Hne Hfin temp Htf Htp Hlen p.
  destruct (positive_finite_inv temp Htf Htp) as (mt & et & Htemp).
  set (max_val := nth (max_element f32_ltb logits) logits f32_zero).
  set (E := map (fun l => expf env (f32_div (f32_sub l max_val) temp)) logits).
  set (sum_exp := fold_left f32_add E f32_zero).
  assert (Hp : p = map (fun e => f32_div e sum_exp) E).
  { unfold p, softmax_kernel. destruct logits; [congruence | reflexivity]. }
  destruct (softmax_exponentials logits mt et Hne Hfin) as [HE Hone].
  rewrite <- Htemp in HE, Hone. fold max_val in HE, Hone. fold E in HE, Hone.
  assert (HlenE : length E = length logits) by (unfold E; apply length_map).
  destruct (f32_sum_real E HE) as (HS & Hlo & Hhi & HT0 & HTn); [rewrite HlenE; exact Hlen|].
  fold sum_exp in HS, Hlo, Hhi. rewrite HlenE in *.
  set (T := Rsum (map f32_real E)) in *.
  set (n := INR (length logits)) in *.
  assert (Hn0 : (0 <= n)%R) by apply pos_INR.
  assert (Hn : (n <= 1048576)%R).
  { unfold n. rewrite INR_IZR_INZ. change 1048576%R with (IZR (2 ^ 20)). apply IZR_le. lia. }
  assert (HT1 : (1 <= T)%R).
  { rewrite <- f32_real_one. apply (Rsum_map_nonneg f32_real E f32_one); [|exact Hone].
    eapply Forall_impl; [|exact HE]. intros e [He _]. now apply f32_real_nonneg. }
  set (u := (/ 16777216)%R).
  replace (n / 16777216)%R with (n * u)%R in Hlo, Hhi by (unfold u, Rdiv; ring).
  set (c := (1 - n * u)%R) in *.
  assert (Hc : (15 / 16 <= c <= 1)%R) by (unfold c, u; lra).
  set (r := f32_real sum_exp) in *.
  assert (Hr : (15 / 16 <= r)%R) by nra.
  (* the sum is a positive finite number *)
  assert (HSpos : exists mS eS, sum_exp = S754_finite false mS eS).
  { destruct sum_exp as [s|s| |s mS eS]; cbn [nonneg_finite] in HS; try contradiction.
    - cbn in r. unfold r in Hr. lra.
    - destruct s; [contradiction|]. now exists mS, eS. }
  destruct HSpos as (mS & eS & HSeq).
  (* every quotient *)
  set (eta := powerRZ 2 (-150)).
  assert (Hq : Forall (fun e => nonneg_finite (f32_div e sum_exp) /\
                                ((1 - u) / r * f32_real e + - eta
                                 <= f32_real (f32_div e sum_exp)
                                 <= (1 + u) / r * f32_real e + eta)%R) E).
  { eapply Forall_impl; [|exact HE]. intros e [Hnn Hle].
    pose proof (f32_real_nonneg e Hnn) as He0.
    assert (Hquot : (f32_real e / r <= 16 / 15)%R).
    { apply (Rmult_le_reg_r r); [lra|]. unfold Rdiv. rewrite Rmult_assoc, Rinv_l by lra. lra. }
    destruct (f32_div_real e mS eS Hnn) as [Hd Herr].
    { rewrite <- HSeq. fold r. pose proof bpow_127_large. lra. }
    rewrite <- HSeq in Hd, Herr. fold r in Herr. fold u eta in Herr.
    split; [exact Hd|]. apply Rabs_le_inv in Herr.
    replace ((1 - u) / r * f32_real e)%R with (f32_real e / r - u * (f32_real e / r))%R
      by (field; lra).
    replace ((1 + u) / r * f32_real e)%R with (f32_real e / r + u * (f32_real e / r))%R
      by (field; lra).
    lra. }
  split; [rewrite Hp, length_map; exact HlenE|]. split.
  - rewrite Hp. apply Forall_forall. intros x Hx. apply in_map_iff in Hx.
    destruct Hx as (e & <- & He).
    apply nonneg_finite_output. eapply (proj1 (Forall_forall _ E) Hq). exact He.
  - rewrite Hp, map_map.
    pose proof (Rsum_map_bounds (fun e => f32_real (f32_div e sum_exp))
                  (fun e => ((1 - u) / r * f32_real e + - eta)%R)
                  (fun e => ((1 + u) / r * f32_real e + eta)%R) E) as Hb.
    destruct Hb as [Hblo Hbhi].
    { eapply Forall_impl; [|exact Hq]. intros e [_ H]. exact H. }
    rewrite Rsum_map_affine in Hblo, Hbhi. fold T in Hblo, Hbhi.
    rewrite HlenE in Hblo, Hbhi. fold n in Hblo, Hbhi.
    set (sigma := Rsum (map (fun e => f32_real (f32_div e sum_exp)) E)) in *.
    rewrite S_INR. fold n.
    set (rho := (T / r)%R).
    assert (Hrho : (rho * r = T)%R) by (unfold rho; field; lra).
    replace ((1 - u) / r * T)%R with ((1 - u) * rho)%R in Hblo by (unfold rho; field; lra).
    replace ((1 + u) / r * T)%R with ((1 + u) * rho)%R in Hbhi by (unfold rho; field; lra).
    assert (Heta : (0 < eta <= / 67108864)%R).
    { unfold eta. split; [apply bpow_pos | apply bpow_m150_small]. }
    assert (Hu : (u = / 16777216)%R) by reflexivity.
    assert (Hrho1 : (c <= rho)%R).
    { apply (Rmult_le_reg_r r); [lra|]. rewrite Hrho. lra. }
    assert (Hrho2 : (rho * c <= 1)%R).
    { apply (Rmult_le_reg_r r); [lra|].
      replace (rho * c * r)%R with (rho * r * c)%R by ring. rewrite Hrho. lra. }
    assert (Hrho3 : (rho <= 16 / 15)%R) by nra.
    assert (Hnu : (0 <= n * u <= / 16)%R) by (unfold u; lra).
    assert (Hrhon : (rho * (n * u) <= 16 / 15 * (n * u))%R)
      by (apply Rmult_le_compat_r; lra).
    assert (Hrhou : (rho * u <= 16 / 15 * u)%R) by (apply Rmult_le_compat_r; lra).
    assert (Hcu : (0 <= n * u * u)%R) by (apply Rmult_le_pos; lra).
    assert (Hneta : (0 <= n * eta <= n * / 67108864)%R).
    { split; [apply Rmult_le_pos; lra | apply Rmult_le_compat_l; lra]. }
    assert (Hrc : (rho * c = rho - rho * (n * u))%R) by (unfold c; ring).
    assert (Hlow : ((1 - u) * c <= (1 - u) * rho)%R) by (apply Rmult_le_compat_l; lra).
    assert (Hcexp : ((1 - u) * c = 1 - u - n * u + n * u * u)%R) by (unfold c; ring).
    clearbody sigma rho c eta. rewrite Hu in *.
    apply Rabs_le. lra.
Qed.
End SoftmaxBinary32.

(** ** C6: softmax *)

Lemma f32_ltb_zero_real (x : float32) :
  f32_is_finite x = true \/ f32_ltb f32_zero x = false ->
  f32_ltb f32_zero x = Rltb 0 (f32_real x).
Proof.
  intro H. unfold Rltb.
  destruct x as [s|s| |s m e]; cbn [f32_real].
  - destruct (Rlt_dec 0 0); [lra | reflexivity].
  - destruct H as [H|H]; [discriminate H|]. rewrite H.
    destruct (Rlt_dec 0 0); [lra | reflexivity].
  - destruct (Rlt_dec 0 0); [lra | reflexivity].
  - assert (Hpos : (0 < IZR (Zpos m) * powerRZ 2 e)%R).
    { apply Rmult_lt_0_compat; [apply IZR_lt; lia | apply bpow_pos]. }
    destruct s.
    + destruct (Rlt_dec 0 (-1 * IZR (Zpos m) * powerRZ 2 e)); [lra | reflexivity].
    + destruct (Rlt_dec 0 (1 * IZR (Zpos m) * powerRZ 2 e)); [reflexivity | lra].
Qed.

(** The temperature that the exact computation selects is the value of the
    one the code selects. *)
Lemma effective_temperature_real (stored temperature : float32) :
  f32_is_finite (effective_temperature f32_zero f32_ltb stored temperature) = true ->
  effective_temperature 0%R Rltb (f32_real stored) (f32_real temperature)
  = f32_real (effective_temperature f32_zero f32_ltb stored temperature).
Proof.
  unfold effective_temperature. intro Hfin.
  destruct (f32_ltb f32_zero temperature) eqn:Hlt.
  - rewrite <- f32_ltb_zero_real by now left. now rewrite Hlt.
  - rewrite <- f32_ltb_zero_real by now right. now rewrite Hlt.
Qed.

Lemma f32_real_units (x : float32) :
  valid_binary 24 128 x = true ->
  f32_real x = (IZR (f32_units x) * powerRZ 2 (-149))%R.
Proof.
  intro V. destruct x as [s|s| |s m e]; cbn [f32_real f32_units]; try ring.
  cbn [valid_binary] in V. destruct (bounded_facts m e V) as (He & _).
  rewrite !mult_IZR, bpow_IZR by lia.
  replace e with ((e + 149) + -149) at 1 by lia. rewrite bpow_add.
  destruct s; ring.
Qed.

Lemma Rsum_units (l : list float32) :
  forallb (valid_binary 24 128) l = true ->
  Rsum (map f32_real l)
  = (IZR (fold_left Z.add (map f32_units l) 0%Z) * powerRZ 2 (-149))%R.
Proof.
  intro V.
  assert (H : forall a : Z,
             (IZR (fold_left Z.add (map f32_units l) a) * powerRZ 2 (-149)
              = IZR a * powerRZ 2 (-149) + Rsum (map f32_real l))%R).
  { induction l as [|x l IH]; intro a; cbn [map fold_left].
    - unfold Rsum. cbn. ring.
    - cbn [forallb] in V. apply andb_true_iff in V. destruct V as [Vx Vl].
      rewrite (IH Vl), Rsum_cons, plus_IZR, (f32_real_units x Vx). ring. }
  rewrite H. change (IZR 0) with 0%R. ring.
Qed.




(** ** What generation reads of the model *)

Lemma same_but_temperature_set (m : TinyLlamaModel) (x1 x2 : float32) :
  same_but_temperature (TinyLlamaModel_set_temperature m x1)
                       (TinyLlamaModel_set_temperature m x2).
Proof. repeat split. Qed.

Section Independence.
Variable env : Env.
Variables m1 m2 : TinyLlamaModel.
Hypothesis Hsame : same_but_temperature m1 m2.

Lemma is_initialized_same :
  TinyLlamaModel_is_initialized m1 = TinyLlamaModel_is_initialized m2.
Proof.
  destruct Hsame as (Ht & _). unfold TinyLlamaModel_is_initialized. now rewrite Ht.
Qed.

Lemma embed_rows_same (tokens : list Z) :
  forall i, embed_rows m1 i tokens = embed_rows m2 i tokens.
Proof.
  destruct Hsame as (_ & He & Hp & _ & _ & Hc).
  induction tokens as [|t tokens IH]; intro i; cbn [embed_rows]; [reflexivity|].
  rewrite IH. unfold embed_row. now rewrite He, Hp, Hc.
Qed.

Lemma forward_same (tokens : list Z) :
  TinyLlamaModel_forward env m1 tokens = TinyLlamaModel_forward env m2 tokens.
Proof.
  unfold TinyLlamaModel_forward.
  rewrite is_initialized_same, embed_rows_same.
  destruct Hsame as (_ & _ & _ & Hb & Ho & Hc).
  now rewrite Hb, Ho, Hc.
Qed.

(** With a positive temperature argument the softmax does not read the
    stored temperature. *)
Lemma softmax_positive_same (logits : list float32) (temperature : float32) :
  f32_ltb f32_zero temperature = true ->
  TinyLlamaModel_softmax env m1 logits temperature
  = TinyLlamaModel_softmax env m2 logits temperature.
Proof.
  intro Hpos. unfold TinyLlamaModel_softmax, softmax_kernel, effective_temperature.
  now rewrite Hpos.
Qed.

Lemma generate_loop_same (temperature : float32) (fuel : nat) :
  f32_ltb f32_zero temperature = true ->
  forall tokens,
    generate_loop env m1 temperature fuel tokens
    = generate_loop env m2 temperature fuel tokens.
Proof.
  intro Hpos. induction fuel as [|fuel IH]; intro tokens; cbn [generate_loop]; [reflexivity|].
  rewrite forward_same, Hpos.
  destruct Hsame as (_ & _ & _ & _ & _ & Hc). rewrite Hc.
  destruct (_ <=? _)%N; [reflexivity|].
  destruct (TinyLlamaModel_forward env m2 tokens) as [logits| |]; cbn [bind]; try reflexivity.
  rewrite (softmax_positive_same logits temperature Hpos).
  destruct (TinyLlamaModel_sample_token _) as [next| |]; cbn [bind]; try reflexivity.
  destruct (next =? 2); [reflexivity | apply IH].
Qed.

Lemma generate_text_same (prompt : string) (max_tokens : Z) (temperature : float32) :
  f32_ltb f32_zero temperature = true ->
  TinyLlamaModel_generate_text env m1 prompt max_tokens temperature
  = TinyLlamaModel_generate_text env m2 prompt max_tokens temperature.
Proof.
  intro Hpos. unfold TinyLlamaModel_generate_text.
  rewrite is_initialized_same.
  unfold TinyLlamaModel_tokenize, TinyLlamaModel_detokenize.
  destruct Hsame as (Ht & _ & _ & _ & _ & Hc). rewrite Ht, Hc.
  destruct (TinyLlamaModel_is_initialized m2); [|reflexivity].
  destruct (negb (max_tokens <=? 0)); [|reflexivity].
  destruct (tokenizer_ m2) as [tk|]; cbn [bind].
  - rewrite generate_loop_same by assumption. reflexivity.
  - rewrite generate_loop_same by assumption. reflexivity.
Qed.
End Independence.

(** ** C10: the facade's generation ignores the stored temperature *)

(** C10. [TinyLlama::generate] calls [generate_text] without a temperature,
    so the default argument 1.0 is used; being positive, it is the
    temperature of every softmax, and the value stored by [set_temperature]
    is never read: two facade states that differ only in the stored
    temperature of the model produce the same result for every prompt and
    [max_tokens]. *)
Theorem generate_ignores_stored_temperature (env : Env) (m : TinyLlamaModel)
  (initialized : bool) (t1 t2 : float32) (prompt : string) (max_tokens : Z) :
  TinyLlama_generate env
    {| model_ := Some (TinyLlamaModel_set_temperature m t1); is_initialized_ := initialized |}
    prompt max_tokens
  = TinyLlama_generate env
      {| model_ := Some (TinyLlamaModel_set_temperature m t2); is_initialized_ := initialized |}
      prompt max_tokens.
Proof.
  unfold TinyLlama_generate. cbn [model_ is_initialized_].
  rewrite (generate_text_same env _ _ (same_but_temperature_set m t1 t2)) by reflexivity.
  reflexivity.
Qed.

(** ** C7: generation is deterministic *)

(** Generation reads libm but never the random number generator. *)
Lemma generate_text_rand_independent (e t : float32 -> float32)
  (r1 r2 : nat -> Z) (M1 M2 : Z) (m : TinyLlamaModel) (prompt : string)
  (max_tokens : Z) (temperature : float32) :
  TinyLlamaModel_generate_text (mkEnv e t r1 M1) m prompt max_tokens temperature
  = TinyLlamaModel_generate_text (mkEnv e t r2 M2) m prompt max_tokens temperature.
Proof. reflexivity. Qed.

(** C7. Two calls of [generate_text] on identical model states (weights,
    configuration, tokenizer and stored temperature) with identical prompt,
    [max_tokens] and temperature return identical results, whatever the
    state of the process's random number generator is at either call: the
    sampling has no hidden randomness. *)
Theorem generate_text_deterministic (env1 env2 : Env) (m1 m2 : TinyLlamaModel)
  (prompt : string) (max_tokens : Z) (temperature : float32) :
  expf env1 = expf env2 ->
  tanhf env1 = tanhf env2 ->
  tokenizer_ m1 = tokenizer_ m2 ->
  embedding_weights_ m1 = embedding_weights_ m2 ->
  position_embeddings_ m1 = position_embeddings_ m2 ->
  transformer_blocks_ m1 = transformer_blocks_ m2 ->
  output_projection_ m1 = output_projection_ m2 ->
  config_ m1 = config_ m2 ->
  temperature_ m1 = temperature_ m2 ->
  TinyLlamaModel_generate_text env1 m1 prompt max_tokens temperature
  = TinyLlamaModel_generate_text env2 m2 prompt max_tokens temperature.
Proof.
  intros He Ht Htok Hemb Hpos Hblocks Hout Hcfg Htemp.
  destruct env1 as [e1 t1 r1 M1], env2 as [e2 t2 r2 M2].
  destruct m1, m2. cbn in He, Ht, Htok, Hemb, Hpos, Hblocks, Hout, Hcfg, Htemp.
  subst. apply generate_text_rand_independent.
Qed.

(** ** Cells of a matrix built cell by cell *)

Section BuildLemmas.
Context {T : Type} {E : Element T}.

Lemma build_length (r c : nat) (f : nat -> nat -> T) : length (build r c f) = (r * c)%nat.
Proof.
  unfold build.
  assert (H : forall s, length (flat_map (fun i => map (f i) (seq 0 c)) (seq s r))
                        = (r * c)%nat).
  { induction r as [|r IH]; intro s; cbn [seq flat_map]; [reflexivity|].
    rewrite length_app, length_map, length_seq, IH. lia. }
  apply H.
Qed.

Lemma nth_build_from (c : nat) (f : nat -> nat -> T) (d : T) (r : nat) :
  forall s i j, (s <= i < s + r)%nat -> (j < c)%nat ->
    nth ((i - s) * c + j) (flat_map (fun i => map (f i) (seq 0 c)) (seq s r)) d = f i j.
Proof.
  induction r as [|r IH]; intros s i j Hi Hj; [lia|].
  cbn [seq flat_map].
  destruct (Nat.eq_dec i s) as [->|Hne].
  - rewrite Nat.sub_diag. cbn [Nat.mul Nat.add].
    rewrite app_nth1 by now rewrite length_map, length_seq.
    rewrite (nth_indep _ d (f s 0%nat)) by now rewrite length_map, length_seq.
    rewrite map_nth, seq_nth by assumption. reflexivity.
  - rewrite app_nth2 by (rewrite length_map, length_seq; nia).
    rewrite length_map, length_seq.
    replace ((i - s) * c + j - c)%nat with ((i - S s) * c + j)%nat by nia.
    apply IH; lia.
Qed.

Lemma nth_build (r c : nat) (f : nat -> nat -> T) (d : T) (i j : nat) :
  (i < r)%nat -> (j < c)%nat -> nth (i * c + j) (build r c f) d = f i j.
Proof.
  intros Hi Hj. unfold build.
  pose proof (nth_build_from c f d r 0%nat i j) as H.
  rewrite Nat.sub_0_r in H. apply H; lia.
Qed.

Lemma get_Matrix_build (rows cols : N) (f : nat -> nat -> T) (i j : nat) :
  (i < N.to_nat rows)%nat -> (j < N.to_nat cols)%nat ->
  get (Matrix_build rows cols f) i j = f i j.
Proof.
  intros Hi Hj. unfold get, ncols, Matrix_build. cbn [data_ cols_].
  now apply nth_build.
Qed.

Lemma get_Matrix_map (g : T -> T) (rows cols : N) (f : nat -> nat -> T) (i j : nat) :
  (i < N.to_nat rows)%nat -> (j < N.to_nat cols)%nat ->
  get (Matrix_map g (Matrix_build rows cols f)) i j = g (f i j).
Proof.
  intros Hi Hj. unfold get, ncols, Matrix_map, Matrix_build. cbn [data_ cols_].
  rewrite (nth_indep _ T0 (g T0)) by (rewrite length_map, build_length; nia).
  rewrite map_nth. now rewrite nth_build.
Qed.

(** A fold over positions depends only on the values at those positions. *)
Lemma fold_left_seq_ext {A : Type} (g h : A -> nat -> A) (n : nat) :
  forall s a, (forall b k, (s <= k < s + n)%nat -> g b k = h b k) ->
    fold_left g (seq s n) a = fold_left h (seq s n) a.
Proof.
  induction n as [|n IH]; intros s a Hext; cbn [seq fold_left]; [reflexivity|].
  rewrite Hext by lia. apply IH. intros; apply Hext; lia.
Qed.
End BuildLemmas.

(** ** Rows of non-negative exponentials *)

(** ** Sums of non-negative numbers *)

Lemma fold_add_positive (l : list float32) :
  forall acc,
    nonneg_number acc -> Forall nonneg_number l ->
    nonneg_number (fold_left f32_add l acc) /\
    (positive_number acc \/ Exists positive_number l ->
     positive_number (fold_left f32_add l acc)).
Proof.
  induction l as [|x l IH]; intros acc Hacc Hl; cbn [fold_left].
  - split; [assumption|]. intros [H|H]; [assumption | inversion H].
  - apply Forall_cons_iff in Hl. destruct Hl as [Hx Hl].
    destruct (f32_add_positive acc x Hacc Hx) as [Hnn Hpos].
    destruct (IH (f32_add acc x) Hnn Hl) as [IH1 IH2].
    split; [assumption|]. intro H. apply IH2.
    destruct H as [H|H]; [left; apply Hpos; now left|].
    apply Exists_cons in H. destruct H as [H|H]; [left; apply Hpos; now right | now right].
Qed.

Lemma f32_div_zero_positive (s : float32) :
  positive_number s -> f32_div f32_zero s = f32_zero.
Proof. destruct s as [?|[|]| |[|] ? ?]; cbn; try contradiction; reflexivity. Qed.

(** ** The largest element of a row *)

Lemma fold_max_const (g : nat -> float32) (c : float32) (l : list nat) (acc : float32) :
  (forall j, In j l -> g j = c) -> f32_ltb acc c = false ->
  fold_left (fun m j => f32_max m (g j)) l acc = acc.
Proof.
  revert acc. induction l as [|j l IH]; intros acc Hg Hacc; cbn [fold_left]; [reflexivity|].
  rewrite (Hg j (or_introl eq_refl)). unfold f32_max at 2. rewrite Hacc.
  apply IH; [|assumption]. intros; apply Hg; now right.
Qed.

Lemma fold_max_attained (g : nat -> float32) (l : list nat) (acc : float32) :
  fold_left (fun m j => f32_max m (g j)) l acc = acc \/
  exists j, In j l /\ fold_left (fun m j => f32_max m (g j)) l acc = g j.
Proof.
  revert acc. induction l as [|j l IH]; intro acc; cbn [fold_left]; [now left|].
  destruct (IH (f32_max acc (g j))) as [H|(k & Hk & H)].
  - rewrite H. unfold f32_max. destruct (f32_ltb acc (g j)); [|now left].
    right. exists j. split; [now left | reflexivity].
  - right. exists k. split; [now right | assumption].
Qed.

Lemma nth_map_seq {A : Type} (f : nat -> A) (len b : nat) (d : A) :
  (b < len)%nat -> nth b (map f (seq 0 len)) d = f b.
Proof.
  intro Hb. rewrite (nth_indep _ d (f 0%nat)) by (rewrite length_map, length_seq; exact Hb).
  rewrite map_nth, seq_nth by exact Hb. reflexivity.
Qed.

Section MaskedRow.
Variable env : Env.
Hypothesis Henv : expf_conforms env.
Variable scores : Matrix float32.
Variables len i : nat.
Hypothesis i_lt_len : (i < len)%nat.
Hypothesis unmasked_finite : forall j, (j <= i)%nat -> f32_is_finite (get scores i j) = true.
Hypothesis masked : forall b, (i < b < len)%nat -> get scores i b = f32_m1e9.

Let M1 : float32 :=
  fold_left (fun m j => f32_max m (get scores i j)) (seq 0 (S i)) f32_neg_infinity.

Hypothesis Hclear : clears_sentinel M1.

Lemma row_max_unmasked : row_max scores len i = M1.
Proof.
  unfold row_max.
  replace len with (S i + (len - S i))%nat at 1 by lia.
  rewrite seq_app, fold_left_app. fold M1.
  apply fold_max_const with (c := f32_m1e9); [|exact (proj1 Hclear)].
  intros j Hj. apply in_seq in Hj. apply masked. lia.
Qed.

Lemma largest_unmasked_attained :
  exists j, (j <= i)%nat /\ M1 = get scores i j.
Proof.
  destruct (fold_max_attained (fun j => get scores i j) (seq 0 (S i)) f32_neg_infinity)
    as [H|(j & Hj & H)]; fold M1 in H.
  - destruct Hclear as [Hc _]. rewrite H in Hc. discriminate Hc.
  - exists j. apply in_seq in Hj. split; [lia | exact H].
Qed.

Lemma row_exponentials_nonneg :
  Forall nonneg_number (row_exp_values env scores len i) /\
  Exists positive_number (row_exp_values env scores len i) /\
  forall b, (i < b < len)%nat -> nth b (row_exp_values env scores len i) f32_zero = f32_zero.
Proof.
  destruct Henv as (Hzero & Hrange & _ & Hunder).
  destruct largest_unmasked_attained as (js & Hjs & HM1).
  assert (HM1fin : f32_is_finite M1 = true) by (rewrite HM1; now apply unmasked_finite).
  unfold row_exp_values. rewrite row_max_unmasked.
  split; [|split].
  - apply Forall_forall. intros e He. apply in_map_iff in He. destruct He as (j & <- & Hj).
    apply in_seq in Hj. destruct (Nat.le_gt_cases j i) as [Hle|Hgt].
    + destruct (Hrange (f32_sub (get scores i j) M1)) as [H0 HV].
      { apply f32_sub_number; [now apply unmasked_finite | exact HM1fin]. }
      now apply nonneg_number_of_valid.
    + rewrite masked by lia. rewrite (Hunder (f32_sub f32_m1e9 M1) (proj2 Hclear)). exact I.
  - apply Exists_exists. exists f32_one. split; [|cbn; lia].
    apply in_map_iff. exists js. split; [|apply in_seq; lia].
    rewrite <- HM1, f32_sub_self by exact HM1fin. apply Hzero.
  - intros b Hb. rewrite nth_map_seq by lia. rewrite masked by lia.
    apply Hunder. exact (proj2 Hclear).
Qed.

(** The weights of the masked positions are [+0]. *)
Lemma masked_weights_vanish (b : nat) :
  (i < b < len)%nat -> nth b (row_softmax env scores len i) f32_zero = f32_zero.
Proof.
  intro Hb. destruct row_exponentials_nonneg as (Hnn & Hpos & Hz).
  unfold row_softmax.
  set (exps := row_exp_values env scores len i) in *.
  set (sum := fold_left f32_add exps f32_zero).
  assert (Hsum : positive_number sum).
  { apply (fold_add_positive exps f32_zero); [exact I | exact Hnn | now right]. }
  assert (Hlen : length exps = len) by (unfold exps, row_exp_values; now rewrite length_map, length_seq).
  rewrite (nth_indep _ f32_zero (f32_div f32_zero sum)) by (rewrite length_map, Hlen; lia).
  rewrite (map_nth (fun e => f32_div e sum)), (Hz b Hb).
  now apply f32_div_zero_positive.
Qed.
End MaskedRow.

(** ** Sums whose last terms are zeros *)

Lemma f32_mul_in_format (a b : float32) : in_format (f32_mul a b).
Proof.
  destruct a as [sa|sa| |sa ma ea]; destruct b as [sb|sb| |sb mb eb]; try exact I.
  unfold f32_mul, SFmul.
  pose proof (binary_round_aux_signed (xorb sa sb) (Zpos (ma * mb)) (ea + eb) loc_Exact
                ltac:(lia)) as H.
  destruct (binary_round_aux 24 128 (xorb sa sb) (Zpos (ma * mb)) (ea + eb) loc_Exact);
    cbn in *; tauto.
Qed.

Lemma binary_round_settled (s : bool) (m : positive) (e : Z) :
  -149 <= e -> settled (binary_round 24 128 s m e).
Proof.
  intro He. destruct (binary_round_spec s m e He) as (m2 & E & Hm2 & _ & HE & -> & _).
  destruct (round_pack_cases s m2 E) as [(p & e' & -> & He')| ->]; try lia; cbn; tauto.
Qed.

Lemma f32_add_settled (acc t : float32) :
  settled acc -> in_format t -> settled (f32_add acc t).
Proof.
  intros Ha Ht.
  destruct acc as [sa|sa| |sa ma ea]; destruct t as [st|st| |st mt et];
    cbn [settled in_format] in *; try exact I; try assumption.
  - subst sa. destruct st; reflexivity.
  - destruct sa, st; exact I.
  - unfold f32_add, SFadd.
    set (z := cond_Zopp sa (Zpos (fst (shl_align ma ea (Z.min ea et))))
              + cond_Zopp st (Zpos (fst (shl_align mt et (Z.min ea et))))).
    destruct z as [|p|p]; cbn [binary_normalize].
    + reflexivity.
    + apply binary_round_settled. lia.
    + apply binary_round_settled. lia.
Qed.

Lemma f32_add_zero_absorbed (acc z : float32) :
  settled acc -> f32_is_zero z = true -> f32_add acc z = acc.
Proof.
  intros Ha Hz. destruct z as [sz| | |]; try discriminate Hz.
  destruct acc as [sa|sa| |sa ma ea]; cbn [settled] in Ha; try reflexivity.
  subst sa. destruct sz; reflexivity.
Qed.

Lemma f32_mul_zero_l (v : float32) :
  f32_is_finite v = true -> f32_is_zero (f32_mul f32_zero v) = true.
Proof. destruct v; try discriminate; reflexivity. Qed.

Lemma fold_products_settled (w v : nat -> float32) (l : list nat) :
  forall acc, settled acc ->
    settled (fold_left (fun sum k => f32_add sum (f32_mul (w k) (v k))) l acc).
Proof.
  induction l as [|k l IH]; intros acc Hacc; cbn [fold_left]; [assumption|].
  apply IH. apply f32_add_settled; [assumption | apply f32_mul_in_format].
Qed.

Lemma fold_zero_products (w v : nat -> float32) (l : list nat) :
  forall acc, settled acc ->
    (forall k, In k l -> w k = f32_zero /\ f32_is_finite (v k) = true) ->
    fold_left (fun sum k => f32_add sum (f32_mul (w k) (v k))) l acc = acc.
Proof.
  induction l as [|k l IH]; intros acc Hacc Hz; cbn [fold_left]; [reflexivity|].
  destruct (Hz k (or_introl eq_refl)) as [Hw Hv].
  rewrite Hw, f32_add_zero_absorbed; [|assumption | now apply f32_mul_zero_l].
  apply IH; [assumption|]. intros; apply Hz; now right.
Qed.

(** ** Causal attention *)

Section CausalAttention.
Variable env : Env.
Variables n d dv : N.
Variables Q K K' V V' : Matrix float32.
Variable i : nat.

Hypothesis n_fits : (n < size_t_modulus)%N.
Hypothesis Q_dims : rows_ Q = n /\ cols_ Q = d.
Hypothesis K_dims : rows_ K = n /\ cols_ K = d.
Hypothesis K'_dims : rows_ K' = n /\ cols_ K' = d.
Hypothesis V_dims : rows_ V = n /\ cols_ V = dv.
Hypothesis V'_dims : rows_ V' = n /\ cols_ V' = dv.
Hypothesis i_lt_n : (i < N.to_nat n)%nat.
Hypothesis K_agree :
  forall j c, (j <= i)%nat -> (c < N.to_nat d)%nat -> get K j c = get K' j c.
Hypothesis V_agree :
  forall j c, (j <= i)%nat -> (c < N.to_nat dv)%nat -> get V j c = get V' j c.

Let mask : Matrix float32 := TinyLlamaModel_create_attention_mask (Z.of_N n).

Let scale_factor : float32 := f32_div f32_one (f32_sqrt (f32_of_Z (Z.of_N d))).

(** The scaled scores before masking, for a key matrix [X]. *)
Let scaled (X : Matrix float32) : Matrix float32 :=
  Matrix_map (fun s => f32_mul s scale_factor)
             (Matrix_build n n (dot Q (Matrix_transpose X))).

Lemma mask_dims : rows_ mask = n /\ cols_ mask = n.
Proof.
  unfold mask, TinyLlamaModel_create_attention_mask, Matrix_build. cbn [rows_ cols_].
  unfold to_size_t. unfold size_t_modulus in n_fits.
  rewrite Z.mod_small by (change (2 ^ 64) with (Z.of_N (2 ^ 64)%N); lia).
  now rewrite N2Z.id.
Qed.

Lemma get_mask (a b : nat) :
  (a < N.to_nat n)%nat -> (b < N.to_nat n)%nat ->
  get mask a b = if (b <=? a)%nat then f32_one else f32_zero.
Proof.
  intros Ha Hb. destruct mask_dims as [Hr Hc].
  unfold mask, TinyLlamaModel_create_attention_mask in *. cbn [Matrix_build rows_ cols_] in Hr, Hc.
  rewrite get_Matrix_build; [reflexivity | now rewrite Hr | now rewrite Hr].
Qed.

Lemma masked_scores_causal (X : Matrix float32) :
  rows_ X = n /\ cols_ X = d ->
  masked_scores Q X (Some mask) = Ok (apply_mask mask (scaled X)).
Proof.
  intros [Xr Xc]. destruct Q_dims as [Qr Qc]. destruct mask_dims as [Mr Mc].
  unfold masked_scores, Matrix_mul.
  cbn [Matrix_transpose Matrix_build rows_ cols_].
  rewrite Qc, Xc, N.eqb_refl. cbn [bind].
  rewrite Mr, Mc, Qr, N.eqb_refl. cbn [andb].
  unfold scaled, scale_factor. now rewrite Xr.
Qed.

Lemma get_masked (X : Matrix float32) (a b : nat) :
  (a < N.to_nat n)%nat -> (b < N.to_nat n)%nat ->
  get (apply_mask mask (scaled X)) a b
  = if (b <=? a)%nat then f32_mul (dot Q (Matrix_transpose X) a b) scale_factor
    else f32_m1e9.
Proof.
  intros Ha Hb. destruct mask_dims as [Mr Mc].
  unfold apply_mask. rewrite get_Matrix_build by (cbn; assumption).
  unfold nrows, ncols. rewrite Mr, Mc.
  replace (a <? N.to_nat n)%nat with true by (symmetry; now apply Nat.ltb_lt).
  replace (b <? N.to_nat n)%nat with true by (symmetry; now apply Nat.ltb_lt).
  rewrite get_mask by assumption. cbn [andb].
  destruct (b <=? a)%nat.
  - change (f32_eqb f32_one f32_zero) with false. cbv iota.
    unfold scaled. now rewrite get_Matrix_map.
  - reflexivity.
Qed.

(** A score in row [i] at or before position [i] reads row [j] of the key
    matrix only; after position [i] it is the sentinel. *)
Lemma dot_transpose_agree (b : nat) :
  (b <= i)%nat ->
  dot Q (Matrix_transpose K) i b = dot Q (Matrix_transpose K') i b.
Proof.
  intro Hb. destruct K_dims as [Kr Kc]. destruct K'_dims as [K'r K'c].
  destruct Q_dims as [Qr Qc].
  unfold dot. apply fold_left_seq_ext. intros sum k Hk.
  unfold ncols in Hk. rewrite Qc in Hk.
  unfold Matrix_transpose.
  rewrite !get_Matrix_build by (rewrite ?Kc, ?Kr, ?K'c, ?K'r; lia).
  rewrite K_agree by lia. reflexivity.
Qed.

Lemma masked_row_agree (b : nat) :
  (b < N.to_nat n)%nat ->
  get (apply_mask mask (scaled K)) i b = get (apply_mask mask (scaled K')) i b.
Proof.
  intro Hb. rewrite !get_masked by assumption.
  destruct (b <=? i)%nat eqn:Hbi; [|reflexivity].
  apply Nat.leb_le in Hbi. now rewrite dot_transpose_agree.
Qed.

Lemma row_softmax_ext (S S' : Matrix float32) (len : nat) :
  (forall b, (b < len)%nat -> get S i b = get S' i b) ->
  row_softmax env S len i = row_softmax env S' len i.
Proof.
  intro Hext.
  assert (Hmax : row_max S len i = row_max S' len i).
  { unfold row_max. apply fold_left_seq_ext. intros m k Hk. rewrite Hext by lia. reflexivity. }
  assert (Hexp : row_exp_values env S len i = row_exp_values env S' len i).
  { unfold row_exp_values. rewrite Hmax. apply map_ext_in. intros k Hk.
    apply in_seq in Hk. rewrite Hext by lia. reflexivity. }
  unfold row_softmax. now rewrite Hexp.
Qed.

Lemma attention_weights_causal (X : Matrix float32) :
  rows_ X = n /\ cols_ X = d ->
  attention_weights env Q X (Some mask)
  = Ok (softmax_rows env (apply_mask mask (scaled X)) n).
Proof.
  intro HX. destruct Q_dims as [Qr Qc].
  unfold attention_weights. rewrite (masked_scores_causal X HX). cbn [bind].
  rewrite Qr.
  replace (cols_ (apply_mask mask (scaled X))) with n.
  - rewrite N.ltb_irrefl, andb_false_r. reflexivity.
  - unfold apply_mask, scaled. reflexivity.
Qed.

(** Row [i] of the attention weights does not depend on the key rows after
    position [i]. *)
Lemma weights_row_agree (b : nat) :
  (b < N.to_nat n)%nat ->
  get (softmax_rows env (apply_mask mask (scaled K)) n) i b
  = get (softmax_rows env (apply_mask mask (scaled K')) n) i b.
Proof.
  intro Hb. unfold softmax_rows. rewrite !get_Matrix_build by assumption.
  now rewrite (row_softmax_ext _ _ _ masked_row_agree).
Qed.

Lemma sdpa_causal (X Y : Matrix float32) :
  rows_ X = n /\ cols_ X = d -> rows_ Y = n /\ cols_ Y = dv ->
  scaled_dot_product_attention env Q X Y (Some mask)
  = Ok (Matrix_build n dv (dot (softmax_rows env (apply_mask mask (scaled X)) n) Y)).
Proof.
  intros HX [Yr Yc]. unfold scaled_dot_product_attention.
  rewrite (attention_weights_causal X HX). cbn [bind].
  unfold Matrix_mul. cbn [softmax_rows Matrix_build rows_ cols_].
  now rewrite Yr, Yc, N.eqb_refl.
Qed.

Let W : Matrix float32 := softmax_rows env (apply_mask mask (scaled K)) n.
Let W' : Matrix float32 := softmax_rows env (apply_mask mask (scaled K')) n.

Lemma ncols_weights : ncols W = N.to_nat n /\ ncols W' = N.to_nat n.
Proof. split; reflexivity. Qed.

(** The terms of the output sum up to position [i] are the same in both runs. *)
Lemma dot_prefix_agree (c : nat) :
  (c < N.to_nat dv)%nat ->
  fold_left (fun sum k => Tadd sum (Tmul (get W i k) (get V k c))) (seq 0 (S i)) T0
  = fold_left (fun sum k => Tadd sum (Tmul (get W' i k) (get V' k c))) (seq 0 (S i)) T0.
Proof.
  intro Hc. apply fold_left_seq_ext. intros sum k Hk.
  unfold W, W'. rewrite weights_row_agree by lia. rewrite V_agree by lia. reflexivity.
Qed.

Lemma dot_split (A B : Matrix float32) (c : nat) :
  ncols A = N.to_nat n ->
  dot A B i c
  = fold_left (fun sum k => Tadd sum (Tmul (get A i k) (get B k c)))
      (seq (S i) (N.to_nat n - S i))
      (fold_left (fun sum k => Tadd sum (Tmul (get A i k) (get B k c))) (seq 0 (S i)) T0).
Proof.
  intro HA. unfold dot. rewrite HA.
  replace (N.to_nat n) with (S i + (N.to_nat n - S i))%nat at 1 by lia.
  now rewrite seq_app, fold_left_app.
Qed.

(** With the same values, row [i] of the output is the same to the bit. *)
Lemma output_row_agree_same_values (c : nat) :
  V = V' -> dot W V i c = dot W' V' i c.
Proof.
  intro HV. rewrite <- HV. unfold dot. destruct ncols_weights as [-> ->].
  apply fold_left_seq_ext. intros sum k Hk.
  unfold W, W'. now rewrite weights_row_agree by lia.
Qed.

(** From here on: [expf] respects the range of the exponential, the unmasked
    scores of row [i] are finite, the largest of them clears the sentinel,
    and the value rows after [i] are finite in both runs. *)
Hypothesis Henv : expf_conforms env.
Hypothesis scores_finite :
  forall j, (j <= i)%nat -> f32_is_finite (attention_score Q K i j) = true.
Hypothesis Hclear : clears_sentinel (largest_unmasked_score Q K i).
Hypothesis V_finite :
  forall b c, (i < b < N.to_nat n)%nat -> (c < N.to_nat dv)%nat ->
              f32_is_finite (get V b c) = true /\ f32_is_finite (get V' b c) = true.

Lemma get_unmasked (b : nat) :
  (b <= i)%nat -> get (apply_mask mask (scaled K)) i b = attention_score Q K i b.
Proof.
  intro Hb. rewrite get_masked by lia.
  replace (b <=? i)%nat with true by (symmetry; now apply Nat.leb_le).
  unfold attention_score, scale_factor. destruct Q_dims as [_ ->]. reflexivity.
Qed.

Lemma get_sentinel (b : nat) :
  (i < b < N.to_nat n)%nat -> get (apply_mask mask (scaled K)) i b = f32_m1e9.
Proof.
  intro Hb. rewrite get_masked by lia.
  replace (b <=? i)%nat with false by (symmetry; apply Nat.leb_gt; lia). reflexivity.
Qed.

(** The mask takes effect: the weights of row [i] after position [i] are
    [+0]. *)
Lemma weights_vanish (b : nat) :
  (i < b < N.to_nat n)%nat -> get W i b = f32_zero.
Proof.
  intro Hb. unfold W, softmax_rows. rewrite get_Matrix_build by lia.
  apply (masked_weights_vanish env Henv (apply_mask mask (scaled K)) (N.to_nat n) i).
  - exact i_lt_n.
  - intros j Hj. rewrite get_unmasked by exact Hj. now apply scores_finite.
  - apply get_sentinel.
  - rewrite (fold_left_seq_ext _ (fun max_val j => f32_max max_val (attention_score Q K i j))).
    + exact Hclear.
    + intros m k Hk. rewrite get_unmasked by lia. reflexivity.
  - exact Hb.
Qed.

(** Row [i] of the output is then the same in both runs, to the bit: the
    terms after position [i] are zeros, and adding a zero to a sum that
    started from [+0] changes nothing. *)
Lemma output_row_identical (c : nat) :
  (c < N.to_nat dv)%nat -> dot W V i c = dot W' V' i c.
Proof.
  intro Hc. destruct ncols_weights as [HW HW'].
  rewrite (dot_split W V c HW), (dot_split W' V' c HW'), dot_prefix_agree by assumption.
  set (P := fold_left (fun sum k => Tadd sum (Tmul (get W' i k) (get V' k c)))
                      (seq 0 (S i)) T0).
  assert (HP : settled P).
  { exact (fold_products_settled (fun k => get W' i k) (fun k => get V' k c)
             (seq 0 (S i)) f32_zero eq_refl). }
  transitivity P.
  - apply (fold_zero_products (fun k => get W i k) (fun k => get V k c)); [exact HP|].
    intros k Hk. apply in_seq in Hk. split.
    + apply weights_vanish. lia.
    + apply (V_finite k c); lia.
  - symmetry.
    apply (fold_zero_products (fun k => get W' i k) (fun k => get V' k c)); [exact HP|].
    intros k Hk. apply in_seq in Hk. split.
    + unfold W'. rewrite <- weights_row_agree by lia. apply weights_vanish. lia.
    + apply (V_finite k c); lia.
Qed.
End CausalAttention.

(** ** C5: the causal mask *)

(** C5, as stated, fails.  Two positions, head dimension 1: the only score
    position 0 may use is [1 * -3e9], which is below the sentinel [-1e9]
    written at the masked position 1.  The row maximum is then the sentinel,
    [exp(-3e9 - -1e9)] is 0 and [exp(0)] is 1, so position 0 puts all its
    weight on position 1 and its output is row 1 of [V]: the two runs differ
    only in that row and differ in output row 0. *)
Lemma causal_mask_future_value_leak :
  let mask := Some (TinyLlamaModel_create_attention_mask 2) in
  get leak_V 0 0 = get leak_V' 0 0 /\
  attention_weights sample_env leak_Q leak_K mask
  = Ok (mkMatrix [f32_zero; f32_one; f32_zero; f32_one] 2 2) /\
  scaled_dot_product_attention sample_env leak_Q leak_K leak_V mask
  = Ok (mkMatrix [f32_one; f32_one] 2 1) /\
  scaled_dot_product_attention sample_env leak_Q leak_K leak_V' mask
  = Ok (mkMatrix [f32_two; f32_two] 2 1) /\
  row (mkMatrix [f32_one; f32_one] 2 1) 0 <> row (mkMatrix [f32_two; f32_two] 2 1) 0.
Proof.
  cbv zeta. repeat split; try (vm_compute; reflexivity).
  vm_compute. discriminate.
Qed.

(** C5, amended.  For causal-masked attention over [n] positions, let two
    runs share [Q] and have [K] and [V] inputs that agree on rows [0..i].
    Both runs return, row [i] of the attention weights is the same in both
    (it does not read the key rows after [i]), and if the value inputs are
    equal, output row [i] is identical.  When moreover [expf] respects the
    range of the exponential, the unmasked scores of row [i] (the scaled dot
    products of query row [i] with the key rows [0..i]) are finite, the
    largest of them clears the sentinel (it is not below [-1e9f], and
    [-1e9f] minus it is below -104, where [expf] underflows), and the value
    rows after [i] are finite in both runs, then the weights of row [i]
    after position [i] are [+0] and output row [i] is identical in both
    runs, to the bit. *)
Theorem causal_attention_row_invariance (env : Env) (n d dv : N)
  (Q K K' V V' : Matrix float32) (i : nat) :
  (n < size_t_modulus)%N ->
  rows_ Q = n /\ cols_ Q = d ->
  rows_ K = n /\ cols_ K = d ->
  rows_ K' = n /\ cols_ K' = d ->
  rows_ V = n /\ cols_ V = dv ->
  rows_ V' = n /\ cols_ V' = dv ->
  (i < N.to_nat n)%nat ->
  (forall j c, (j <= i)%nat -> (c < N.to_nat d)%nat -> get K j c = get K' j c) ->
  (forall j c, (j <= i)%nat -> (c < N.to_nat dv)%nat -> get V j c = get V' j c) ->
  let mask := Some (TinyLlamaModel_create_attention_mask (Z.of_N n)) in
  exists W W' o o' : Matrix float32,
    attention_weights env Q K mask = Ok W /\
    attention_weights env Q K' mask = Ok W' /\
    scaled_dot_product_attention env Q K V mask = Ok o /\
    scaled_dot_product_attention env Q K' V' mask = Ok o' /\
    (forall b, (b < N.to_nat n)%nat -> get W i b = get W' i b) /\
    (V = V' -> row o i = row o' i) /\
    (expf_conforms env ->
     (forall j, (j <= i)%nat -> f32_is_finite (attention_score Q K i j) = true) ->
     clears_sentinel (largest_unmasked_score Q K i) ->
     (forall b c, (i < b < N.to_nat n)%nat -> (c < N.to_nat dv)%nat ->
                  f32_is_finite (get V b c) = true /\ f32_is_finite (get V' b c) = true) ->
     (forall b, (i < b < N.to_nat n)%nat -> get W i b = f32_zero) /\
     row o i = row o' i).
Proof.
  intros Hn HQ HK HK' HV HV' Hi HKa HVa mask.
  pose proof (attention_weights_causal env n d dv Q K K' V V' i Hn HQ HK HK' HV HV' Hi) as HW.
  pose proof (sdpa_causal env n d dv Q K K' V V' i Hn HQ HK HK' HV HV' Hi) as Ho.
  pose proof (weights_row_agree env n d dv Q K K' V V' i Hn HQ HK HK' HV HV' Hi HKa) as Hrow.
  do 4 eexists.
  split; [apply (HW K HK)|].
  split; [apply (HW K' HK')|].
  split; [apply (Ho K V HK HV)|].
  split; [apply (Ho K' V' HK' HV')|].
  split; [exact Hrow|split].
  - intro HVV. unfold row, ncols. cbn [Matrix_build cols_].
    apply map_ext_in. intros c Hc. apply in_seq in Hc.
    rewrite !get_Matrix_build by (try assumption; lia).
    now apply (output_row_agree_same_values env n d dv Q K K' V V' i
                 Hn HQ HK HK' HV HV' Hi HKa).
  - intros Henv Hfin Hclear HVfin. split.
    + intros b Hb.
      apply (weights_vanish env n d dv Q K K' V V' i Hn HQ HK HK' HV HV' Hi Henv Hfin Hclear b Hb).
    + unfold row, ncols. cbn [Matrix_build cols_].
      apply map_ext_in. intros c Hc. apply in_seq in Hc.
      rewrite !get_Matrix_build by (try assumption; lia).
      apply (output_row_identical env n d dv Q K K' V V' i Hn HQ HK HK' HV HV' Hi HKa HVa
               Henv Hfin Hclear HVfin c). lia.
Qed.

Lemma causal_attention_row_invariance_witness :
  let mask := Some (TinyLlamaModel_create_attention_mask 2) in
  exists W W' o o' : Matrix float32,
    attention_weights ranged_env masked_Q masked_K mask = Ok W /\
    attention_weights ranged_env masked_Q masked_K' mask = Ok W' /\
    scaled_dot_product_attention ranged_env masked_Q masked_K masked_V mask = Ok o /\
    scaled_dot_product_attention ranged_env masked_Q masked_K' masked_V' mask = Ok o' /\
    (forall b, (b < 2)%nat -> get W 0 b = get W' 0 b) /\
    (masked_V = masked_V' -> row o 0 = row o' 0) /\
    (forall b, (0 < b < 2)%nat -> get W 0 b = f32_zero) /\
    row o 0 = row o' 0.
Proof.
  intro mask.
  destruct (causal_attention_row_invariance ranged_env 2 1 1
              masked_Q masked_K masked_K' masked_V masked_V' 0)
    as (W & W' & o & o' & H1 & H2 & H3 & H4 & H5 & H6 & H7).
  - reflexivity.
  - split; reflexivity.
  - split; reflexivity.
  - split; reflexivity.
  - split; reflexivity.
  - split; reflexivity.
  - apply Nat.lt_0_succ.
  - intros j c Hj Hc. apply Nat.le_0_r in Hj. apply Nat.lt_1_r in Hc. subst. reflexivity.
  - intros j c Hj Hc. apply Nat.le_0_r in Hj. apply Nat.lt_1_r in Hc. subst. reflexivity.
  - exists W, W', o, o'.
    split; [exact H1|]. split; [exact H2|]. split; [exact H3|]. split; [exact H4|].
    split; [exact H5|]. split; [exact H6|].
    apply H7.
    + exact ranged_env_conforms.
    + intros j Hj. apply Nat.le_0_r in Hj. subst j. vm_compute. reflexivity.
    + split; vm_compute; reflexivity.
    + intros b c Hb Hc. assert (b = 1%nat) by lia. apply Nat.lt_1_r in Hc. subst b c.
      split; reflexivity.
Defined.

(** On the second pair of sample runs, with the sample libm: the masked
    weight of row 0 is zero, and output row 0 is the same in both runs. *)
Example masked_weights_are_zero :
  let mask := Some (TinyLlamaModel_create_attention_mask 2) in
  match attention_weights sample_env masked_Q masked_K mask,
        scaled_dot_product_attention sample_env masked_Q masked_K masked_V mask,
        scaled_dot_product_attention sample_env masked_Q masked_K' masked_V' mask with
  | Ok W, Ok o, Ok o' =>
      get W 0 0 = f32_one /\ get W 0 1 = f32_zero /\ row o 0 = [f32_half] /\ row o' 0 = [f32_half]
  | _, _, _ => False
  end.
Proof. vm_compute. repeat split. Qed.

(** ** Files for the sample models *)

(** The model is what [load_model_weights] produces from a weight file. *)
Example favourite_model_loaded :
  match TinyLlamaModel_ctor sample_env favourite_config with
  | Ok m =>
      TinyLlamaModel_load_model_weights m "weights.bin"
        (fs_write empty_fs "weights.bin" (save_model_weights_bytes_spec (favourite_model 3)))
      = Ok (favourite_model 3)
  | _ => False
  end.
Proof. vm_compute. reflexivity. Qed.

(** ** C1: the configuration header *)

(** C1 fails on the code.  [load_model_weights] compares four of the seven
    header fields (model_dim, num_layers, num_heads, vocab_size).  The other
    three are read and never looked at: the outcome of a load is the same
    for every value of ffn_hidden_dim, max_sequence_length and dropout_rate
    in the header; and a file for the configuration (2, 1, 1, 2, 4, 5, 0.1)
    whose header says ffn_hidden_dim 99, max_sequence_length 77 and
    dropout_rate 0.5 loads without error into a model of that
    configuration. *)
Theorem load_model_weights_unchecked_header_fields :
  (forall (m : TinyLlamaModel) (md nl nh vs ffn1 ffn2 len1 len2 : Z)
          (drop1 drop2 : float32) (body : list byte),
      load_model_weights_body m
        (ifstream_open (header_bytes (mkConfig md nl nh ffn1 len1 vs drop1) ++ body))
      = load_model_weights_body m
          (ifstream_open (header_bytes (mkConfig md nl nh ffn2 len2 vs drop2) ++ body)))
  /\
  (forall env : Env,
      match TinyLlamaModel_ctor env tiny_config with
      | Ok m =>
          let file := header_bytes (mkConfig 2 1 1 99 77 5 f32_half) ++ save_body_bytes m in
          match TinyLlamaModel_load_model_weights m "weights.bin"
                  (fs_write empty_fs "weights.bin" file) with
          | Ok m' => config_ m' = tiny_config
          | _ => False
          end
      | _ => False
      end).
Proof.
  split.
  - intros. reflexivity.
  - intro env. lazy. reflexivity.
Qed.

(** ** C2: what [save_model_weights] writes for the layers *)

(** C2 fails on the code.  The bytes written for the layers are a function
    of the configuration alone ([save_layer_bytes]: every matrix is filled
    with 0.1, every layer-norm weight with 1, every bias with 0), so the
    file is the same whatever the blocks hold; and for a freshly constructed
    model the file differs from the one the specification describes -- for
    instance the record written for [linear1] holds 0.1 where the in-memory
    matrix holds 0. *)
Theorem save_model_weights_writes_placeholders :
  (forall (m : TinyLlamaModel) (blocks : list TransformerBlock),
      save_model_weights_bytes (with_blocks m blocks) = save_model_weights_bytes m)
  /\
  match TinyLlamaModel_ctor sample_env tiny_config with
  | Ok m =>
      match transformer_blocks_ m with
      | [b] =>
          linear1_weights_ (ffn_ b) = mkMatrix (repeat f32_zero 4) 2 2 /\
          firstn 32 (skipn 268 (save_model_weights_bytes m))
          = matrix_bytes (mkMatrix (repeat f32_tenth 4) 2 2) /\
          firstn 32 (skipn 268 (save_model_weights_bytes_spec m))
          = matrix_bytes (linear1_weights_ (ffn_ b)) /\
          save_model_weights_bytes m <> save_model_weights_bytes_spec m
      | _ => False
      end
  | _ => False
  end.
Proof.
  split.
  - intros. reflexivity.
  - vm_compute.
    split; [reflexivity|]. split; [reflexivity|]. split; [reflexivity|].
    intro H. apply (f_equal (fun l => nth 284 l x00)) in H.
    vm_compute in H. discriminate.
Qed.

(** ** C3: the initialisation state *)

Lemma fresh_tokenizer_has_vocabulary (env : Env) (c : ModelConfig) (m : TinyLlamaModel) :
  TinyLlamaModel_ctor env c = Ok m -> TinyLlamaModel_is_initialized m = true.
Proof.
  unfold TinyLlamaModel_ctor, TinyLlamaModel_ctor_at.
  destruct (make_blocks env (Z.to_nat (num_layers c)) 0 c) as [[blocks k]| |]; cbn [bind];
    intro H; inversion H; subst. reflexivity.
Qed.

(** C3 fails on the code.  [is_initialized] only asks whether the tokenizer
    reports a non-zero vocabulary size, and the vocabulary of a freshly
    constructed tokenizer already holds the four special tokens.  So every
    freshly constructed model reports itself initialised (for every
    configuration the constructor accepts, before any vocabulary or weight
    file is loaded), and, with the configuration of tests/test_model.cpp,
    [forward([1, 2, 3])] throws nothing and returns 100 logits. *)
Theorem fresh_model_is_initialized :
  (forall (env : Env) (c : ModelConfig) (m : TinyLlamaModel),
      TinyLlamaModel_ctor env c = Ok m -> TinyLlamaModel_is_initialized m = true)
  /\
  (forall env : Env,
      match TinyLlamaModel_ctor env test_config with
      | Ok m =>
          BPETokenizer_vocab_size BPETokenizer_ctor = 4%N /\
          TinyLlamaModel_is_initialized m = true /\
          match TinyLlamaModel_forward env m [1; 2; 3] with
          | Ok logits => length logits = 100%nat
          | _ => False
          end
      | _ => False
      end).
Proof.
  split.
  - exact fresh_tokenizer_has_vocabulary.
  - intro env. lazy. repeat split.
Qed.

(** ** C4: the end of the generation loop *)

(** One turn of the loop: after the sampled token has been appended, the
    loop ends exactly when that token is 2. *)
Lemma generate_loop_turn (env : Env) (m : TinyLlamaModel) (temperature : float32)
  (fuel : nat) (tokens : list Z) (logits : list float32) (next_token : Z) :
  (to_size_t (max_sequence_length (config_ m)) <=? N.of_nat (length tokens))%N = false ->
  TinyLlamaModel_forward env m tokens = Ok logits ->
  TinyLlamaModel_sample_token
    (TinyLlamaModel_softmax env m logits
       (if f32_ltb f32_zero temperature then temperature else temperature_ m))
  = Ok next_token ->
  generate_loop env m temperature (S fuel) tokens
  = if next_token =? 2 then Ok (tokens ++ [next_token])
    else generate_loop env m temperature fuel (tokens ++ [next_token]).
Proof.
  intros Hlen Hfwd Hsample. cbn [generate_loop].
  rewrite Hlen, Hfwd. cbn [bind]. rewrite Hsample. reflexivity.
Qed.

(** C4 fails on the code.  The test at the end of a turn compares the
    sampled token with the literal 2, which under the default special-token
    layout is the id of the begin-of-sequence token; the end-of-sequence id
    is 3.  A model whose next token is always 3 keeps generating until
    [max_tokens] is used up, and a model whose next token is 2 stops after
    one token. *)
Theorem generate_text_stops_on_literal_two :
  (option_map (fun t => Vocabulary_eos_id (vocab_ t)) (tokenizer_ (favourite_model 3)) = Some 3
   /\ Vocabulary_get_token Vocabulary_ctor 2 = BOS_TOKEN
   /\ Vocabulary_get_token Vocabulary_ctor 3 = EOS_TOKEN)
  /\
  (generate_loop sample_env (favourite_model 3) f32_one 3 [0] = Ok [0; 3; 3; 3]
   /\ TinyLlamaModel_generate_text sample_env (favourite_model 3) "a" 3 f32_one
      = Ok "a<eos><eos><eos>"%string)
  /\
  (generate_loop sample_env (favourite_model 2) f32_one 3 [0] = Ok [0; 2]
   /\ TinyLlamaModel_generate_text sample_env (favourite_model 2) "a" 3 f32_one
      = Ok "a<bos>"%string).
Proof.
  split; [|split].
  - repeat split.
  - split; vm_compute; reflexivity.
  - split; vm_compute; reflexivity.
Qed.

Lemma generate_text_deterministic_witness :
  TinyLlamaModel_generate_text sample_env (favourite_model 3) "a" 3 f32_one
  = TinyLlamaModel_generate_text other_rand_env
      (TinyLlamaModel_set_temperature (favourite_model 3) f32_one) "a" 3 f32_one.
Proof.
  apply (generate_text_deterministic sample_env other_rand_env
           (favourite_model 3) (TinyLlamaModel_set_temperature (favourite_model 3) f32_one)
           "a" 3 f32_one); reflexivity.
Defined.

(* ------------------------------------------------------------------ *)
(** * Further properties *)

(** ** The numeric container *)

(* ---------- lemmas ---------- *)
Section MoreBuild.
Context {T : Type} {E : Element T}.

Lemma build_ext (r c : nat) (f g : nat -> nat -> T) :
  (forall i j, (i < r)%nat -> (j < c)%nat -> f i j = g i j) -> build r c f = build r c g.
Proof.
  intro Hext. apply (nth_ext _ _ T0 T0).
  - now rewrite !build_length.
  - intros k Hk. rewrite build_length in Hk.
    assert (Hc : (0 < c)%nat) by (destruct c; [lia | lia]).
    assert (Hi : (k / c < r)%nat) by (apply Nat.Div0.div_lt_upper_bound; lia).
    assert (Hj : (k mod c < c)%nat) by (apply Nat.mod_upper_bound; lia).
    replace k with ((k / c) * c + k mod c)%nat at 1 2
      by (pose proof (Nat.div_mod_eq k c); lia).
    rewrite !nth_build by assumption. now apply Hext.
Qed.

Lemma build_of_nth (r c : nat) (l : list T) :
  length l = (r * c)%nat -> build r c (fun i j => nth (i * c + j) l T0) = l.
Proof.
  intro Hlen. apply (nth_ext _ _ T0 T0).
  - now rewrite build_length.
  - intros k Hk. rewrite build_length in Hk.
    assert (Hc : (0 < c)%nat) by (destruct c; [lia | lia]).
    assert (Hi : (k / c < r)%nat) by (apply Nat.Div0.div_lt_upper_bound; lia).
    assert (Hj : (k mod c < c)%nat) by (apply Nat.mod_upper_bound; lia).
    assert (Hk' : k = ((k / c) * c + k mod c)%nat)
      by (pose proof (Nat.div_mod_eq k c); lia).
    rewrite Hk' at 1. rewrite nth_build by assumption. now rewrite <- Hk'.
Qed.
End MoreBuild.

Lemma exact_size (rows cols : N) :
  (rows * cols < size_t_modulus)%N ->
  N.to_nat (size_mul rows cols) = (N.to_nat rows * N.to_nat cols)%nat.
Proof.
  intro H. unfold size_mul. rewrite N.mod_small by exact H. lia.
Qed.

(** Inside the matrix the index arithmetic of [operator()] does not wrap. *)
Lemma Matrix_at_inside {T : Type} {E : Element T} (m : Matrix T) (row col : N) :
  (rows_ m * cols_ m < size_t_modulus)%N ->
  (row < rows_ m)%N -> (col < cols_ m)%N ->
  Matrix_at m row col = Ok (nth (N.to_nat row * ncols m + N.to_nat col) (data_ m) T0).
Proof.
  intros Hfit Hr Hc. unfold Matrix_at.
  replace (rows_ m <=? row)%N with false by (symmetry; apply N.leb_gt; lia).
  replace (cols_ m <=? col)%N with false by (symmetry; apply N.leb_gt; lia).
  cbn [orb]. unfold size_t_modulus in *.
  unfold ncols, size_add, size_mul, size_t_modulus.
  rewrite (N.mod_small (row * cols_ m)) by nia.
  rewrite N.mod_small by nia.
  do 2 f_equal. lia.
Qed.

(** X1. For a matrix whose buffer holds [rows * cols] elements (the product
    not wrapping around), the checked access [operator()(row, col)] returns
    element [row * cols + col] of the buffer, a position inside the buffer,
    when [row < rows] and [col < cols]; otherwise it throws
    [std::out_of_range]. *)
Theorem Matrix_at_checked {T : Type} {E : Element T} (m : Matrix T) (row col : N) :
  Matrix_wf m ->
  (rows_ m * cols_ m < size_t_modulus)%N ->
  if ((row <? rows_ m) && (col <? cols_ m))%N
  then Matrix_at m row col = Ok (get m (N.to_nat row) (N.to_nat col)) /\
       (N.to_nat row * ncols m + N.to_nat col < length (data_ m))%nat
  else Matrix_at m row col = Throw (std_out_of_range "Matrix index out of bounds").
Proof.
  intros (_ & _ & Hlen) Hfit. rewrite exact_size in Hlen by exact Hfit.
  destruct (row <? rows_ m)%N eqn:Hr; cbn [andb].
  - destruct (col <? cols_ m)%N eqn:Hc.
    + apply N.ltb_lt in Hr, Hc. split.
      * now apply Matrix_at_inside.
      * rewrite Hlen. unfold ncols. nia.
    + apply N.ltb_ge in Hc. unfold Matrix_at.
      replace (cols_ m <=? col)%N with true by (symmetry; apply N.leb_le; lia).
      now rewrite orb_true_r.
  - apply N.ltb_ge in Hr. unfold Matrix_at.
    replace (rows_ m <=? row)%N with true by (symmetry; apply N.leb_le; lia).
    reflexivity.
Qed.

Lemma Matrix_at_checked_witness :
  (Matrix_at roundtrip_sample 1 2 = Ok (get roundtrip_sample 1 2) /\
   (1 * ncols roundtrip_sample + 2 < length (data_ roundtrip_sample))%nat) /\
  Matrix_at roundtrip_sample 2 0 = Throw (std_out_of_range "Matrix index out of bounds").
Proof.
  split.
  - apply (Matrix_at_checked roundtrip_sample 1 2); [repeat split | reflexivity].
  - apply (Matrix_at_checked roundtrip_sample 2 0); [repeat split | reflexivity].
Defined.

(** X2. Transposing twice gives the matrix back, and cell [(j, i)] of the
    transpose is cell [(i, j)] of the matrix. *)
Theorem Matrix_transpose_involutive {T : Type} {E : Element T} (m : Matrix T) :
  Matrix_wf m ->
  (rows_ m * cols_ m < size_t_modulus)%N ->
  Matrix_transpose (Matrix_transpose m) = m /\
  forall i j, (i < nrows m)%nat -> (j < ncols m)%nat ->
              get (Matrix_transpose m) j i = get m i j.
Proof.
  intros (_ & _ & Hlen) Hfit. rewrite exact_size in Hlen by exact Hfit.
  split.
  - unfold Matrix_transpose at 1. unfold Matrix_build.
    cbn [rows_ cols_ Matrix_transpose Matrix_build].
    destruct m as [data rows cols]. cbn [data_ rows_ cols_] in *. f_equal.
    transitivity (build (N.to_nat rows) (N.to_nat cols)
                    (fun i j => nth (i * N.to_nat cols + j) data T0));
      [|now apply build_of_nth].
    apply build_ext. intros i j Hi Hj.
    unfold Matrix_transpose. cbn [rows_ cols_].
    rewrite get_Matrix_build by assumption. reflexivity.
  - intros i j Hi Hj. unfold Matrix_transpose. now rewrite get_Matrix_build.
Qed.

Lemma Matrix_transpose_involutive_witness :
  Matrix_transpose (Matrix_transpose roundtrip_sample) = roundtrip_sample /\
  forall i j, (i < nrows roundtrip_sample)%nat -> (j < ncols roundtrip_sample)%nat ->
              get (Matrix_transpose roundtrip_sample) j i = get roundtrip_sample i j.
Proof.
  apply (Matrix_transpose_involutive roundtrip_sample).
  - repeat split.
  - reflexivity.
Defined.

(** The float product commutes (zeros, infinities and NaN included). *)
Lemma f32_mul_comm (x y : float32) : f32_mul x y = f32_mul y x.
Proof.
  unfold f32_mul, SFmul.
  destruct x as [sx|sx| |sx mx ex], y as [sy|sy| |sy my ey];
    try reflexivity; try (now rewrite xorb_comm).
  now rewrite xorb_comm, Pos.mul_comm, Z.add_comm.
Qed.



(** Reads at the end of a stream. *)
Lemma ifstream_read_short (n : nat) (bs : list byte) :
  (length bs < n)%nat ->
  is_fail (snd (ifstream_read n (mkStream bs false))) = true.
Proof.
  intro H. unfold ifstream_read. cbn [is_fail is_buf].
  replace (n <=? length bs)%nat with false by (symmetry; apply Nat.leb_gt; lia).
  reflexivity.
Qed.

Lemma ifstream_read_failed (n : nat) (s : ifstream) :
  is_fail s = true -> is_fail (snd (ifstream_read n s)) = true.
Proof. intro H. unfold ifstream_read. now rewrite H. Qed.

Lemma ifstream_read_prefix (n : nat) (bs rest : list byte) :
  length bs = n ->
  ifstream_read n (mkStream (bs ++ rest) false) = (bs, mkStream rest false).
Proof. intros <-. apply ifstream_read_app. Qed.

(** X4. [load_from_file] reads a saved matrix from the front of the file:
    bytes that follow the data are ignored, and every proper prefix of the
    saved file (a truncated file) is refused with a [FileIOException]. *)
Theorem Matrix_load_needs_whole_file {T : Type} {E : Element T}
  (M target : Matrix T) (filename : string) (fs : FileSystem) (n : nat) (extra : list byte) :
  Matrix_wf M ->
  Forall copyable (data_ M) ->
  (fs_files fs filename = Some (Matrix_file M ++ extra) ->
   Matrix_load_from_file target filename fs = Ok M) /\
  ((n < length (Matrix_file M))%nat ->
   fs_files fs filename = Some (firstn n (Matrix_file M)) ->
   exists what, Matrix_load_from_file target filename fs = Throw (FileIOException what)).
Proof.
  intros (Hr & Hc & Hlen) Hcopy.
  pose proof (elements_to_bytes_length _ Hcopy) as Hbytes.
  split.
  - intro Hfile. unfold Matrix_load_from_file. rewrite Hfile.
    unfold Matrix_file, ifstream_open. rewrite <- !app_assoc.
    rewrite ifstream_read_prefix by apply encode_le_length.
    rewrite ifstream_read_prefix by apply encode_le_length.
    cbn [is_fail].
    fold (size_bytes (rows_ M)). fold (size_bytes (cols_ M)).
    rewrite !decode_size_bytes by assumption.
    cbn [Matrix_resize data_].
    rewrite vector_resize_length, <- Hlen.
    rewrite ifstream_read_prefix by exact Hbytes.
    cbn [is_fail].
    rewrite elements_of_to_bytes by (try assumption; apply vector_resize_length).
    destruct M; reflexivity.
  - intros Hn Hfile. unfold Matrix_load_from_file. rewrite Hfile.
    unfold Matrix_file in *. unfold ifstream_open.
    rewrite !length_app, !encode_le_length in Hn.
    destruct (Nat.lt_ge_cases n 16) as [Hshort|Hlong].
    + (* the cut falls inside the two dimensions *)
      set (bytes := firstn n _).
      assert (Hl : length bytes = n)
        by (subst bytes; rewrite length_firstn, !length_app, !encode_le_length; lia).
      destruct (ifstream_read 8 (mkStream bytes false)) as [rbytes s1] eqn:E1.
      destruct (ifstream_read 8 s1) as [cbytes s2] eqn:E2.
      assert (Hfail : is_fail s2 = true).
      { destruct (Nat.lt_ge_cases n 8) as [H8|H8].
        - pose proof (ifstream_read_short 8 bytes ltac:(lia)) as F1.
          rewrite E1 in F1. cbn [snd] in F1.
          pose proof (ifstream_read_failed 8 s1 F1) as F2. now rewrite E2 in F2.
        - unfold ifstream_read in E1. cbn [is_fail is_buf] in E1.
          replace (8 <=? length bytes)%nat with true in E1
            by (symmetry; apply Nat.leb_le; lia).
          apply pair_equal_spec in E1. destruct E1 as [_ <-].
          pose proof (ifstream_read_short 8 (skipn 8 bytes)
                        ltac:(rewrite length_skipn; lia)) as F2.
          now rewrite E2 in F2. }
      rewrite Hfail. eexists. reflexivity.
    + (* the cut falls inside the data *)
      rewrite firstn_app, encode_le_length.
      rewrite firstn_all2 by (rewrite encode_le_length; lia).
      rewrite firstn_app, encode_le_length.
      rewrite (firstn_all2 (encode_le 8 (Z.of_N (cols_ M))))
        by (rewrite encode_le_length; lia).
      rewrite ifstream_read_prefix by apply encode_le_length.
      rewrite ifstream_read_prefix by apply encode_le_length.
      cbn [is_fail].
      fold (size_bytes (rows_ M)). fold (size_bytes (cols_ M)).
      rewrite !decode_size_bytes by assumption.
      cbn [Matrix_resize data_].
      rewrite vector_resize_length, <- Hlen.
      set (avail := firstn (n - 8 - 8) (elements_to_bytes (data_ M))).
      destruct (ifstream_read (length (data_ M) * sizeof) (mkStream avail false))
        as [dbytes s3] eqn:E3.
      pose proof (ifstream_read_short (length (data_ M) * sizeof) avail) as F3.
      rewrite E3 in F3. cbn [snd] in F3. rewrite F3.
      * eexists. reflexivity.
      * subst avail. rewrite length_firstn. lia.
Qed.

Lemma Matrix_load_needs_whole_file_witness :
  Matrix_load_from_file Matrix_default "m.bin"
    (fs_write empty_fs "m.bin" (Matrix_file roundtrip_sample ++ [x2a])) = Ok roundtrip_sample /\
  exists what,
    Matrix_load_from_file Matrix_default "m.bin"
      (fs_write empty_fs "m.bin" (firstn 39 (Matrix_file roundtrip_sample)))
    = Throw (FileIOException what).
Proof.
  split.
  - apply (Matrix_load_needs_whole_file roundtrip_sample Matrix_default "m.bin"
             (fs_write empty_fs "m.bin" (Matrix_file roundtrip_sample ++ [x2a])) 0 [x2a]).
    + repeat split.
    + repeat constructor.
    + reflexivity.
  - apply (Matrix_load_needs_whole_file roundtrip_sample Matrix_default "m.bin"
             (fs_write empty_fs "m.bin" (firstn 39 (Matrix_file roundtrip_sample))) 39 []).
    + repeat split.
    + repeat constructor.
    + vm_compute. lia.
    + reflexivity.
Defined.

(** ** Tensors *)

Lemma dims_product_cons (i d : N) (rest : list (N * N)) :
  dims_product ((i, d) :: rest) = (d * dims_product rest)%N.
Proof. reflexivity. Qed.

Lemma dims_product_pos (pairs : list (N * N)) :
  Forall (fun id => (fst id < snd id)%N) pairs -> (0 < dims_product pairs)%N.
Proof.
  induction 1 as [|[i d] rest Hid _ IH]; [reflexivity|].
  rewrite dims_product_cons. cbn in Hid. nia.
Qed.

Lemma little_endian_bound (pairs : list (N * N)) :
  Forall (fun id => (fst id < snd id)%N) pairs ->
  (little_endian pairs < dims_product pairs)%N.
Proof.
  induction 1 as [|[i d] rest Hid _ IH]; [reflexivity|].
  rewrite dims_product_cons. cbn [little_endian]. cbn in Hid. nia.
Qed.

(** The loop of [compute_index] on pairs inside the shape: while the index so
    far is below the stride and the last stride fits [size_t], nothing wraps. *)
Lemma compute_index_loop_ok (pairs : list (N * N)) :
  forall index stride,
    Forall (fun id => (fst id < snd id)%N) pairs ->
    (index < stride)%N ->
    (stride * dims_product pairs < size_t_modulus)%N ->
    compute_index_loop pairs index stride
    = Ok (index + stride * little_endian pairs)%N.
Proof.
  induction pairs as [|[i d] rest IH]; intros index stride Hall Hidx Hfit.
  - cbn. f_equal. lia.
  - inversion Hall as [|? ? Hid Hrest]. subst. cbn in Hid.
    pose proof (dims_product_pos rest Hrest) as Hpos.
    cbn [compute_index_loop].
    replace (d <=? i)%N with false by (symmetry; apply N.leb_gt; lia).
    rewrite dims_product_cons in Hfit.
    assert (Hsd : (stride * d < size_t_modulus)%N) by nia.
    unfold size_add, size_mul.
    rewrite (N.mod_small (i * stride)) by nia.
    rewrite (N.mod_small (index + i * stride)) by nia.
    rewrite (N.mod_small (stride * d)) by exact Hsd.
    rewrite IH; [|assumption|nia|].
    + cbn [little_endian]. f_equal. lia.
    + rewrite <- N.mul_assoc. exact Hfit.
Qed.

(** The loop returns an index exactly when every index is below its
    dimension. *)
Lemma compute_index_loop_checks (pairs : list (N * N)) :
  forall index stride,
    match compute_index_loop pairs index stride with
    | Ok _ => Forall (fun id => (fst id < snd id)%N) pairs
    | Throw e => e = std_out_of_range "Tensor index out of bounds" /\
                 ~ Forall (fun id => (fst id < snd id)%N) pairs
    | Indeterminate => False
    end.
Proof.
  induction pairs as [|[i d] rest IH]; intros index stride; cbn [compute_index_loop].
  - constructor.
  - destruct (d <=? i)%N eqn:E.
    + split; [reflexivity|]. intro H. inversion H as [|? ? Hid _]. cbn in Hid.
      apply N.leb_le in E. lia.
    + apply N.leb_gt in E.
      specialize (IH (size_add index (size_mul i stride)) (size_mul stride d)).
      destruct (compute_index_loop rest _ _) as [k|e|].
      * constructor; [exact E | exact IH].
      * destruct IH as [-> Hnot]. split; [reflexivity|].
        intro H. inversion H. contradiction.
      * exact IH.
Qed.

Lemma little_endian_app (l1 l2 : list (N * N)) :
  little_endian (l1 ++ l2)
  = (little_endian l1 + dims_product l1 * little_endian l2)%N.
Proof.
  induction l1 as [|[i d] l1 IH]; cbn [app little_endian].
  - change (dims_product []) with 1%N. lia.
  - rewrite dims_product_cons, IH. lia.
Qed.

Lemma dims_product_app (l1 l2 : list (N * N)) :
  dims_product (l1 ++ l2) = (dims_product l1 * dims_product l2)%N.
Proof.
  induction l1 as [|[i d] l1 IH]; cbn [app].
  - change (dims_product []) with 1%N. lia.
  - rewrite !dims_product_cons, IH. lia.
Qed.

Lemma dims_product_rev_combine (indices shape : list N) :
  length indices = length shape ->
  dims_product (rev (combine indices shape)) = cells shape.
Proof.
  revert shape. induction indices as [|i indices IH]; intros [|d shape] Hlen;
    try discriminate; [reflexivity|].
  cbn [combine rev]. rewrite dims_product_app, IH by (cbn in Hlen; lia).
  change (dims_product [(i, d)]) with (d * 1)%N.
  change (cells (d :: shape)) with (d * cells shape)%N. lia.
Qed.

Lemma little_endian_rev_combine (indices shape : list N) :
  length indices = length shape ->
  little_endian (rev (combine indices shape)) = row_major indices shape.
Proof.
  revert shape. induction indices as [|i indices IH]; intros [|d shape] Hlen;
    try discriminate; [reflexivity|].
  cbn [combine rev row_major].
  rewrite little_endian_app, IH, dims_product_rev_combine by (cbn in Hlen; lia).
  change (little_endian [(i, d)]) with (i + d * 0)%N. lia.
Qed.

Lemma in_shape_pairs (indices shape : list N) :
  in_shape indices shape <->
  length indices = length shape /\
  Forall (fun id => (fst id < snd id)%N) (rev (combine indices shape)).
Proof.
  split.
  - intro H. split; [now apply Forall2_length in H|].
    apply Forall_rev. induction H; cbn; constructor; assumption.
  - intros [Hlen H]. apply Forall_rev in H. rewrite rev_involutive in H.
    revert shape Hlen H. induction indices as [|i indices IH]; intros [|d shape] Hlen H;
      try discriminate; [constructor|].
    cbn in H. inversion H. subst. constructor; [assumption|].
    apply IH; [cbn in Hlen; lia | assumption].
Qed.

Lemma row_major_bound (indices shape : list N) :
  in_shape indices shape -> (row_major indices shape < cells shape)%N.
Proof.
  induction 1 as [|i d indices shape Hid _ IH]; [reflexivity|].
  cbn [row_major]. change (cells (d :: shape)) with (d * cells shape)%N. nia.
Qed.

Lemma row_major_injective (shape : list N) :
  forall a b, in_shape a shape -> in_shape b shape ->
              row_major a shape = row_major b shape -> a = b.
Proof.
  induction shape as [|d shape IH]; intros a b Ha Hb Heq.
  - inversion Ha. inversion Hb. reflexivity.
  - inversion Ha as [|i ? a' ? Hi Ha']. inversion Hb as [|j ? b' ? Hj Hb']. subst.
    cbn [row_major] in Heq.
    pose proof (row_major_bound _ _ Ha') as Ba. pose proof (row_major_bound _ _ Hb') as Bb.
    assert (i = j) by nia. subst j.
    f_equal. apply IH; try assumption. lia.
Qed.

Lemma compute_index_in_shape {T : Type} (t : Tensor T) (indices : list N) :
  (cells (shape_ t) < size_t_modulus)%N ->
  in_shape indices (shape_ t) ->
  Tensor_compute_index t indices = Ok (row_major indices (shape_ t)).
Proof.
  intros Hfit Hin. apply in_shape_pairs in Hin. destruct Hin as [Hlen Hall].
  unfold Tensor_compute_index. rewrite Hlen, Nat.eqb_refl.
  rewrite compute_index_loop_ok.
  - rewrite little_endian_rev_combine by exact Hlen. f_equal. lia.
  - exact Hall.
  - lia.
  - rewrite dims_product_rev_combine by exact Hlen. lia.
Qed.

(** X5. For indices inside the shape, [compute_index] returns the row-major
    offset (no [size_t] operation wraps), the offset is a position of the
    buffer, and [at] returns the element stored there. *)
Theorem Tensor_compute_index_row_major {T : Type} {E : Element T}
  (t : Tensor T) (indices : list N) :
  Tensor_wf t ->
  in_shape indices (shape_ t) ->
  Tensor_compute_index t indices = Ok (row_major indices (shape_ t)) /\
  (N.to_nat (row_major indices (shape_ t)) < length (tensor_data_ t))%nat /\
  Tensor_at t indices
  = Ok (nth (N.to_nat (row_major indices (shape_ t))) (tensor_data_ t) T0).
Proof.
  intros [Hfit Hlen] Hin.
  pose proof (row_major_bound _ _ Hin) as Hb.
  assert (Hlt : (N.to_nat (row_major indices (shape_ t)) < length (tensor_data_ t))%nat)
    by (rewrite Hlen; lia).
  split; [now apply compute_index_in_shape|]. split; [exact Hlt|].
  unfold Tensor_at. rewrite compute_index_in_shape by assumption.
  cbn [bind]. apply Nat.ltb_lt in Hlt. now rewrite Hlt.
Qed.

Lemma Tensor_compute_index_row_major_witness :
  Tensor_compute_index cube_sample [1; 2; 3]%N = Ok 23%N /\
  (23 < length (tensor_data_ cube_sample))%nat /\
  Tensor_at cube_sample [1; 2; 3]%N = Ok f32_zero.
Proof.
  apply (Tensor_compute_index_row_major cube_sample [1; 2; 3]%N).
  - split; [reflexivity|reflexivity].
  - repeat constructor.
Defined.

Lemma compute_index_ok_in_shape {T : Type} (t : Tensor T) (indices : list N) (k : N) :
  Tensor_compute_index t indices = Ok k -> in_shape indices (shape_ t).
Proof.
  unfold Tensor_compute_index.
  destruct (Nat.eqb (length indices) (length (shape_ t))) eqn:Hlen; [|discriminate].
  apply Nat.eqb_eq in Hlen. intro H.
  pose proof (compute_index_loop_checks (rev (combine indices (shape_ t))) 0 1) as Hc.
  rewrite H in Hc. apply in_shape_pairs. now split.
Qed.

(** X6. [compute_index] returns an offset only for an index vector inside
    the shape; it throws [std::invalid_argument] exactly when the number of
    indices is not the number of dimensions, and [std::out_of_range] exactly
    when the number is right and some index is not below its dimension. *)
Theorem Tensor_compute_index_checks {T : Type} (t : Tensor T) (indices : list N) :
  match Tensor_compute_index t indices with
  | Ok _ => in_shape indices (shape_ t)
  | Throw e =>
      (length indices <> length (shape_ t) /\
       e = std_invalid_argument "Number of indices does not match tensor dimensions") \/
      (length indices = length (shape_ t) /\ ~ in_shape indices (shape_ t) /\
       e = std_out_of_range "Tensor index out of bounds")
  | Indeterminate => False
  end.
Proof.
  unfold Tensor_compute_index.
  destruct (Nat.eqb (length indices) (length (shape_ t))) eqn:Hlen.
  - apply Nat.eqb_eq in Hlen.
    pose proof (compute_index_loop_checks (rev (combine indices (shape_ t))) 0 1) as H.
    destruct (compute_index_loop _ _ _) as [k|e|].
    + apply in_shape_pairs. now split.
    + right. destruct H as [-> Hnot]. split; [exact Hlen|]. split; [|reflexivity].
      intro Hin. apply in_shape_pairs in Hin. now apply Hnot.
    + exact H.
  - left. apply Nat.eqb_neq in Hlen. now split.
Qed.

(** X7. Two index vectors that [compute_index] maps to the same offset are
    the same vector: distinct cells of a tensor never share an element. *)
Theorem Tensor_compute_index_injective {T : Type} (t : Tensor T) (a b : list N) (k : N) :
  (cells (shape_ t) < size_t_modulus)%N ->
  Tensor_compute_index t a = Ok k ->
  Tensor_compute_index t b = Ok k ->
  a = b.
Proof.
  intros Hfit Ha Hb.
  pose proof (compute_index_ok_in_shape t a k Ha) as Ia.
  pose proof (compute_index_ok_in_shape t b k Hb) as Ib.
  rewrite compute_index_in_shape in Ha, Hb by assumption.
  apply (row_major_injective (shape_ t)); try assumption. congruence.
Qed.

Lemma Tensor_compute_index_injective_witness : [1; 0; 2]%N = [1; 0; 2]%N.
Proof.
  apply (Tensor_compute_index_injective cube_sample [1; 0; 2]%N [1; 0; 2]%N 14%N);
    reflexivity.
Defined.

(** The product that the constructor computes in [size_t]. *)
Lemma shape_total_cells (shape : list N) :
  shape_total shape = (cells shape mod size_t_modulus)%N.
Proof.
  unfold shape_total.
  assert (H : forall acc, (acc < size_t_modulus)%N ->
                          fold_left size_mul shape acc
                          = ((acc * cells shape) mod size_t_modulus)%N).
  { induction shape as [|d shape IH]; intros acc Hacc; cbn [fold_left].
    - change (cells []) with 1%N. rewrite N.mul_1_r. symmetry. now apply N.mod_small.
    - rewrite IH by (apply N.mod_lt; discriminate).
      change (cells (d :: shape)) with (d * cells shape)%N.
      unfold size_mul. rewrite N.Div0.mul_mod_idemp_l. f_equal. lia. }
  rewrite H by reflexivity. f_equal. lia.
Qed.

Lemma Tensor_ctor_wf {T : Type} {E : Element T} (shape : list N) :
  (cells shape < size_t_modulus)%N -> Tensor_wf (Tensor_ctor shape).
Proof.
  intro Hfit. split; [exact Hfit|]. cbn.
  now rewrite repeat_length, shape_total_cells, N.mod_small.
Qed.

(** X8. The constructor and [resize] leave a tensor whose buffer holds
    exactly one element per cell of the shape ([total_size()] elements), and
    [fill] keeps it so. *)
Theorem Tensor_keeps_one_element_per_cell {T : Type} {E : Element T}
  (t : Tensor T) (shape : list N) (value : T) :
  (cells shape < size_t_modulus)%N ->
  Tensor_wf (Tensor_ctor shape) /\
  Tensor_wf (Tensor_resize t shape) /\
  Tensor_total_size (Tensor_resize t shape) = cells shape /\
  (Tensor_wf t -> Tensor_wf (Tensor_fill t value)).
Proof.
  intro Hfit. split; [|split; [|split]].
  - now apply Tensor_ctor_wf.
  - split; [exact Hfit|]. cbn [Tensor_resize tensor_data_ shape_].
    now rewrite vector_resize_length, shape_total_cells, N.mod_small.
  - unfold Tensor_total_size. cbn [Tensor_resize shape_].
    now rewrite shape_total_cells, N.mod_small.
  - intros [Hf Hl]. split; [exact Hf|]. cbn. now rewrite length_map.
Qed.

Lemma Tensor_keeps_one_element_per_cell_witness :
  Tensor_wf (Tensor_ctor (T := float32) [2; 3]%N) /\
  Tensor_wf (Tensor_resize cube_sample [2; 3]%N) /\
  Tensor_total_size (Tensor_resize cube_sample [2; 3]%N) = 6%N /\
  (Tensor_wf cube_sample -> Tensor_wf (Tensor_fill cube_sample f32_one)).
Proof.
  apply (Tensor_keeps_one_element_per_cell cube_sample [2; 3]%N f32_one). reflexivity.
Defined.

(** X9. [to_matrix] of a two-dimensional tensor succeeds, keeps the shape
    and the buffer, and the matrix holds at [(i, j)] what the tensor holds
    at [{i, j}]. *)
Theorem Tensor_to_matrix_agrees {T : Type} {E : Element T}
  (t : Tensor T) (rows cols : N) :
  Tensor_wf t ->
  shape_ t = [rows; cols] ->
  exists m,
    Tensor_to_matrix t = Ok m /\
    rows_ m = rows /\ cols_ m = cols /\ data_ m = tensor_data_ t /\
    forall i j, (i < rows)%N -> (j < cols)%N ->
                Tensor_at t [i; j] = Matrix_at m i j.
Proof.
  intros Hwf Hshape. pose proof Hwf as [Hfit Hlen]. rewrite Hshape in Hfit, Hlen.
  change (cells [rows; cols]) with (rows * (cols * 1))%N in Hfit, Hlen.
  rewrite N.mul_1_r in Hfit, Hlen.
  exists {| data_ := tensor_data_ t; rows_ := rows; cols_ := cols |}.
  split; [|split; [|split; [|split]]]; try reflexivity.
  - unfold Tensor_to_matrix, Matrix_from_data. rewrite Hshape.
    unfold size_mul. rewrite N.mod_small by exact Hfit.
    replace (N.of_nat (length (tensor_data_ t)) =? rows * cols)%N with true
      by (symmetry; apply N.eqb_eq; lia).
    reflexivity.
  - intros i j Hi Hj.
    assert (Hin : in_shape [i; j] (shape_ t))
      by (rewrite Hshape; repeat constructor; assumption).
    unfold Tensor_at. rewrite compute_index_in_shape by (try apply Hwf; assumption).
    cbn [bind]. rewrite Hshape.
    pose proof (row_major_bound [i; j] [rows; cols]
                  ltac:(repeat constructor; assumption)) as Hb.
    change (cells [rows; cols]) with (rows * (cols * 1))%N in Hb.
    replace (N.to_nat (row_major [i; j] [rows; cols]) <? length (tensor_data_ t))%nat
      with true by (symmetry; apply Nat.ltb_lt; lia).
    rewrite Matrix_at_inside by (cbn [rows_ cols_]; assumption).
    do 2 f_equal. unfold ncols. cbn [cols_ row_major].
    change (cells [cols]) with (cols * 1)%N. change (cells []) with 1%N. lia.
Qed.

Lemma Tensor_to_matrix_agrees_witness :
  exists m,
    Tensor_to_matrix plane_sample = Ok m /\
    rows_ m = 2%N /\ cols_ m = 3%N /\ data_ m = tensor_data_ plane_sample /\
    forall i j, (i < 2)%N -> (j < 3)%N ->
                Tensor_at plane_sample [i; j] = Matrix_at m i j.
Proof.
  apply (Tensor_to_matrix_agrees plane_sample 2 3).
  - split; reflexivity.
  - reflexivity.
Defined.

(** ** Vocabulary *)

Lemma append_assoc (a b c : string) : ((a ++ b) ++ c = a ++ (b ++ c))%string.
Proof. induction a as [|x a IH]; cbn; [reflexivity | now rewrite IH]. Qed.

Lemma append_nil_r (a : string) : (a ++ "" = a)%string.
Proof. induction a as [|x a IH]; cbn; [reflexivity | now rewrite IH]. Qed.

Lemma join_app (l1 l2 : list string) : join (l1 ++ l2) = (join l1 ++ join l2)%string.
Proof.
  induction l1 as [|x l1 IH]; cbn; [reflexivity|].
  fold (join (l1 ++ l2)) (join l1). now rewrite IH, append_assoc.
Qed.

Lemma join_cons (x : string) (l : list string) : join (x :: l) = (x ++ join l)%string.
Proof. reflexivity. Qed.

Lemma string_of_list_ascii_app (l1 l2 : list ascii) :
  string_of_list_ascii (l1 ++ l2)
  = (string_of_list_ascii l1 ++ string_of_list_ascii l2)%string.
Proof. induction l1 as [|c l1 IH]; cbn; [reflexivity | now rewrite IH]. Qed.

Lemma map_find_set_same {V : Type} (m : list (string * V)) (k : string) (v : V) :
  map_find (map_set m k v) k = Some v.
Proof.
  induction m as [|[k' v'] m IH]; cbn.
  - now rewrite String.eqb_refl.
  - destruct (String.eqb k k') eqn:E; cbn.
    + now rewrite String.eqb_refl.
    + now rewrite E.
Qed.

Lemma map_find_set_other {V : Type} (m : list (string * V)) (k k0 : string) (v : V) :
  k0 <> k -> map_find (map_set m k v) k0 = map_find m k0.
Proof.
  intro Hne. induction m as [|[k' v'] m IH]; cbn.
  - apply String.eqb_neq in Hne. now rewrite Hne.
  - destruct (String.eqb k k') eqn:E; cbn.
    + apply String.eqb_eq in E. subst k'.
      apply String.eqb_neq in Hne. now rewrite Hne.
    + destruct (String.eqb k0 k'); [reflexivity | exact IH].
Qed.

Lemma Vocabulary_ctor_consistent : Vocabulary_consistent Vocabulary_ctor.
Proof.
  split; [|reflexivity].
  intros token id. cbn.
  repeat match goal with
         | |- context [String.eqb token ?s] =>
             destruct (String.eqb_spec token s); [subst token|]
         end; intro H; inversion H; subst; cbn; split; try lia; reflexivity.
Qed.

(** [add_token] keeps the two maps consistent. *)
Lemma add_token_consistent (v : Vocabulary) (token : string) :
  Vocabulary_consistent v ->
  Vocabulary_consistent (snd (Vocabulary_add_token v token)).
Proof.
  intros [Hmaps Hunk]. unfold Vocabulary_add_token.
  destruct (map_find (token_to_id_ v) token) as [id|] eqn:Hfind; cbn [snd].
  - now split.
  - split; cbn.
    + intros token' id'. rewrite length_app. cbn [length].
      destruct (String.eqb_spec token' token) as [->|Hne].
      * rewrite map_find_set_same. intro H. inversion H. subst id'. split; [lia|].
        rewrite Nat2Z.id, app_nth2, Nat.sub_diag by lia. reflexivity.
      * rewrite map_find_set_other by assumption. intro H.
        destruct (Hmaps _ _ H) as [Hr Hn]. split; [lia|].
        rewrite app_nth1 by lia. exact Hn.
    + rewrite map_find_set_other; [exact Hunk|].
      intro H. rewrite <- H in Hfind. congruence.
Qed.

Lemma get_token_of_found (v : Vocabulary) (token : string) (id : Z) :
  Vocabulary_consistent v ->
  map_find (token_to_id_ v) token = Some id ->
  Vocabulary_get_token v id = token.
Proof.
  intros [Hmaps _] Hfind. destruct (Hmaps _ _ Hfind) as [Hr Hn].
  unfold Vocabulary_get_token.
  replace (id <? 0) with false by (symmetry; apply Z.ltb_ge; lia).
  replace (Z.of_nat (length (id_to_token_ v)) <=? id) with false
    by (symmetry; apply Z.leb_gt; lia).
  exact Hn.
Qed.

Lemma get_token_unk (v : Vocabulary) :
  Vocabulary_consistent v -> Vocabulary_get_token v (unk_token_id_ v) = UNK_TOKEN.
Proof. intro H. apply get_token_of_found; [exact H | apply H]. Qed.

(** X10. After [add_token(token)] the token is looked up under the id that
    was returned and the id under the token; a token already present keeps
    its id and leaves the vocabulary unchanged, a new one gets the old size
    as its id and grows the vocabulary by one; the ids of all other tokens
    are untouched, and the two maps stay consistent. *)
Theorem Vocabulary_add_token_lookup (v : Vocabulary) (token : string) :
  Vocabulary_consistent v ->
  Z.of_nat (length (id_to_token_ v)) < 2 ^ 31 ->
  let id := fst (Vocabulary_add_token v token) in
  let v' := snd (Vocabulary_add_token v token) in
  Vocabulary_consistent v' /\
  Vocabulary_get_token_id v' token = id /\
  Vocabulary_get_token v' id = token /\
  (Vocabulary_has_token v token = true -> v' = v) /\
  (Vocabulary_has_token v token = false ->
   id = Z.of_N (Vocabulary_size v) /\ Vocabulary_size v' = (Vocabulary_size v + 1)%N) /\
  (forall other, other <> token ->
                 Vocabulary_get_token_id v' other = Vocabulary_get_token_id v other).
Proof.
  intros Hc _ id v'.
  assert (Hc' : Vocabulary_consistent v') by now apply add_token_consistent.
  assert (Hfind : map_find (token_to_id_ v') token = Some id).
  { subst id v'. unfold Vocabulary_add_token.
    destruct (map_find (token_to_id_ v) token) as [i|] eqn:E; cbn; [exact E|].
    apply map_find_set_same. }
  split; [exact Hc'|]. split; [|split; [|split; [|split]]].
  - unfold Vocabulary_get_token_id. now rewrite Hfind.
  - now apply get_token_of_found.
  - subst v'. unfold Vocabulary_has_token, Vocabulary_add_token.
    destruct (map_find (token_to_id_ v) token); [reflexivity | discriminate].
  - subst id v'. unfold Vocabulary_has_token, Vocabulary_add_token, Vocabulary_size.
    destruct (map_find (token_to_id_ v) token); [discriminate|]. intros _. cbn.
    rewrite length_app. cbn. split; lia.
  - intros other Hne. subst v'. unfold Vocabulary_get_token_id, Vocabulary_add_token.
    destruct (map_find (token_to_id_ v) token); cbn; [reflexivity|].
    now rewrite map_find_set_other.
Qed.

Lemma Vocabulary_add_token_lookup_witness :
  let id := fst (Vocabulary_add_token Vocabulary_ctor "hello") in
  let v' := snd (Vocabulary_add_token Vocabulary_ctor "hello") in
  Vocabulary_consistent v' /\
  Vocabulary_get_token_id v' "hello" = id /\
  Vocabulary_get_token v' id = "hello"%string /\
  (Vocabulary_has_token Vocabulary_ctor "hello" = true -> v' = Vocabulary_ctor) /\
  (Vocabulary_has_token Vocabulary_ctor "hello" = false ->
   id = Z.of_N (Vocabulary_size Vocabulary_ctor) /\
   Vocabulary_size v' = (Vocabulary_size Vocabulary_ctor + 1)%N) /\
  (forall other, other <> "hello"%string ->
                 Vocabulary_get_token_id v' other
                 = Vocabulary_get_token_id Vocabulary_ctor other).
Proof.
  apply (Vocabulary_add_token_lookup Vocabulary_ctor "hello").
  - exact Vocabulary_ctor_consistent.
  - reflexivity.
Defined.

Lemma abc_vocabulary_consistent : Vocabulary_consistent abc_vocabulary.
Proof.
  unfold abc_vocabulary. cbn [fold_left].
  repeat apply add_token_consistent. apply Vocabulary_ctor_consistent.
Qed.

(** X11. In a vocabulary whose two maps are consistent (as the constructor
    and [add_token] leave them), [get_token(get_token_id(token))] is the
    token itself for a token of the vocabulary and the unknown token
    otherwise, and [get_token] of an id outside the vocabulary is the
    unknown token. *)
Theorem Vocabulary_lookup_round_trip (v : Vocabulary) :
  Vocabulary_consistent v ->
  (forall token, Vocabulary_has_token v token = true ->
                 Vocabulary_get_token v (Vocabulary_get_token_id v token) = token) /\
  (forall token, Vocabulary_has_token v token = false ->
                 Vocabulary_get_token_id v token = Vocabulary_unk_id v /\
                 Vocabulary_get_token v (Vocabulary_get_token_id v token) = UNK_TOKEN) /\
  (forall id, id < 0 \/ Z.of_N (Vocabulary_size v) <= id ->
              Vocabulary_get_token v id = UNK_TOKEN).
Proof.
  intro Hc. split; [|split].
  - intros token. unfold Vocabulary_has_token, Vocabulary_get_token_id.
    destruct (map_find (token_to_id_ v) token) as [id|] eqn:Hfind; [|discriminate].
    intros _. now apply get_token_of_found.
  - intros token. unfold Vocabulary_has_token, Vocabulary_get_token_id.
    destruct (map_find (token_to_id_ v) token) as [id|] eqn:Hfind; [discriminate|].
    intros _. split; [reflexivity | now apply get_token_unk].
  - intros id Hid. pose proof (get_token_unk v Hc) as Hunk.
    destruct Hc as [Hmaps Hu]. destruct (Hmaps _ _ Hu) as [Hr Hn].
    unfold Vocabulary_get_token, Vocabulary_size in *. rewrite nat_N_Z in Hid.
    destruct ((id <? 0) || (Z.of_nat (length (id_to_token_ v)) <=? id)) eqn:E.
    + exact Hn.
    + apply orb_false_iff in E. destruct E as [E1 E2].
      apply Z.ltb_ge in E1. apply Z.leb_gt in E2. lia.
Qed.

Lemma Vocabulary_lookup_round_trip_witness :
  (forall token, Vocabulary_has_token abc_vocabulary token = true ->
                 Vocabulary_get_token abc_vocabulary
                   (Vocabulary_get_token_id abc_vocabulary token) = token) /\
  (forall token, Vocabulary_has_token abc_vocabulary token = false ->
                 Vocabulary_get_token_id abc_vocabulary token
                 = Vocabulary_unk_id abc_vocabulary /\
                 Vocabulary_get_token abc_vocabulary
                   (Vocabulary_get_token_id abc_vocabulary token) = UNK_TOKEN) /\
  (forall id, id < 0 \/ Z.of_N (Vocabulary_size abc_vocabulary) <= id ->
              Vocabulary_get_token abc_vocabulary id = UNK_TOKEN).
Proof. apply (Vocabulary_lookup_round_trip abc_vocabulary). exact abc_vocabulary_consistent. Defined.

(** ** Tokenizer *)

Lemma preprocess_char_idempotent (c : ascii) :
  preprocess_char (preprocess_char c) = preprocess_char c /\
  is_upper (preprocess_char c) = false /\
  is_tab_or_newline (preprocess_char c) = false.
Proof. destruct c as [[] [] [] [] [] [] [] []]; vm_compute; repeat split. Qed.

Lemma length_string_of_list_ascii (l : list ascii) :
  String.length (string_of_list_ascii l) = length l.
Proof. induction l as [|c l IH]; cbn; [reflexivity | now rewrite IH]. Qed.

Lemma length_list_ascii_of_string (s : string) :
  length (list_ascii_of_string s) = String.length s.
Proof. induction s as [|c s IH]; cbn; [reflexivity | now rewrite IH]. Qed.

(** X12. [preprocess_text] keeps the length of the text, leaves no upper
    case letter, tab, newline or carriage return, and applying it twice is
    the same as applying it once. *)
Theorem preprocess_text_idempotent (text : string) :
  let p := BPETokenizer_preprocess_text text in
  BPETokenizer_preprocess_text p = p /\
  String.length p = String.length text /\
  Forall (fun c => is_upper c = false /\ is_tab_or_newline c = false)
         (list_ascii_of_string p).
Proof.
  unfold BPETokenizer_preprocess_text. cbn zeta.
  rewrite list_ascii_of_string_of_list_ascii, map_map. split; [|split].
  - f_equal. apply map_ext. intro c. apply preprocess_char_idempotent.
  - now rewrite length_string_of_list_ascii, length_map, length_list_ascii_of_string.
  - apply Forall_forall. intros c Hin. apply in_map_iff in Hin.
    destruct Hin as (c0 & <- & _). apply preprocess_char_idempotent.
Qed.

Lemma join_rev_flush (current : list ascii) (words : list string) :
  join (rev (flush current words))
  = (join (rev words) ++ string_of_list_ascii (rev current))%string.
Proof.
  destruct current as [|c current]; cbn [flush].
  - cbn. now rewrite append_nil_r.
  - cbn [rev]. rewrite join_app. cbn [join fold_right]. now rewrite append_nil_r.
Qed.

(** The loop of [split_to_words]: what has been pushed, the word being
    built and the characters to come spell the text. *)
Lemma split_loop_join (cs : list ascii) :
  forall words current,
    join (split_loop cs words current)
    = (join (rev words) ++ string_of_list_ascii (rev current)
       ++ string_of_list_ascii (map space_char cs))%string.
Proof.
  induction cs as [|c cs IH]; intros words current; cbn [split_loop map].
  - fold (flush current words). rewrite join_rev_flush. cbn. now rewrite append_nil_r.
  - unfold space_char at 1. destruct (isspace c) eqn:E.
    + fold (flush current words). rewrite IH. cbn [rev].
      rewrite join_app, join_rev_flush. cbn. now rewrite !append_assoc.
    + rewrite IH. cbn [rev]. rewrite string_of_list_ascii_app. cbn.
      now rewrite !append_assoc.
Qed.

Lemma flush_words (current : list ascii) (words : list string) :
  Forall is_word words ->
  forallb (fun c => negb (isspace c)) current = true ->
  Forall is_word (flush current words).
Proof.
  intros Hw Hc. destruct current as [|c current]; [exact Hw|].
  cbn [flush]. constructor; [|exact Hw]. right. split.
  - cbn [rev]. destruct (rev current); discriminate.
  - rewrite list_ascii_of_string_of_list_ascii.
    apply forallb_forall. intros x Hx. apply in_rev in Hx.
    now apply (proj1 (forallb_forall _ _) Hc).
Qed.

Lemma split_loop_words (cs : list ascii) :
  forall words current,
    Forall is_word words ->
    forallb (fun c => negb (isspace c)) current = true ->
    Forall is_word (split_loop cs words current).
Proof.
  induction cs as [|c cs IH]; intros words current Hw Hc; cbn [split_loop].
  - fold (flush current words). apply Forall_rev. now apply flush_words.
  - destruct (isspace c) eqn:E.
    + fold (flush current words). apply IH; [|reflexivity].
      constructor; [now left | now apply flush_words].
    + apply IH; [exact Hw|]. cbn. now rewrite E.
Qed.

(** X13. The words of [split_to_words], concatenated, spell the text with
    every white space character replaced by a space; each word is either
    one space or a non-empty run of characters without white space. *)
Theorem split_to_words_spec (text : string) :
  join (BPETokenizer_split_to_words text)
  = string_of_list_ascii (map space_char (list_ascii_of_string text)) /\
  Forall is_word (BPETokenizer_split_to_words text).
Proof.
  unfold BPETokenizer_split_to_words. split.
  - rewrite split_loop_join. reflexivity.
  - apply split_loop_words; [constructor | reflexivity].
Qed.

Lemma join_single_chars (cs : list ascii) :
  join (map (fun c => String c EmptyString) cs) = string_of_list_ascii cs.
Proof. induction cs as [|c cs IH]; cbn; [reflexivity|]. fold (join (map (fun c => String c EmptyString) cs)). now rewrite IH. Qed.

Lemma merge_pass_cons2 (first second a b : string) (rest : list string) :
  merge_pass first second (a :: b :: rest)
  = if String.eqb a first && String.eqb b second
    then (first ++ second)%string :: merge_pass first second rest
    else a :: merge_pass first second (b :: rest).
Proof. reflexivity. Qed.

(** One merge pass keeps the spelling, never lengthens the sequence, and
    shortens it when the pair occurs. *)
Lemma merge_pass_join_length (first second : string) (n : nat) :
  forall chars, (length chars <= n)%nat ->
    join (merge_pass first second chars) = join chars /\
    (length (merge_pass first second chars) <= length chars)%nat /\
    (In (first, second) (adjacent_pairs chars) ->
     (length (merge_pass first second chars) < length chars)%nat).
Proof.
  induction n as [|n IH]; intros chars Hlen.
  - destruct chars; [|cbn in Hlen; lia]. cbn. split; [reflexivity|]. split; [lia | intros []].
  - destruct chars as [|a [|b rest]].
    + cbn. split; [reflexivity|]. split; [lia | intros []].
    + cbn. split; [reflexivity|]. split; [lia | intros []].
    + rewrite merge_pass_cons2.
      destruct (String.eqb a first && String.eqb b second) eqn:E.
      * apply andb_true_iff in E. destruct E as [Ea Eb].
        apply String.eqb_eq in Ea, Eb. subst a b.
        destruct (IH rest) as (Hj & Hl & _); [cbn in Hlen; lia|].
        rewrite !join_cons, Hj, append_assoc. cbn [length].
        split; [reflexivity|]. split; [lia | intros _; lia].
      * destruct (IH (b :: rest)) as (Hj & Hl & Hin); [cbn in *; lia|].
        rewrite !join_cons. rewrite join_cons in Hj. rewrite Hj.
        cbn [length] in *. split; [reflexivity|]. split; [lia|].
        cbn [adjacent_pairs]. intros [Heq|Hrest].
        -- inversion Heq. subst. now rewrite !String.eqb_refl in E.
        -- specialize (Hin Hrest). lia.
Qed.

(** The scan for the best pair: the result is the pair it started from or
    one of the pairs scanned, and no scanned pair has a lower rank. *)
Lemma best_pair_spec (ranks : list (string * Z)) (pairs : list (string * string)) :
  forall best,
    let res := best_pair ranks pairs best in
    (res = best \/ exists r p, res = Some (r, p) /\ In p pairs) /\
    rank_bound res <= rank_bound best /\
    (forall a b r, In (a, b) pairs ->
                   map_find ranks (a ++ " " ++ b)%string = Some r -> rank_bound res <= r).
Proof.
  induction pairs as [|[a b] pairs IH]; intros best; cbn [best_pair].
  - cbn. split; [now left|]. split; [lia|]. intros ? ? ? [].
  - fold (rank_bound best).
    destruct (map_find ranks (a ++ " " ++ b)%string) as [r|] eqn:Hr.
    + destruct (r <? rank_bound best) eqn:Hlt.
      * specialize (IH (Some (r, (a, b)))). cbn zeta in *.
        destruct IH as (Hres & Hle & Hall). apply Z.ltb_lt in Hlt.
        split; [|split].
        -- right. destruct Hres as [-> | (r' & p & -> & Hin)].
           ++ exists r, (a, b). split; [reflexivity | now left].
           ++ exists r', p. split; [reflexivity | now right].
        -- cbn [rank_bound] in Hle. lia.
        -- intros a' b' r' [Heq|Hin] Hf.
           ++ inversion Heq. subst. rewrite Hr in Hf. inversion Hf. subst.
              exact Hle.
           ++ now apply (Hall a' b').
      * specialize (IH best). cbn zeta in *.
        destruct IH as (Hres & Hle & Hall). apply Z.ltb_ge in Hlt.
        split; [|split].
        -- destruct Hres as [-> | (r' & p & -> & Hin)]; [now left|].
           right. exists r', p. split; [reflexivity | now right].
        -- exact Hle.
        -- intros a' b' r' [Heq|Hin] Hf.
           ++ inversion Heq. subst. rewrite Hr in Hf. inversion Hf. subst. lia.
           ++ now apply (Hall a' b').
    + specialize (IH best). cbn zeta in *.
      destruct IH as (Hres & Hle & Hall).
      split; [|split].
      * destruct Hres as [-> | (r' & p & -> & Hin)]; [now left|].
        right. exists r', p. split; [reflexivity | now right].
      * exact Hle.
      * intros a' b' r' [Heq|Hin] Hf.
        -- inversion Heq. subst. congruence.
        -- now apply (Hall a' b').
Qed.

Lemma bpe_loop_join (ranks : list (string * Z)) (fuel : nat) :
  forall chars, join (bpe_loop fuel ranks chars) = join chars.
Proof.
  induction fuel as [|fuel IH]; intro chars; cbn [bpe_loop]; [reflexivity|].
  destruct (best_pair ranks (adjacent_pairs chars) None) as [[r [first second]]|];
    [|reflexivity].
  rewrite IH.
  now destruct (merge_pass_join_length first second (length chars) chars (le_n _)).
Qed.

(** One turn per symbol is enough for the merge loop to come to rest. *)
Lemma bpe_loop_stable (ranks : list (string * Z)) (fuel : nat) :
  forall chars, (length chars <= fuel)%nat ->
    best_pair ranks (adjacent_pairs (bpe_loop fuel ranks chars)) None = None.
Proof.
  induction fuel as [|fuel IH]; intros chars Hlen; cbn [bpe_loop].
  - destruct chars; [reflexivity | cbn in Hlen; lia].
  - destruct (best_pair ranks (adjacent_pairs chars) None) as [[r [first second]]|] eqn:E;
      [|exact E].
    apply IH.
    destruct (best_pair_spec ranks (adjacent_pairs chars) None) as (Hres & _ & _).
    cbn zeta in Hres. rewrite E in Hres.
    destruct Hres as [Hres | (r' & p & Hres & Hin)]; [discriminate|].
    inversion Hres. subst r' p.
    destruct (merge_pass_join_length first second (length chars) chars (le_n _))
      as (_ & _ & Hlt).
    specialize (Hlt Hin). lia.
Qed.

(** X14. The pieces that [bpe_encode] returns, concatenated, spell the
    word: merging never loses, adds or reorders a character. *)
Theorem bpe_encode_preserves_word (t : BPETokenizer) (word : string) :
  join (BPETokenizer_bpe_encode t word) = word.
Proof.
  unfold BPETokenizer_bpe_encode.
  rewrite bpe_loop_join, join_single_chars.
  apply string_of_list_ascii_of_string.
Qed.

(** X15. When [bpe_encode] returns, no adjacent pair of pieces has a merge
    rank below [INT_MAX]: the loop has run until no rule applies (which
    takes at most one turn per character of the word). *)
Theorem bpe_encode_leaves_no_merge (t : BPETokenizer) (word a b : string) (r : Z) :
  In (a, b) (adjacent_pairs (BPETokenizer_bpe_encode t word)) ->
  map_find (bpe_ranks_ t) (a ++ " " ++ b)%string = Some r ->
  2 ^ 31 - 1 <= r.
Proof.
  intros Hin Hrank. unfold BPETokenizer_bpe_encode in Hin.
  set (chars := map (fun c => String c EmptyString) (list_ascii_of_string word)) in *.
  pose proof (bpe_loop_stable (bpe_ranks_ t) (length chars) chars (le_n _)) as Hstable.
  destruct (best_pair_spec (bpe_ranks_ t)
              (adjacent_pairs (bpe_loop (length chars) (bpe_ranks_ t) chars)) None)
    as (_ & _ & Hall).
  cbn zeta in Hall. rewrite Hstable in Hall.
  exact (Hall a b r Hin Hrank).
Qed.

Lemma bpe_encode_leaves_no_merge_witness :
  In ("a", "b")%string (adjacent_pairs (BPETokenizer_bpe_encode stubborn_tokenizer "ab")) /\
  map_find (bpe_ranks_ stubborn_tokenizer) "a b" = Some 2147483647 /\
  2 ^ 31 - 1 <= 2147483647.
Proof.
  assert (Hin : In ("a", "b")%string
                   (adjacent_pairs (BPETokenizer_bpe_encode stubborn_tokenizer "ab")))
    by (left; reflexivity).
  assert (Hrank : map_find (bpe_ranks_ stubborn_tokenizer) ("a" ++ " " ++ "b")%string
                  = Some 2147483647) by reflexivity.
  split; [exact Hin|]. split; [exact Hrank|].
  exact (bpe_encode_leaves_no_merge stubborn_tokenizer "ab" "a" "b" 2147483647 Hin Hrank).
Defined.

Lemma decode_join (t : BPETokenizer) (tokens : list Z) :
  BPETokenizer_decode t tokens = join (map (Vocabulary_get_token (vocab_ t)) tokens).
Proof.
  unfold BPETokenizer_decode.
  assert (H : forall acc,
             fold_left (fun result id => (result ++ Vocabulary_get_token (vocab_ t) id)%string)
                       tokens acc
             = (acc ++ join (map (Vocabulary_get_token (vocab_ t)) tokens))%string).
  { induction tokens as [|id tokens IH]; intro acc; cbn.
    - now rewrite append_nil_r.
    - rewrite IH. fold (join (map (Vocabulary_get_token (vocab_ t)) tokens)).
      now rewrite append_assoc. }
  now rewrite H.
Qed.

Lemma encode_of_strings (t : BPETokenizer) (text : string) :
  BPETokenizer_encode t text
  = map (Vocabulary_get_token_id (vocab_ t)) (BPETokenizer_encode_to_strings t text).
Proof.
  unfold BPETokenizer_encode, BPETokenizer_encode_to_strings.
  induction (BPETokenizer_split_to_words (BPETokenizer_preprocess_text text)) as [|w ws IH];
    cbn; [reflexivity|].
  now rewrite map_app, IH.
Qed.

Lemma join_encode_to_strings (t : BPETokenizer) (text : string) :
  join (BPETokenizer_encode_to_strings t text) = normalized_text text.
Proof.
  unfold BPETokenizer_encode_to_strings, normalized_text.
  transitivity (join (BPETokenizer_split_to_words (BPETokenizer_preprocess_text text))).
  - induction (BPETokenizer_split_to_words (BPETokenizer_preprocess_text text)) as [|w ws IH];
      cbn [flat_map]; [reflexivity|].
    rewrite join_app, join_cons, IH. f_equal.
    unfold BPETokenizer_bpe_encode.
    rewrite bpe_loop_join, join_single_chars.
    apply string_of_list_ascii_of_string.
  - unfold BPETokenizer_split_to_words, BPETokenizer_preprocess_text.
    rewrite split_loop_join.
    now rewrite list_ascii_of_string_of_list_ascii, map_map.
Qed.

(** Decoding an encoding spells the pieces, each unknown piece as the
    unknown token. *)
Lemma decode_encode_strings (t : BPETokenizer) (text : string) :
  Vocabulary_consistent (vocab_ t) ->
  BPETokenizer_decode t (BPETokenizer_encode t text)
  = join (map (fun s => if Vocabulary_has_token (vocab_ t) s then s else UNK_TOKEN)
              (BPETokenizer_encode_to_strings t text)).
Proof.
  intro Hc. rewrite decode_join, encode_of_strings, map_map. f_equal.
  apply map_ext. intro s.
  unfold Vocabulary_has_token, Vocabulary_get_token_id.
  destruct (map_find (token_to_id_ (vocab_ t)) s) as [id|] eqn:Hfind.
  - now apply get_token_of_found.
  - now apply get_token_unk.
Qed.

Lemma best_pair_no_ranks (pairs : list (string * string)) :
  forall best, best_pair [] pairs best = best.
Proof. induction pairs as [|[a b] pairs IH]; intro best; cbn; [reflexivity | apply IH]. Qed.

Lemma flat_map_single_chars (ws : list string) :
  flat_map (fun w => map (fun c => String c EmptyString) (list_ascii_of_string w)) ws
  = map (fun c => String c EmptyString) (list_ascii_of_string (join ws)).
Proof.
  induction ws as [|w ws IH]; cbn [flat_map]; [reflexivity|].
  rewrite IH, join_cons, <- map_app. f_equal.
  clear. induction w as [|c w IHw]; cbn; [reflexivity | now rewrite IHw].
Qed.

(** X16. A tokenizer without merge rules, such as a freshly constructed
    one, cuts the normalized text into its single characters. *)
Theorem encode_without_merges (t : BPETokenizer) (text : string) :
  bpe_ranks_ t = [] ->
  BPETokenizer_encode_to_strings t text
  = map (fun c => String c EmptyString) (list_ascii_of_string (normalized_text text)).
Proof.
  intro Hranks.
  rewrite <- (join_encode_to_strings t text).
  unfold BPETokenizer_encode_to_strings.
  set (ws := BPETokenizer_split_to_words (BPETokenizer_preprocess_text text)).
  assert (Hbpe : forall w, BPETokenizer_bpe_encode t w
                           = map (fun c => String c EmptyString) (list_ascii_of_string w)).
  { intro w. unfold BPETokenizer_bpe_encode. rewrite Hranks.
    destruct (length (map (fun c => String c EmptyString) (list_ascii_of_string w)));
      cbn [bpe_loop]; [reflexivity|].
    now rewrite best_pair_no_ranks. }
  rewrite (flat_map_ext _ _ Hbpe), flat_map_single_chars.
  now rewrite join_single_chars, string_of_list_ascii_of_string.
Qed.

Lemma encode_without_merges_witness :
  BPETokenizer_encode_to_strings BPETokenizer_ctor "Hi you"
  = map (fun c => String c EmptyString) (list_ascii_of_string (normalized_text "Hi you")).
Proof. apply (encode_without_merges BPETokenizer_ctor "Hi you"). reflexivity. Defined.

(** X17. When every piece of a text is a token of a consistent vocabulary,
    [decode(encode(text))] is the normalized text: lower case, with every
    white space character a space. *)
Theorem BPETokenizer_decode_encode (t : BPETokenizer) (text : string) :
  Vocabulary_consistent (vocab_ t) ->
  Forall (fun s => Vocabulary_has_token (vocab_ t) s = true)
         (BPETokenizer_encode_to_strings t text) ->
  BPETokenizer_decode t (BPETokenizer_encode t text) = normalized_text text.
Proof.
  intros Hc Hall. rewrite decode_encode_strings by exact Hc.
  rewrite <- (join_encode_to_strings t text). f_equal.
  induction Hall as [|s l Hs _ IH]; cbn [map]; [reflexivity|].
  now rewrite Hs, IH.
Qed.

Lemma BPETokenizer_decode_encode_witness :
  BPETokenizer_encode abc_tokenizer "AB c" = [8; 7; 6] /\
  BPETokenizer_decode abc_tokenizer (BPETokenizer_encode abc_tokenizer "AB c")
  = normalized_text "AB c".
Proof.
  split; [reflexivity|].
  apply (BPETokenizer_decode_encode abc_tokenizer "AB c").
  - exact abc_vocabulary_consistent.
  - vm_compute. repeat constructor.
Defined.

(** ** The model *)

Lemma to_size_t_fits (z : Z) : (to_size_t z < size_t_modulus)%N.
Proof.
  unfold to_size_t, size_t_modulus.
  pose proof (Z.mod_pos_bound z (2 ^ 64) ltac:(lia)). lia.
Qed.

Lemma filled_copyable (n : N) (x : float32) : copyable x -> Forall copyable (filled n x).
Proof.
  intro H. apply Forall_forall. intros y Hy. apply repeat_spec in Hy. now subst.
Qed.

Lemma filled_length (n : N) (x : float32) : length (filled n x) = N.to_nat n.
Proof. apply repeat_length. Qed.

Lemma copyable_tenth : copyable f32_tenth. Proof. split; reflexivity. Qed.
Lemma copyable_zero : copyable f32_zero. Proof. split; reflexivity. Qed.
Lemma copyable_one : copyable f32_one. Proof. split; reflexivity. Qed.

(** The three outcomes of the loop that constructs the blocks. *)
Lemma make_blocks_cases (env : Env) (c : ModelConfig) (n : nat) :
  forall k,
    match make_blocks env n k c with
    | Ok bk => length (fst bk) = n /\
               ((0 < n)%nat -> num_heads c <> 0 /\ Z.rem (model_dim c) (num_heads c) = 0)
    | Throw e =>
        e = ConfigurationException "Model dimension must be divisible by number of heads" /\
        (0 < n)%nat /\ num_heads c <> 0 /\ Z.rem (model_dim c) (num_heads c) <> 0
    | Indeterminate => (0 < n)%nat /\ num_heads c = 0
    end.
Proof.
  induction n as [|n IH]; intro k; cbn [make_blocks].
  - cbn. split; [reflexivity | lia].
  - unfold TransformerBlock_ctor, MultiHeadAttention_ctor.
    destruct (Z.eqb_spec (num_heads c) 0) as [H0|H0]; cbn [bind].
    + split; [lia | assumption].
    + destruct (Z.eqb_spec (Z.rem (model_dim c) (num_heads c)) 0) as [Hr|Hr];
        cbn [negb bind].
      * cbv beta iota. cbn [bind snd fst].
        match goal with
        | |- context [make_blocks env n ?k' c] => specialize (IH k');
            destruct (make_blocks env n k' c) as [[bs k2]|e|]
        end; cbn [bind fst snd].
        -- destruct IH as [Hlen _]. cbn [fst] in Hlen. cbn [length].
           split; [now rewrite Hlen | intros _; now split].
        -- destruct IH as (-> & _ & _ & Hrem). contradiction.
        -- destruct IH as [_ Hh]. contradiction.
      * repeat split; try assumption. lia.
Qed.

Lemma fresh_matrix_shaped (rows cols : Z) :
  shaped (to_size_t rows) (to_size_t cols)
         (Matrix_fill (Matrix_ctor (to_size_t rows) (to_size_t cols)) f32_zero).
Proof.
  repeat split.
  - cbn. now rewrite length_map, repeat_length.
  - cbn. apply Forall_forall. intros x Hx. apply in_map_iff in Hx.
    destruct Hx as (y & <- & _). apply copyable_zero.
Qed.

Lemma fresh_matrix_zero (rows cols : N) :
  Matrix_fill (Matrix_ctor rows cols) f32_zero
  = mkMatrix (filled (size_mul rows cols) f32_zero) rows cols.
Proof.
  unfold Matrix_fill, Matrix_ctor, filled. cbn [data_ rows_ cols_].
  now rewrite map_repeat.
Qed.


Lemma bind_ok {A B : Type} (r : result A) (k : A -> result B) (b : B) :
  bind r k = Ok b -> exists a, r = Ok a /\ k a = Ok b.
Proof. destruct r as [a| |]; cbn; try discriminate. intro H. now exists a. Qed.

Lemma embed_rows_ok (m : TinyLlamaModel) (tokens : list Z) :
  forall i rows, embed_rows m i tokens = Ok rows ->
                 Forall (valid_token (config_ m)) tokens.
Proof.
  induction tokens as [|t tokens IH]; intros i rows H; [constructor|].
  cbn [embed_rows] in H.
  apply bind_ok in H. destruct H as (r & Hr & H).
  apply bind_ok in H. destruct H as (rs & Hrs & _).
  constructor; [|now apply (IH (S i) rs)].
  unfold embed_row in Hr.
  destruct ((t <? 0) || (vocab_size (config_ m) <=? t)) eqn:E; [discriminate|].
  apply orb_false_iff in E. destruct E as [E1 E2].
  apply Z.ltb_ge in E1. apply Z.leb_gt in E2. split; assumption.
Qed.

Section ForwardFacts.
Variable env : Env.

(** What a return of [forward] tells about its input. *)
Lemma forward_ok_facts (m : TinyLlamaModel) (input_tokens : list Z)
  (logits : list float32) :
  TinyLlamaModel_forward env m input_tokens = Ok logits ->
  TinyLlamaModel_is_initialized m = true /\
  input_tokens <> [] /\
  (N.of_nat (length input_tokens) <= to_size_t (max_sequence_length (config_ m)))%N /\
  Forall (valid_token (config_ m)) input_tokens /\
  length logits = N.to_nat (to_size_t (vocab_size (config_ m))).
Proof.
  unfold TinyLlamaModel_forward. intro H.
  destruct (TinyLlamaModel_is_initialized m); [|discriminate].
  destruct input_tokens as [|t0 tokens]; [discriminate|].
  set (toks := t0 :: tokens) in *.
  change (negb (Nat.eqb (length toks) 0)) with true in H. cbn match in H.
  destruct (to_size_t (max_sequence_length (config_ m)) <? N.of_nat (length toks))%N eqn:Hmax;
    [discriminate|].
  cbn [negb] in H.
  apply bind_ok in H. destruct H as (rows & Hrows & H).
  apply bind_ok in H. destruct H as (hidden & _ & H).
  apply bind_ok in H. destruct H as (lg & _ & H).
  destruct (negb _); [|discriminate].
  inversion H. subst logits.
  repeat split.
  - discriminate.
  - now apply N.ltb_ge in Hmax.
  - now apply (embed_rows_ok m toks 0%nat rows).
  - now rewrite length_map, length_seq.
Qed.

(** X19. When [forward] returns, the model reports itself initialised, the
    input is not empty and not longer than [max_sequence_length], every
    token id is in [[0, vocab_size)], and there are [vocab_size] logits
    ([vocab_size] converted to [size_t]). *)
Theorem TinyLlamaModel_forward_ok (m : TinyLlamaModel) (input_tokens : list Z)
  (logits : list float32) :
  TinyLlamaModel_forward env m input_tokens = Ok logits ->
  TinyLlamaModel_is_initialized m = true /\
  (0 < length input_tokens)%nat /\
  (N.of_nat (length input_tokens) <= to_size_t (max_sequence_length (config_ m)))%N /\
  Forall (valid_token (config_ m)) input_tokens /\
  Z.of_nat (length logits) = vocab_size (config_ m) mod 2 ^ 64.
Proof.
  intro H. destruct (forward_ok_facts m input_tokens logits H) as (Hi & Hne & Hmax & Hv & Hl).
  split; [exact Hi|]. split; [destruct input_tokens; [congruence | cbn; lia]|].
  split; [exact Hmax|]. split; [exact Hv|].
  rewrite Hl. unfold to_size_t.
  rewrite N_nat_Z, Z2N.id by (apply Z.mod_pos_bound; lia). reflexivity.
Qed.
End ForwardFacts.

Lemma TinyLlamaModel_forward_ok_witness :
  exists logits,
    TinyLlamaModel_forward sample_env (favourite_model 3) [0; 3] = Ok logits /\
    TinyLlamaModel_is_initialized (favourite_model 3) = true /\
    (0 < length [0; 3])%nat /\
    (N.of_nat (length [0; 3]) <= to_size_t (max_sequence_length favourite_config))%N /\
    Forall (valid_token favourite_config) [0; 3] /\
    Z.of_nat (length logits) = vocab_size favourite_config mod 2 ^ 64.
Proof.
  destruct (TinyLlamaModel_forward sample_env (favourite_model 3) [0; 3]) as [logits| |] eqn:H;
    try (vm_compute in H; discriminate).
  exists logits. split; [reflexivity|].
  exact (TinyLlamaModel_forward_ok sample_env (favourite_model 3) [0; 3] logits H).
Defined.

Section Shapes.
Variable env : Env.

Lemma add_residual_shape (a b out : Matrix float32) :
  add_residual a b = Ok out ->
  rows_ out = rows_ a /\ cols_ out = cols_ a /\
  length (data_ out) = (nrows a * ncols a)%nat.
Proof.
  unfold add_residual. destruct (negb _); [|discriminate].
  intro H. injection H as <-. cbn [Matrix_build rows_ cols_ data_].
  split; [reflexivity|]. split; [reflexivity|]. apply build_length.
Qed.

Lemma block_forward_shape (b : TransformerBlock) (input : Matrix float32)
  (mask : option (Matrix float32)) (out : Matrix float32) :
  TransformerBlock_forward env b input mask = Ok out ->
  cols_ input = to_size_t (block_model_dim_ b) /\
  rows_ out = rows_ input /\ cols_ out = cols_ input /\
  length (data_ out) = (nrows out * ncols out)%nat.
Proof.
  unfold TransformerBlock_forward. intro H.
  destruct (cols_ input =? to_size_t (block_model_dim_ b))%N eqn:Hc; [|discriminate].
  apply N.eqb_eq in Hc.
  apply bind_ok in H. destruct H as (n1 & _ & H).
  apply bind_ok in H. destruct H as (att & _ & H).
  apply bind_ok in H. destruct H as (r1 & Hr1 & H).
  apply bind_ok in H. destruct H as (n2 & _ & H).
  apply bind_ok in H. destruct H as (ffn & _ & H).
  apply add_residual_shape in Hr1. destruct Hr1 as (R1 & C1 & _).
  apply add_residual_shape in H. destruct H as (R2 & C2 & L2).
  unfold nrows, ncols in *. rewrite R2, C2, R1, C1, L2, R1, C1. repeat split. exact Hc.
Qed.

(** X20. A stack of transformer blocks that runs through returns hidden
    states of the shape it was given, every block has the model dimension
    of that width, and the buffer of the result holds one element per
    cell. *)
Theorem transformer_blocks_keep_shape (blocks : list TransformerBlock)
  (hidden_states mask out : Matrix float32) :
  run_blocks env blocks hidden_states mask = Ok out ->
  rows_ out = rows_ hidden_states /\
  cols_ out = cols_ hidden_states /\
  Forall (fun b => to_size_t (block_model_dim_ b) = cols_ hidden_states) blocks /\
  (blocks <> [] -> length (data_ out) = (nrows out * ncols out)%nat).
Proof.
  revert hidden_states. induction blocks as [|b blocks IH]; intros hidden H; cbn [run_blocks] in H.
  - injection H as <-. repeat split; [constructor | congruence].
  - apply bind_ok in H. destruct H as (h & Hb & H).
    destruct (block_forward_shape b hidden (Some mask) h Hb) as (Hd & R & C & L).
    destruct (IH h H) as (R' & C' & Hall & L').
    split; [congruence|]. split; [congruence|]. split.
    + constructor; [congruence|]. rewrite <- C. exact Hall.
    + intros _. destruct blocks as [|b' blocks'].
      * cbn [run_blocks] in H. injection H as <-. exact L.
      * apply L'. discriminate.
Qed.
End Shapes.

Lemma transformer_blocks_keep_shape_witness :
  exists out,
    run_blocks sample_env [silent_block] (one_by_one f32_one)
               (TinyLlamaModel_create_attention_mask 1) = Ok out /\
    rows_ out = 1%N /\ cols_ out = 1%N /\
    Forall (fun b => to_size_t (block_model_dim_ b) = 1%N) [silent_block] /\
    ([silent_block] <> [] -> length (data_ out) = (nrows out * ncols out)%nat).
Proof.
  destruct (run_blocks sample_env [silent_block] (one_by_one f32_one)
              (TinyLlamaModel_create_attention_mask 1)) as [out| |] eqn:H;
    try (vm_compute in H; discriminate).
  exists out. split; [reflexivity|].
  exact (transformer_blocks_keep_shape sample_env [silent_block] (one_by_one f32_one)
           (TinyLlamaModel_create_attention_mask 1) out H).
Defined.

Lemma softmax_kernel_length {F : Type} (zero : F) (add sub div : F -> F -> F)
  (exp : F -> F) (ltb : F -> F -> bool) (stored : F) (logits : list F) (temperature : F) :
  length (softmax_kernel zero add sub div exp ltb stored logits temperature)
  = length logits.
Proof.
  unfold softmax_kernel. destruct logits; [reflexivity|]. now rewrite !length_map.
Qed.

Lemma sample_token_bound (probabilities : list float32) (next : Z) :
  TinyLlamaModel_sample_token probabilities = Ok next ->
  0 <= next < Z.of_nat (length probabilities).
Proof.
  unfold TinyLlamaModel_sample_token, sample_token_kernel.
  destruct probabilities as [|p ps]; [discriminate|].
  intro H. injection H as <-.
  pose proof (max_element_bound float32 f32_ltb (p :: ps) ltac:(discriminate)) as Hb.
  change (max_element f32_ltb (p :: ps)) with (max_element_from f32_ltb 0 p 1 ps) in Hb.
  lia.
Qed.

Section GenerationFacts.
Variable env : Env.
Variable m : TinyLlamaModel.

(** The generation loop only appends: at most one token per turn, each a
    position of the logit vector, and never past [max_sequence_length]. *)
Lemma generate_loop_ok (temperature : float32) (fuel : nat) :
  forall tokens result,
    generate_loop env m temperature fuel tokens = Ok result ->
    exists generated,
      result = tokens ++ generated /\
      (length generated <= fuel)%nat /\
      Forall (valid_token (config_ m)) generated /\
      (length result <= Nat.max (length tokens)
                                (N.to_nat (to_size_t (max_sequence_length (config_ m)))))%nat.
Proof.
  induction fuel as [|fuel IH]; intros tokens result H; cbn [generate_loop] in H.
  - inversion H. subst. exists []. rewrite app_nil_r.
    split; [reflexivity|]. split; [cbn; lia|]. split; [constructor | lia].
  - destruct (to_size_t (max_sequence_length (config_ m)) <=? N.of_nat (length tokens))%N
      eqn:Hmax.
    + inversion H. subst. exists []. rewrite app_nil_r.
      split; [reflexivity|]. split; [cbn; lia|]. split; [constructor | lia].
    + apply N.leb_gt in Hmax.
      apply bind_ok in H. destruct H as (logits & Hfwd & H).
      apply bind_ok in H. destruct H as (next & Hnext & H).
      apply sample_token_bound in Hnext.
      unfold TinyLlamaModel_softmax in Hnext. rewrite softmax_kernel_length in Hnext.
      destruct (forward_ok_facts env m tokens logits Hfwd) as (_ & Hne & _ & Hvalid & Hlen).
      assert (Hs : valid_token (config_ m) next).
      { destruct tokens as [|t0 tokens']; [congruence|].
        inversion Hvalid as [|? ? Ht0 _]. subst. unfold valid_token in *.
        rewrite Hlen in Hnext. unfold to_size_t in Hnext.
        rewrite N_nat_Z, Z2N.id in Hnext by (apply Z.mod_pos_bound; lia).
        pose proof (Z.mod_le (vocab_size (config_ m)) (2 ^ 64)). lia. }
      destruct (next =? 2).
      * inversion H. subst. exists [next].
        split; [reflexivity|]. split; [cbn; lia|]. split; [now constructor|].
        rewrite length_app. cbn. lia.
      * destruct (IH _ _ H) as (gen & -> & Hg & Hall & Hbound).
        exists (next :: gen). rewrite <- app_assoc.
        split; [reflexivity|]. split; [cbn; lia|]. split; [now constructor|].
        rewrite <- app_assoc in Hbound. rewrite !length_app in *. cbn [length app] in *. lia.
Qed.

(** X21. The text that [generate_text] returns is the prompt followed by
    the detokenization of the generated tokens: at most [max_tokens] of
    them, each a valid token id of the configuration; and [max_tokens] is
    positive. *)
Theorem generate_text_ok (prompt : string) (max_tokens : Z) (temperature : float32)
  (text : string) :
  TinyLlamaModel_generate_text env m prompt max_tokens temperature = Ok text ->
  0 < max_tokens /\
  exists tokenizer generated,
    tokenizer_ m = Some tokenizer /\
    (Z.of_nat (length generated) <= max_tokens) /\
    Forall (valid_token (config_ m)) generated /\
    text = (prompt ++ BPETokenizer_decode tokenizer generated)%string.
Proof.
  unfold TinyLlamaModel_generate_text. intro H.
  destruct (TinyLlamaModel_is_initialized m) eqn:Hinit; [|discriminate].
  destruct (max_tokens <=? 0) eqn:Hpos; [discriminate|]. cbn [negb] in H.
  apply Z.leb_gt in Hpos. split; [exact Hpos|].
  unfold TinyLlamaModel_is_initialized in Hinit.
  unfold TinyLlamaModel_tokenize, TinyLlamaModel_detokenize in H.
  destruct (tokenizer_ m) as [tk|]; [|discriminate].
  cbn [bind] in H.
  set (start := if (_ <=? _)%N then _ else _) in H.
  destruct (generate_loop env m temperature (Z.to_nat max_tokens) start) as [tokens| |] eqn:Hloop;
    cbn [bind] in H; try discriminate.
  destruct (generate_loop_ok _ _ _ _ Hloop) as (gen & -> & Hg & Hall & _).
  exists tk, gen. split; [reflexivity|]. split; [lia|]. split; [exact Hall|].
  rewrite length_app in H.
  destruct (length start <? length start + length gen)%nat eqn:E.
  - rewrite skipn_app, Nat.sub_diag, skipn_all in H. cbn [skipn app] in H.
    now inversion H.
  - apply Nat.ltb_ge in E. assert (gen = []) by (destruct gen; [reflexivity | cbn in E; lia]).
    subst gen. now inversion H.
Qed.
End GenerationFacts.

Lemma generate_text_ok_witness :
  0 < 3 /\
  exists tokenizer generated,
    tokenizer_ (favourite_model 3) = Some tokenizer /\
    (Z.of_nat (length generated) <= 3) /\
    Forall (valid_token favourite_config) generated /\
    "a<eos><eos><eos>"%string = ("a" ++ BPETokenizer_decode tokenizer generated)%string.
Proof.
  apply (generate_text_ok sample_env (favourite_model 3) "a" 3 f32_one).
  vm_compute. reflexivity.
Defined.

(** ** The weight file *)

(** Reading back, from the front of a stream, what the writer put there. *)
Lemma read_scalar_app (n : nat) (bs rest : list byte) :
  length bs = n ->
  read_scalar n (mkStream (bs ++ rest) false) = Ok (decode_le bs, mkStream rest false).
Proof.
  intro H. unfold read_scalar. rewrite ifstream_read_prefix by exact H.
  now rewrite H, Nat.eqb_refl.
Qed.

Lemma read_over_app (n : nat) (old bs rest : list byte) :
  length bs = n ->
  read_over n old (mkStream (bs ++ rest) false) = (bs, mkStream rest false).
Proof.
  intro H. unfold read_over. rewrite ifstream_read_prefix by exact H.
  f_equal. rewrite firstn_app, H, Nat.sub_diag. cbn [firstn].
  rewrite app_nil_r. apply firstn_all2. lia.
Qed.

Lemma int_of_u32_mod (z : Z) : is_int z -> int_of_u32 (z mod 2 ^ 32) = z.
Proof.
  unfold is_int, int_of_u32. intro H.
  destruct (Z.ltb_spec (z mod 2 ^ 32) (2 ^ 31)) as [Hlt|Hge].
  - destruct (Z.le_gt_cases 0 z) as [Hpos|Hneg].
    + apply Z.mod_small. lia.
    + rewrite <- (Z.mod_add z 1 (2 ^ 32)) in Hlt by lia.
      rewrite Z.mod_small in Hlt by lia. lia.
  - destruct (Z.le_gt_cases 0 z) as [Hpos|Hneg].
    + rewrite Z.mod_small in Hge by lia. lia.
    + rewrite <- (Z.mod_add z 1 (2 ^ 32)) by lia.
      rewrite Z.mod_small by lia. lia.
Qed.

Lemma read_int_over_app (old z : Z) (rest : list byte) :
  read_int_over old (mkStream (int_bytes z ++ rest) false)
  = (int_of_u32 (z mod 2 ^ 32), mkStream rest false).
Proof.
  unfold read_int_over, int_bytes.
  rewrite read_over_app by apply encode_le_length.
  rewrite decode_encode_le; [reflexivity|].
  change (256 ^ Z.of_nat 4) with (2 ^ 32). apply Z.mod_pos_bound. lia.
Qed.

Lemma read_float_over_app (old x : float32) (rest : list byte) :
  read_float_over old (mkStream (float32_to_bytes x ++ rest) false)
  = (float32_of_bytes (float32_to_bytes x), mkStream rest false).
Proof.
  unfold read_float_over.
  now rewrite read_over_app by apply encode_le_length.
Qed.

Lemma read_floats_app (old data : list float32) (rest : list byte) :
  Forall copyable data -> length old = length data ->
  read_floats old (mkStream (elements_to_bytes data ++ rest) false)
  = (data, mkStream rest false).
Proof.
  intros Hcopy Hlen. unfold read_floats.
  rewrite ifstream_read_prefix
    by (rewrite (elements_to_bytes_length _ Hcopy), Hlen; reflexivity).
  now rewrite elements_of_to_bytes.
Qed.

Lemma load_matrix_record (rows cols : N) (mismatch : string)
  (buffer : N -> N -> Matrix float32) (data : list float32) (rest : list byte) :
  (rows < size_t_modulus)%N -> (cols < size_t_modulus)%N ->
  length (data_ (buffer rows cols)) = length data ->
  Forall copyable data ->
  load_matrix rows cols mismatch buffer (mkStream (matrix_record rows cols data ++ rest) false)
  = Ok (mkMatrix data rows cols, mkStream rest false).
Proof.
  intros Hr Hc Hlen Hcopy. unfold load_matrix, matrix_record.
  rewrite <- !app_assoc.
  rewrite read_scalar_app by apply encode_le_length. cbn [bind fst snd].
  rewrite read_scalar_app by apply encode_le_length. cbn [bind fst snd].
  rewrite !decode_size_bytes by assumption.
  rewrite !N.eqb_refl. cbn [andb].
  now rewrite read_floats_app.
Qed.

Lemma load_vector_record (size : N) (mismatch : string) (data : list float32)
  (rest : list byte) :
  (size < size_t_modulus)%N ->
  length data = N.to_nat size ->
  Forall copyable data ->
  load_vector size mismatch (mkStream (vector_record size data ++ rest) false)
  = Ok (data, mkStream rest false).
Proof.
  intros Hs Hlen Hcopy. unfold load_vector, vector_record.
  rewrite <- !app_assoc.
  rewrite read_scalar_app by apply encode_le_length. cbn [bind fst snd].
  rewrite decode_size_bytes by assumption.
  rewrite N.eqb_refl.
  rewrite read_floats_app; [reflexivity | assumption |].
  now rewrite repeat_length.
Qed.

(** One layer of a saved file loads as the placeholder block. *)
Lemma load_layer (c : ModelConfig) (layer : Z) (b : TransformerBlock) (rest : list byte) :
  0 <= layer < num_layers c ->
  exists b1 b2,
    load_attention_weights c layer b (mkStream (save_layer_bytes c ++ rest) false)
    = Ok b1 /\
    load_ffn_weights c layer (fst b1) (snd b1) = Ok b2 /\
    load_layer_norm_weights c layer (fst b2) (snd b2)
    = Ok (placeholder_block c b, mkStream rest false).
Proof.
  intro Hlayer.
  assert (Hcheck : negb ((layer <? 0) || (num_layers c <=? layer)) = true).
  { replace (layer <? 0) with false by (symmetry; apply Z.ltb_ge; lia).
    replace (num_layers c <=? layer) with false by (symmetry; apply Z.leb_gt; lia).
    reflexivity. }
  pose proof (to_size_t_fits (model_dim c)) as Hd.
  pose proof (to_size_t_fits (ffn_hidden_dim c)) as Hh.
  unfold save_layer_bytes.
  set (d := to_size_t (model_dim c)) in *. set (h := to_size_t (ffn_hidden_dim c)) in *.
  cbv zeta. rewrite <- !app_assoc.
  eexists. eexists. split; [|split].
  - unfold load_attention_weights. rewrite Hcheck. fold d.
    rewrite load_matrix_record; try assumption;
      [|cbn; now rewrite repeat_length, filled_length
       |apply filled_copyable, copyable_tenth].
    cbn [bind fst snd].
    rewrite load_matrix_record; try assumption;
      [|cbn; now rewrite repeat_length, filled_length
       |apply filled_copyable, copyable_tenth].
    cbn [bind fst snd].
    rewrite load_matrix_record; try assumption;
      [|cbn; now rewrite repeat_length, filled_length
       |apply filled_copyable, copyable_tenth].
    cbn [bind fst snd].
    rewrite load_matrix_record; try assumption;
      [|cbn; now rewrite repeat_length, filled_length
       |apply filled_copyable, copyable_tenth].
    cbn [bind fst snd]. reflexivity.
  - cbn [fst snd]. unfold load_ffn_weights. rewrite Hcheck. fold d h.
    rewrite load_matrix_record; try assumption;
      [|cbn; now rewrite repeat_length, filled_length
       |apply filled_copyable, copyable_tenth].
    cbn [bind fst snd].
    rewrite load_vector_record; try assumption;
      [|apply filled_length | apply filled_copyable, copyable_zero].
    cbn [bind fst snd].
    rewrite load_matrix_record; try assumption;
      [|cbn; now rewrite repeat_length, filled_length
       |apply filled_copyable, copyable_tenth].
    cbn [bind fst snd].
    rewrite load_vector_record; try assumption;
      [|apply filled_length | apply filled_copyable, copyable_zero].
    cbn [bind fst snd]. reflexivity.
  - cbn [fst snd]. unfold load_layer_norm_weights. rewrite Hcheck. fold d.
    rewrite load_vector_record; try assumption;
      [|apply filled_length | apply filled_copyable, copyable_one].
    cbn [bind fst snd].
    rewrite load_vector_record; try assumption;
      [|apply filled_length | apply filled_copyable, copyable_zero].
    cbn [bind fst snd].
    rewrite load_vector_record; try assumption;
      [|apply filled_length | apply filled_copyable, copyable_one].
    cbn [bind fst snd].
    rewrite load_vector_record; try assumption;
      [|apply filled_length | apply filled_copyable, copyable_zero].
    cbn [bind fst snd]. reflexivity.
Qed.

Lemma load_saved_layers (c : ModelConfig) (n : nat) :
  forall layer blocks rest,
    0 <= layer -> ((0 < n)%nat -> layer + Z.of_nat n <= num_layers c) ->
    (n <= length blocks)%nat ->
    load_layers c n layer blocks
      (mkStream (concat (repeat (save_layer_bytes c) n) ++ rest) false)
    = Ok (map (placeholder_block c) (firstn n blocks) ++ skipn n blocks,
          mkStream rest false).
Proof.
  induction n as [|n IH]; intros layer blocks rest H0 Hn Hlen; cbn [load_layers].
  - reflexivity.
  - destruct blocks as [|b blocks]; [cbn in Hlen; lia|].
    cbn [repeat concat]. rewrite <- app_assoc.
    destruct (load_layer c layer b (concat (repeat (save_layer_bytes c) n) ++ rest))
      as (b1 & b2 & H1 & H2 & H3); [lia|].
    rewrite H1. cbn [bind]. rewrite H2. cbn [bind]. rewrite H3. cbn [bind fst snd].
    rewrite IH by (cbn in Hlen; lia). reflexivity.
Qed.

Lemma matrix_eta (t : Matrix float32) : mkMatrix (data_ t) (rows_ t) (cols_ t) = t.
Proof. now destruct t. Qed.

(** Loading what [save_model_weights] wrote, followed by [extra]. *)
Lemma load_saved_body (m target : TinyLlamaModel) (extra : list byte) :
  config_ target = config_ m ->
  is_int (model_dim (config_ m)) -> is_int (num_layers (config_ m)) ->
  is_int (num_heads (config_ m)) -> is_int (vocab_size (config_ m)) ->
  configured_shapes m ->
  (Z.to_nat (num_layers (config_ m)) <= length (transformer_blocks_ target))%nat ->
  load_model_weights_body target (ifstream_open (save_model_weights_bytes m ++ extra))
  = match extra with
    | [] => Ok (reloaded m target)
    | _ :: _ => Throw (FileIOException "Unexpected data at end of weights file")
    end.
Proof.
  intros Hcfg Hd Hl Hh Hv (Hemb & Hpos & Hout) Hblocks.
  destruct Hemb as (Er & Ec & El & Ecopy).
  destruct Hpos as (Pr & Pc & Pl & Pcopy).
  destruct Hout as (Or & Oc & Ol & Ocopy).
  unfold load_model_weights_body, save_model_weights_bytes, header_bytes, save_body_bytes,
    ifstream_open, matrix_bytes.
  rewrite Hcfg. set (c := config_ m) in *.
  rewrite <- !app_assoc.
  rewrite read_scalar_app by apply encode_le_length. cbn [bind fst snd].
  rewrite decode_encode_le by (cbn; unfold MAGIC_NUMBER; lia).
  rewrite Z.eqb_refl.
  rewrite read_scalar_app by apply encode_le_length. cbn [bind fst snd].
  rewrite decode_encode_le by (cbn; unfold SUPPORTED_VERSION; lia).
  rewrite Z.eqb_refl.
  rewrite !read_int_over_app, read_float_over_app.
  rewrite !int_of_u32_mod by assumption.
  rewrite !Z.eqb_refl.
  rewrite Er, Ec.
  rewrite load_matrix_record;
    [|apply to_size_t_fits|apply to_size_t_fits
     |cbn [Matrix_resize data_]; now rewrite vector_resize_length|assumption].
  cbn [bind fst snd].
  rewrite Pr, Pc.
  rewrite load_matrix_record;
    [|apply to_size_t_fits|apply to_size_t_fits
     |cbn [Matrix_resize data_]; now rewrite vector_resize_length|assumption].
  cbn [bind fst snd].
  rewrite load_saved_layers; [|lia|lia|assumption].
  cbn [bind fst snd].
  rewrite Or, Oc.
  rewrite load_matrix_record;
    [|apply to_size_t_fits|apply to_size_t_fits
     |cbn [Matrix_resize data_]; now rewrite vector_resize_length|assumption].
  cbn [bind fst snd].
  destruct extra as [|x extra]; cbn [ifstream_read is_fail is_buf length Nat.leb].
  - assert (He : mkMatrix (data_ (embedding_weights_ m)) (to_size_t (vocab_size c))
                   (to_size_t (model_dim c)) = embedding_weights_ m)
      by (rewrite <- Er, <- Ec; apply matrix_eta).
    assert (Hp : mkMatrix (data_ (position_embeddings_ m))
                   (to_size_t (max_sequence_length c)) (to_size_t (model_dim c))
                 = position_embeddings_ m)
      by (rewrite <- Pr, <- Pc; apply matrix_eta).
    assert (Ho : mkMatrix (data_ (output_projection_ m)) (to_size_t (model_dim c))
                   (to_size_t (vocab_size c)) = output_projection_ m)
      by (rewrite <- Or, <- Oc; apply matrix_eta).
    rewrite He, Hp, Ho. unfold reloaded. fold c. now rewrite Hcfg.
  - reflexivity.
Qed.

Lemma favourite_model_configured : configured_shapes (favourite_model 3).
Proof.
  repeat split; try reflexivity; cbn; repeat constructor.
Qed.

(** X22. A file written by [save_model_weights] loads into any model of the
    same configuration that has its layers: the embeddings and the output
    projection come back as saved, every layer comes back with the
    placeholder weights, and saving the reloaded model writes the same file
    again. *)
Theorem save_then_load_model_weights (m target : TinyLlamaModel) (weights_file : string)
  (fs : FileSystem) :
  config_ target = config_ m ->
  is_int (model_dim (config_ m)) -> is_int (num_layers (config_ m)) ->
  is_int (num_heads (config_ m)) -> is_int (vocab_size (config_ m)) ->
  configured_shapes m ->
  (Z.to_nat (num_layers (config_ m)) <= length (transformer_blocks_ target))%nat ->
  fs_can_create fs weights_file = true ->
  exists fs',
    TinyLlamaModel_save_model_weights m weights_file fs = Ok fs' /\
    TinyLlamaModel_load_model_weights target weights_file fs' = Ok (reloaded m target) /\
    save_model_weights_bytes (reloaded m target) = save_model_weights_bytes m.
Proof.
  intros Hcfg Hd Hl Hh Hv Hshapes Hblocks Hcreate.
  unfold TinyLlamaModel_save_model_weights. rewrite Hcreate.
  eexists. split; [reflexivity|]. split.
  - unfold TinyLlamaModel_load_model_weights, fs_write. cbn [fs_files].
    rewrite String.eqb_refl.
    rewrite <- (app_nil_r (save_model_weights_bytes m)).
    now rewrite (load_saved_body m target []).
  - unfold save_model_weights_bytes, save_body_bytes, reloaded.
    cbn [config_ embedding_weights_ position_embeddings_ output_projection_].
    now rewrite Hcfg.
Qed.

Lemma save_then_load_model_weights_witness :
  exists fs',
    TinyLlamaModel_save_model_weights (favourite_model 3) "weights.bin" empty_fs = Ok fs' /\
    TinyLlamaModel_load_model_weights (favourite_model 2) "weights.bin" fs'
    = Ok (reloaded (favourite_model 3) (favourite_model 2)) /\
    save_model_weights_bytes (reloaded (favourite_model 3) (favourite_model 2))
    = save_model_weights_bytes (favourite_model 3).
Proof.
  apply (save_then_load_model_weights (favourite_model 3) (favourite_model 2)
           "weights.bin" empty_fs); try reflexivity.
  - split; [discriminate | reflexivity].
  - split; [discriminate | reflexivity].
  - split; [discriminate | reflexivity].
  - split; [discriminate | reflexivity].
  - exact favourite_model_configured.
Defined.

(** X23. [load_model_weights] refuses a saved file with any bytes appended:
    a [FileIOException] for unexpected data at the end of the file. *)
Theorem load_model_weights_rejects_trailing_data (m target : TinyLlamaModel)
  (weights_file : string) (fs : FileSystem) (extra : list byte) :
  config_ target = config_ m ->
  is_int (model_dim (config_ m)) -> is_int (num_layers (config_ m)) ->
  is_int (num_heads (config_ m)) -> is_int (vocab_size (config_ m)) ->
  configured_shapes m ->
  (Z.to_nat (num_layers (config_ m)) <= length (transformer_blocks_ target))%nat ->
  extra <> [] ->
  fs_files fs weights_file = Some (save_model_weights_bytes m ++ extra) ->
  TinyLlamaModel_load_model_weights target weights_file fs
  = Throw (FileIOException "Unexpected data at end of weights file").
Proof.
  intros Hcfg Hd Hl Hh Hv Hshapes Hblocks Hextra Hfile.
  unfold TinyLlamaModel_load_model_weights. rewrite Hfile.
  rewrite (load_saved_body m target extra) by assumption.
  destruct extra; [congruence | reflexivity].
Qed.

Lemma load_model_weights_rejects_trailing_data_witness :
  TinyLlamaModel_load_model_weights (favourite_model 2) "weights.bin"
    (fs_write empty_fs "weights.bin" (save_model_weights_bytes (favourite_model 3) ++ [x00]))
  = Throw (FileIOException "Unexpected data at end of weights file").
Proof.
  apply (load_model_weights_rejects_trailing_data (favourite_model 3) (favourite_model 2)
           "weights.bin" _ [x00]); try reflexivity.
  - split; [discriminate | reflexivity].
  - split; [discriminate | reflexivity].
  - split; [discriminate | reflexivity].
  - split; [discriminate | reflexivity].
  - exact favourite_model_configured.
  - discriminate.
Defined.

(** ** The facade *)

(** With the default configuration (512 divisible by 8) no block
    constructor throws. *)
Lemma default_blocks_succeed (env : Env) (n : nat) :
  forall k, exists bk, make_blocks env n k ModelConfig_default = Ok bk.
Proof.
  induction n as [|n IH]; intro k; cbn [make_blocks].
  - eexists; reflexivity.
  - unfold TransformerBlock_ctor, MultiHeadAttention_ctor.
    change (num_heads ModelConfig_default =? 0) with false.
    change (negb (Z.rem (model_dim ModelConfig_default) (num_heads ModelConfig_default) =? 0))
      with false.
    cbv beta iota. cbn [bind snd].
    match goal with
    | |- context [make_blocks env n ?k' _] => destruct (IH k') as [bk Hbk]; rewrite Hbk
    end.
    cbn [bind]. eexists; reflexivity.
Qed.

Lemma default_ctor_succeeds (env : Env) :
  exists m, TinyLlamaModel_ctor env ModelConfig_default = Ok m.
Proof.
  unfold TinyLlamaModel_ctor, TinyLlamaModel_ctor_at.
  destruct (default_blocks_succeed env (Z.to_nat (num_layers ModelConfig_default)) 0)
    as [bk Hbk].
  rewrite Hbk. cbn [bind]. eexists; reflexivity.
Qed.

(** X24. The facade's constructor succeeds and leaves the facade
    uninitialised, although the model it wraps reports itself initialised;
    until [initialize] has run, [generate] and [get_vocab_size] throw a
    [ModelException] and the tokenizer calls a [TokenizerException]. *)
Theorem TinyLlama_fresh_is_unusable (env : Env) :
  exists t m,
    TinyLlama_ctor env = Ok t /\
    is_initialized_ t = false /\
    model_ t = Some m /\
    TinyLlamaModel_is_initialized m = true /\
    (forall prompt max_tokens,
        TinyLlama_generate env t prompt max_tokens
        = Throw (ModelException "Model not initialized. Call initialize() first.")) /\
    (forall text,
        TinyLlama_tokenize_to_ids t text
        = Throw (TokenizerException "Model not initialized. Call initialize() first.")) /\
    (forall token_ids,
        TinyLlama_detokenize t token_ids
        = Throw (TokenizerException "Model not initialized. Call initialize() first.")) /\
    TinyLlama_get_vocab_size t
    = Throw (ModelException "Model not initialized. Call initialize() first.").
Proof.
  destruct (default_ctor_succeeds env) as [m Hm].
  exists {| model_ := Some m; is_initialized_ := false |}, m.
  split; [unfold TinyLlama_ctor, TinyLlamaModel_default_ctor; rewrite Hm; reflexivity|].
  split; [reflexivity|]. split; [reflexivity|].
  split; [exact (fresh_tokenizer_has_vocabulary env ModelConfig_default m Hm)|].
  split; [intros; reflexivity|].
  split; [intros; reflexivity|].
  split; [intros; reflexivity|].
  reflexivity.
Qed.

(** What the validators accept, and the class of what they throw. *)
Lemma validate_string_input_ok (input : string) (allow_empty : bool) :
  validate_string_input input allow_empty = Ok tt ->
  (allow_empty = false -> (0 < String.length input)%nat) /\
  ~ In NUL (list_ascii_of_string input) /\
  Z.of_nat (String.length input) <= 1000000.
Proof.
  unfold validate_string_input.
  destruct (negb allow_empty && (String.length input =? 0)%nat) eqn:E1; [discriminate|].
  destruct (existsb (Ascii.eqb NUL) (list_ascii_of_string input)) eqn:E2; [discriminate|].
  destruct (1000000 <? Z.of_nat (String.length input)) eqn:E3; [discriminate|].
  intros _. split; [|split].
  - intros ->. cbn in E1. apply Nat.eqb_neq in E1. lia.
  - intro Hin. assert (existsb (Ascii.eqb NUL) (list_ascii_of_string input) = true).
    { apply existsb_exists. exists NUL. split; [exact Hin | apply Ascii.eqb_refl]. }
    congruence.
  - now apply Z.ltb_ge in E3.
Qed.

Lemma validate_string_input_throws (input : string) (allow_empty : bool) (e : exn) :
  validate_string_input input allow_empty = Throw e -> is_TinyLlamaException e = true.
Proof.
  unfold validate_string_input.
  repeat match goal with
         | |- context [if ?c then _ else _] => destruct c
         end; intro H; inversion H; reflexivity.
Qed.

Lemma validate_positive_integer_throws (value min_value : Z) (e : exn) :
  validate_positive_integer value min_value = Throw e -> is_TinyLlamaException e = true.
Proof.
  unfold validate_positive_integer.
  repeat match goal with
         | |- context [if ?c then _ else _] => destruct c
         end; intro H; inversion H; reflexivity.
Qed.

Lemma validate_positive_float_throws (value min_value : float32) (e : exn) :
  validate_positive_float value min_value = Throw e -> is_TinyLlamaException e = true.
Proof.
  unfold validate_positive_float.
  repeat match goal with
         | |- context [if ?c then _ else _] => destruct c
         end; intro H; inversion H; reflexivity.
Qed.

Lemma validate_token_ids_throws (token_ids : list Z) (e : exn) :
  validate_token_ids token_ids = Throw e -> is_TinyLlamaException e = true.
Proof.
  unfold validate_token_ids. destruct token_ids; [discriminate|].
  repeat match goal with
         | |- context [if ?c then _ else _] => destruct c
         end; intro H; inversion H; reflexivity.
Qed.

Lemma rethrow_throws {A : Type} (wrapped : exn) (r : result A) (e : exn) :
  is_TinyLlamaException wrapped = true ->
  rethrow wrapped r = Throw e -> is_TinyLlamaException e = true.
Proof.
  intros Hw. unfold rethrow. destruct r as [a|e0|]; try discriminate.
  destruct (is_TinyLlamaException e0) eqn:E; intro H; inversion H; subst; assumption.
Qed.

Lemma validate_token_ids_ok (token_ids : list Z) :
  validate_token_ids token_ids = Ok tt ->
  Forall (fun id => 0 <= id) token_ids /\ Z.of_nat (length token_ids) <= 100000.
Proof.
  unfold validate_token_ids. destruct token_ids as [|t0 l]; [intros _; split; [constructor | cbn; lia]|].
  set (ids := t0 :: l).
  destruct (100000 <? Z.of_nat (length ids)) eqn:E1; [discriminate|].
  destruct (existsb (fun id => id <? 0) ids) eqn:E2; [discriminate|].
  intros _. split; [|now apply Z.ltb_ge in E1].
  apply Forall_forall. intros id Hin.
  destruct (Z.ltb_spec id 0) as [Hneg|]; [|assumption].
  assert (existsb (fun id => id <? 0) ids = true).
  { apply existsb_exists. exists id. split; [exact Hin | now apply Z.ltb_lt]. }
  congruence.
Qed.

Section FacadeFacts.
Variable env : Env.

(** X25. [generate] returns a text only on an initialised facade, for a
    prompt of 1 to 1000000 characters without NUL and [max_tokens] between
    1 and the smaller of 10000 and the model's [max_sequence_length]; the
    text is what [generate_text] returns at temperature 1. *)
Theorem TinyLlama_generate_ok (t : TinyLlama) (prompt : string) (max_tokens : Z)
  (text : string) :
  TinyLlama_generate env t prompt max_tokens = Ok text ->
  is_initialized_ t = true /\
  (0 < String.length prompt)%nat /\
  Z.of_nat (String.length prompt) <= 1000000 /\
  ~ In NUL (list_ascii_of_string prompt) /\
  1 <= max_tokens <= 10000 /\
  exists m,
    model_ t = Some m /\
    max_tokens <= max_sequence_length (config_ m) /\
    TinyLlamaModel_generate_text env m prompt max_tokens f32_one = Ok text.
Proof.
  unfold TinyLlama_generate. intro H.
  destruct (is_initialized_ t); [|discriminate].
  destruct (validate_string_input prompt false) as [[]| |] eqn:Hs; try discriminate.
  cbn [bind] in H.
  destruct (validate_string_input_ok prompt false Hs) as (Hne & Hnul & Hlen).
  unfold validate_positive_integer in H.
  destruct (max_tokens <? 1) eqn:E1; [discriminate|]. cbn [negb] in H.
  destruct (1000000 <? max_tokens) eqn:E2; [discriminate|]. cbn [negb bind] in H.
  destruct (10000 <? max_tokens) eqn:E3; [discriminate|]. cbn [negb] in H.
  destruct (model_ t) as [m|]; [|discriminate].
  destruct (max_sequence_length (config_ m) <? max_tokens) eqn:E4; [discriminate|].
  cbn [negb] in H.
  apply Z.ltb_ge in E1, E3, E4.
  split; [reflexivity|]. split; [now apply Hne|]. split; [exact Hlen|].
  split; [exact Hnul|]. split; [lia|].
  exists m. split; [reflexivity|]. split; [exact E4|].
  destruct (TinyLlamaModel_generate_text env m prompt max_tokens f32_one) as [s|e|];
    try discriminate; [exact H|].
  destruct (is_TinyLlamaException e); discriminate.
Qed.

(** X26. Every exception that leaves a method of the facade is one of the
    project's exception classes: a standard exception of the layers below
    never escapes. *)
Theorem TinyLlama_throws_project_exceptions (t : TinyLlama) (e : exn) :
  (forall prompt max_tokens,
      TinyLlama_generate env t prompt max_tokens = Throw e -> is_TinyLlamaException e = true) /\
  (forall text,
      TinyLlama_tokenize_to_ids t text = Throw e -> is_TinyLlamaException e = true) /\
  (forall text,
      TinyLlama_tokenize_to_strings t text = Throw e -> is_TinyLlamaException e = true) /\
  (forall token_ids,
      TinyLlama_detokenize t token_ids = Throw e -> is_TinyLlamaException e = true) /\
  (forall temperature,
      TinyLlama_set_temperature t temperature = Throw e -> is_TinyLlamaException e = true) /\
  (forall max_length,
      TinyLlama_set_max_sequence_length t max_length = Throw e ->
      is_TinyLlamaException e = true) /\
  (TinyLlama_get_vocab_size t = Throw e -> is_TinyLlamaException e = true).
Proof.
  split; [|split; [|split; [|split; [|split; [|split]]]]].
  - intros prompt max_tokens. unfold TinyLlama_generate.
    destruct (is_initialized_ t); [|intro H; inversion H; reflexivity].
    destruct (validate_string_input prompt false) as [[]|e0|] eqn:Hs; cbn [bind];
      [|intro H; inversion H; subst; now apply (validate_string_input_throws prompt false)
       |discriminate].
    destruct (validate_positive_integer max_tokens 1) as [[]|e0|] eqn:Hi; cbn [bind];
      [|intro H; inversion H; subst; now apply (validate_positive_integer_throws max_tokens 1)
       |discriminate].
    destruct (negb (10000 <? max_tokens)); [|intro H; inversion H; reflexivity].
    destruct (model_ t) as [m|]; [|discriminate].
    destruct (negb (max_sequence_length (config_ m) <? max_tokens));
      [|intro H; inversion H; reflexivity].
    destruct (TinyLlamaModel_generate_text env m prompt max_tokens f32_one) as [s|e0|];
      try discriminate.
    destruct (is_TinyLlamaException e0) eqn:E; intro H; inversion H; subst;
      [exact E | reflexivity].
  - intros text. unfold TinyLlama_tokenize_to_ids.
    destruct (is_initialized_ t); [|intro H; inversion H; reflexivity].
    destruct (validate_string_input text true) as [[]|e0|] eqn:Hs; cbn [bind];
      [|intro H; inversion H; subst; now apply (validate_string_input_throws text true)
       |discriminate].
    destruct (model_ t) as [m|]; [|discriminate].
    now apply rethrow_throws.
  - intros text. unfold TinyLlama_tokenize_to_strings.
    destruct (is_initialized_ t); [|intro H; inversion H; reflexivity].
    destruct (validate_string_input text true) as [[]|e0|] eqn:Hs; cbn [bind];
      [|intro H; inversion H; subst; now apply (validate_string_input_throws text true)
       |discriminate].
    destruct (model_ t) as [m|]; [|discriminate].
    now apply rethrow_throws.
  - intros ids. unfold TinyLlama_detokenize.
    destruct (is_initialized_ t); [|intro H; inversion H; reflexivity].
    destruct (validate_token_ids ids) as [[]|e0|] eqn:Hs; cbn [bind];
      [|intro H; inversion H; subst; now apply (validate_token_ids_throws ids)
       |discriminate].
    destruct (model_ t) as [m|]; [|discriminate].
    now apply rethrow_throws.
  - intros x. unfold TinyLlama_set_temperature.
    destruct (model_ t) as [m|]; [|intro H; inversion H; reflexivity].
    destruct (validate_positive_float x _) as [[]|e0|] eqn:Hs; cbn [bind];
      [discriminate
      |intro H; inversion H; subst; now apply (validate_positive_float_throws _ _ _ Hs)
      |discriminate].
  - intros n. unfold TinyLlama_set_max_sequence_length.
    destruct (model_ t) as [m|]; [|intro H; inversion H; reflexivity].
    destruct (validate_positive_integer n 1) as [[]|e0|] eqn:Hi; cbn [bind];
      [|intro H; inversion H; subst; now apply (validate_positive_integer_throws n 1)
       |discriminate].
    destruct (negb (100000 <? n)); intro H; inversion H; reflexivity.
  - unfold TinyLlama_get_vocab_size.
    destruct (model_ t) as [m|]; [|intro H; inversion H; reflexivity].
    destruct (is_initialized_ t); [discriminate | intro H; inversion H; reflexivity].
Qed.
End FacadeFacts.

Lemma TinyLlama_generate_ok_witness :
  let t := {| model_ := Some (favourite_model 3); is_initialized_ := true |} in
  is_initialized_ t = true /\
  (0 < String.length "a")%nat /\
  Z.of_nat (String.length "a") <= 1000000 /\
  ~ In NUL (list_ascii_of_string "a") /\
  1 <= 3 <= 10000 /\
  exists m,
    model_ t = Some m /\
    3 <= max_sequence_length (config_ m) /\
    TinyLlamaModel_generate_text sample_env m "a" 3 f32_one = Ok "a<eos><eos><eos>"%string.
Proof.
  intro t. apply (TinyLlama_generate_ok sample_env t "a" 3 "a<eos><eos><eos>").
  vm_compute. reflexivity.
Defined.

Lemma TinyLlama_throws_project_exceptions_witness :
  is_TinyLlamaException (ModelException "Model not initialized. Call initialize() first.")
  = true.
Proof.
  destruct (TinyLlama_throws_project_exceptions sample_env
              {| model_ := Some (favourite_model 3); is_initialized_ := false |}
              (ModelException "Model not initialized. Call initialize() first."))
    as [Hgenerate _].
  apply (Hgenerate "a"%string 3). reflexivity.
Defined.

(** X27. [tokenize_to_ids] returns the tokenizer's encoding, for a text
    without NUL of at most 1000000 characters; [detokenize] returns the
    tokenizer's decoding, for at most 100000 ids none of which is negative;
    both only on an initialised facade. *)
Theorem TinyLlama_tokenization_delegates (t : TinyLlama) :
  (forall text ids,
      TinyLlama_tokenize_to_ids t text = Ok ids ->
      is_initialized_ t = true /\
      ~ In NUL (list_ascii_of_string text) /\
      Z.of_nat (String.length text) <= 1000000 /\
      exists m tokenizer,
        model_ t = Some m /\ tokenizer_ m = Some tokenizer /\
        ids = BPETokenizer_encode tokenizer text) /\
  (forall token_ids text,
      TinyLlama_detokenize t token_ids = Ok text ->
      is_initialized_ t = true /\
      Forall (fun id => 0 <= id) token_ids /\
      Z.of_nat (length token_ids) <= 100000 /\
      exists m tokenizer,
        model_ t = Some m /\ tokenizer_ m = Some tokenizer /\
        text = BPETokenizer_decode tokenizer token_ids).
Proof.
  split.
  - intros text ids. unfold TinyLlama_tokenize_to_ids.
    destruct (is_initialized_ t); [|discriminate].
    destruct (validate_string_input text true) as [[]| |] eqn:Hs; try discriminate.
    cbn [bind].
    destruct (validate_string_input_ok text true Hs) as (_ & Hnul & Hlen).
    destruct (model_ t) as [m|]; [|discriminate].
    unfold TinyLlamaModel_tokenize.
    destruct (tokenizer_ m) as [tk|] eqn:Htk; cbn [rethrow is_TinyLlamaException];
      [|discriminate].
    intro H. inversion H. subst ids.
    repeat split; try assumption. exists m, tk. repeat split. exact Htk.
  - intros ids text. unfold TinyLlama_detokenize.
    destruct (is_initialized_ t); [|discriminate].
    destruct (validate_token_ids ids) as [[]| |] eqn:Hs; try discriminate.
    cbn [bind].
    destruct (validate_token_ids_ok ids Hs) as (Hpos & Hlen).
    destruct (model_ t) as [m|]; [|discriminate].
    unfold TinyLlamaModel_detokenize.
    destruct (tokenizer_ m) as [tk|] eqn:Htk; cbn [rethrow is_TinyLlamaException];
      [|discriminate].
    intro H. inversion H. subst text.
    repeat split; try assumption. exists m, tk. repeat split. exact Htk.
Qed.

Lemma TinyLlama_tokenization_delegates_witness :
  let t := {| model_ := Some (favourite_model 3); is_initialized_ := true |} in
  (is_initialized_ t = true /\
   ~ In NUL (list_ascii_of_string "a") /\
   Z.of_nat (String.length "a") <= 1000000 /\
   exists m tokenizer,
     model_ t = Some m /\ tokenizer_ m = Some tokenizer /\
     [0] = BPETokenizer_encode tokenizer "a") /\
  (is_initialized_ t = true /\
   Forall (fun id => 0 <= id) [3; 0] /\
   Z.of_nat (length [3; 0]) <= 100000 /\
   exists m tokenizer,
     model_ t = Some m /\ tokenizer_ m = Some tokenizer /\
     "<eos><unk>"%string = BPETokenizer_decode tokenizer [3; 0]).
Proof.
  intro t. destruct (TinyLlama_tokenization_delegates t) as [Hencode Hdecode]. split.
  - apply (Hencode "a"%string [0]). reflexivity.
  - apply (Hdecode [3; 0] "<eos><unk>"%string). reflexivity.
Defined.

(** X28. [set_temperature] stores a temperature only if it is finite, at
    least [0.01f] and at most [1000f]; the stored value is then positive, so
    a softmax given that temperature divides by it, never by zero. *)
Theorem TinyLlama_set_temperature_range (t t' : TinyLlama) (temperature : float32) :
  TinyLlama_set_temperature t temperature = Ok t' ->
  f32_is_finite temperature = true /\
  f32_ltb temperature f32_hundredth = false /\
  f32_ltb (f32_of_Z 1000) temperature = false /\
  f32_ltb f32_zero temperature = true /\
  is_initialized_ t' = is_initialized_ t /\
  exists m, model_ t = Some m /\
            model_ t' = Some (TinyLlamaModel_set_temperature m temperature) /\
            forall stored,
              effective_temperature f32_zero f32_ltb stored temperature = temperature.
Proof.
  unfold TinyLlama_set_temperature. intro H.
  destruct (model_ t) as [m|]; [|discriminate].
  unfold validate_positive_float in H. fold f32_hundredth in H.
  destruct (f32_ltb temperature f32_hundredth) eqn:E1; [discriminate|]. cbn [negb] in H.
  destruct (f32_is_finite temperature) eqn:E2; [|discriminate].
  destruct (f32_ltb (f32_of_Z 1000) temperature) eqn:E3; [discriminate|].
  cbn [negb bind] in H. inversion H. subst t'. clear H.
  assert (Hpos : f32_ltb f32_zero temperature = true).
  { destruct (f32_ltb f32_zero temperature) eqn:E0; [reflexivity|].
    assert (Hnan : f32_is_nan temperature = false) by (destruct temperature; easy).
    pose proof (f32_ltb_negtrans f32_zero temperature f32_hundredth Hnan eq_refl E0).
    congruence. }
  repeat split; try assumption.
  exists m. split; [reflexivity|]. split; [reflexivity|].
  intro stored. unfold effective_temperature. now rewrite Hpos.
Qed.

Lemma TinyLlama_set_temperature_range_witness :
  let t := {| model_ := Some (favourite_model 3); is_initialized_ := true |} in
  let t' := {| model_ := Some (TinyLlamaModel_set_temperature (favourite_model 3) f32_half);
               is_initialized_ := true |} in
  f32_is_finite f32_half = true /\
  f32_ltb f32_half f32_hundredth = false /\
  f32_ltb (f32_of_Z 1000) f32_half = false /\
  f32_ltb f32_zero f32_half = true /\
  is_initialized_ t' = is_initialized_ t /\
  exists m, model_ t = Some m /\
            model_ t' = Some (TinyLlamaModel_set_temperature m f32_half) /\
            forall stored,
              effective_temperature f32_zero f32_ltb stored f32_half = f32_half.
Proof.
  intros t t'. apply (TinyLlama_set_temperature_range t t' f32_half). reflexivity.
Defined.

(** X29. [set_max_sequence_length] never succeeds: whatever the argument
    and the state, it throws a [ConfigurationException]. *)
Theorem TinyLlama_set_max_sequence_length_fails (t : TinyLlama) (max_length : Z) :
  exists what,
    TinyLlama_set_max_sequence_length t max_length = Throw (ConfigurationException what).
Proof.
  unfold TinyLlama_set_max_sequence_length, validate_positive_integer.
  destruct (model_ t) as [m|]; [|eexists; reflexivity].
  destruct (max_length <? 1); cbn [negb bind]; [eexists; reflexivity|].
  destruct (1000000 <? max_length); cbn [negb bind]; [eexists; reflexivity|].
  destruct (100000 <? max_length); cbn [negb]; eexists; reflexivity.
Qed.
